(** * iLQR, hindsight iLQR and the LQR tree of qr_trees: model and properties

    A shallow embedding of
      - src/templated/iLQR_impl.hh            (single-chain iLQR solver),
      - src/templated/iLQR_hindsight_impl.hh  (multi-branch hindsight solver),
      - src/lqr/lqr_tree.cc                   (Bellman backup on an LQR tree).

    Scalars.  The C++ code computes on [double].  The model computes in an
    arbitrary ordered field [F] (exact arithmetic), so that the algebraic
    content of the backups can be stated as equations.  The three places
    where the code relies on IEEE special values (the initial
    [old_cost = +infinity], the [quiet_NaN] that forces a first line-search
    pass, and the division in the cost ratio) are modelled by the small
    type [xdouble] below.  Where the underflow of the halved step size
    decides whether a line search ends, the step size is modelled as the
    binary64 number it is ([step64], [line_search64]).

    Matrices.  [Matrix<r,c>] is ['M[F]_(r,c)], [Vector<n>] is ['cV[F]_n].

    Control flow.  [solve] may fail an [IS_*] check (the macros throw) and
    its line search is an unbounded [while]; both are made explicit by the
    [outcome] type: [Throw] for a failed check, [Diverge] when the fuel
    given to a line search is exhausted. *)

From HB Require Import structures.
From mathcomp Require Import ssreflect ssrfun ssrbool eqtype ssrnat seq choice.
From mathcomp Require Import fintype bigop order ssralg ssrnum ssrint archimedean rat matrix.
From mathcomp Require Import ring lra.

Set Implicit Arguments.
Unset Strict Implicit.
Unset Printing Implicit Defensive.

Set Warnings "-rewrite-rw".

Import GRing.Theory Num.Theory Order.Theory.
Local Open Scope ring_scope.

(* ===================================================================== *)
(** ** Outcomes of a call *)
(* ===================================================================== *)

Inductive outcome (A : Type) : Type :=
  | Done of A     (* the call returned *)
  | Throw         (* an IS_* check failed *)
  | Diverge.      (* an unbounded loop used up its fuel *)

Arguments Throw {A}.
Arguments Diverge {A}.

Definition bind (A B : Type) (m : outcome A) (f : A -> outcome B) : outcome B :=
  match m with
  | Done a => f a
  | Throw => Throw
  | Diverge => Diverge
  end.

Notation "x <- m ;; k" := (bind m (fun x => k))
  (at level 61, m at next level, right associativity).
Notation "' pat <- m ;; k" := (bind m (fun x => match x with pat => k end))
  (at level 61, pat pattern, m at next level, right associativity).
Notation "m ;;; k" := (bind m (fun _ => k))
  (at level 61, right associativity).

(** The checking macros of utils/debug_utils.hh, as they are used in the
    sources: each throws when its condition is false. *)
Definition IS_TRUE (b : bool) : outcome unit := if b then Done tt else Throw.

(** [for (b = lo; b < lo + n; ++b) body(b)] over a loop state. *)
Fixpoint for_loop (S : Type) (body : nat -> S -> outcome S)
    (lo n : nat) (st : S) : outcome S :=
  match n with
  | 0 => Done st
  | n'.+1 => st' <- body lo st ;; for_loop body lo.+1 n' st'
  end.

(** A C++ [int] argument used as a size or an iteration count, once it is
    known to be non-negative. *)
Definition int_to_nat (z : int) : nat :=
  match z with Posz n => n | Negz _ => 0%N end.

(* ===================================================================== *)
(** ** Doubles with the special values the solvers use *)
(* ===================================================================== *)

Section XDouble.

Variable F : realFieldType.

Inductive xdouble : Type :=
  | Finite of F
  | PosInf         (* std::numeric_limits<double>::infinity() *)
  | NaN.           (* std::numeric_limits<double>::quiet_NaN() *)

(** IEEE [a < b]: false as soon as one side is NaN. *)
Definition xlt (a b : xdouble) : bool :=
  match a, b with
  | Finite x, Finite y => x < y
  | Finite _, PosInf => true
  | _, _ => false
  end.

(** [std::abs((old_cost - new_cost) / new_cost)] for a finite [new_cost]:
    with [old_cost = +inf] the quotient is infinite; a zero [new_cost]
    gives [0/0 = NaN] or [d/0 = inf]. *)
Definition cost_diff_ratio (old_cost : xdouble) (new_cost : F) : xdouble :=
  match old_cost with
  | Finite o =>
      if new_cost == 0 then (if o - new_cost == 0 then NaN else PosInf)
      else Finite `|(o - new_cost) / new_cost|
  | PosInf => PosInf
  | NaN => NaN
  end.

(** [constexpr double beta = 0.5]. *)
Definition beta : F := 2^-1.

(** The line-search loop shared by both solvers:
<<
      double new_cost = NaN;  double cost_diff_ratio = abs((old - new)/new);
      while (!(new_cost < old_cost || cost_diff_ratio < cost_convg_ratio)) {
          new_cost = <pass at alpha>;
          cost_diff_ratio = std::abs((old_cost - new_cost) / new_cost);
          alpha *= beta;
      }
>>
    The initial NaN makes the first test fail, so the body runs at least
    once.  [pass alpha] is the body's evaluation of the cost at [alpha]
    together with whatever it leaves in the holders.  The result is
    (holders, new_cost, cost_diff_ratio, alpha) at loop exit. *)
Fixpoint line_search (A : Type) (fuel : nat) (pass : F -> outcome (A * F))
    (old_cost : xdouble) (cost_convg_ratio : F) (alpha : F)
    : outcome (A * F * xdouble * F) :=
  match fuel with
  | 0 => Diverge
  | fuel'.+1 =>
      ' (held, new_cost) <- pass alpha ;;
      let ratio := cost_diff_ratio old_cost new_cost in
      let alpha' := alpha * beta in
      if xlt (Finite new_cost) old_cost || xlt ratio (Finite cost_convg_ratio)
      then Done (held, new_cost, ratio, alpha')
      else line_search fuel' pass old_cost cost_convg_ratio alpha'
  end.

End XDouble.

Arguments PosInf {F}.
Arguments NaN {F}.

(* ===================================================================== *)
(** ** What the solvers take from outside the three source files *)
(* ===================================================================== *)

(** Eigen's [inverse()], the numerical differentiation helpers
    ([linearize_dynamics], [quadratize_cost]) and the comparison helpers
    ([math::is_equal], the [IS_ALMOST_EQUAL] macro) are not part of the
    three files; the solvers are parametric in them.  Nothing is assumed
    about [inverse]: Eigen returns some matrix even when its argument is
    singular. *)

Record quadratic (F : realFieldType) (xdim udim : nat) : Type := Quadratic {
  quad_Q : 'M[F]_xdim;
  quad_R : 'M[F]_udim;
  quad_P : 'M[F]_(xdim, udim);
  quad_g_x : 'cV[F]_xdim;
  quad_g_u : 'cV[F]_udim
}.

Class Numerics (F : realFieldType) (xdim udim : nat) : Type := {
  inverse : 'M[F]_udim -> 'M[F]_udim;
  linearize_dynamics :
    ('cV[F]_xdim -> 'cV[F]_udim -> 'cV[F]_xdim) ->
    'cV[F]_xdim -> 'cV[F]_udim -> 'M[F]_xdim * 'M[F]_(xdim, udim);
  quadratize_cost :
    ('cV[F]_xdim -> 'cV[F]_udim -> nat -> F) -> nat ->
    'cV[F]_xdim -> 'cV[F]_udim -> quadratic F xdim udim;
  quadratize_final_cost :
    ('cV[F]_xdim -> F) -> 'cV[F]_xdim -> 'M[F]_xdim * 'cV[F]_xdim;
  is_equal : forall n : nat, 'cV[F]_n -> 'cV[F]_n -> bool;
  almost_equal : F -> F -> F -> bool
}.

(* ===================================================================== *)
(** ** What both solvers share *)
(* ===================================================================== *)

Section Rollout.

Variable F : realFieldType.
Variables xdim udim : nat.

Definition DynamicsFunc : Type := 'cV[F]_xdim -> 'cV[F]_udim -> 'cV[F]_xdim.
Definition CostFunc : Type := 'cV[F]_xdim -> 'cV[F]_udim -> nat -> F.
Definition FinalCostFunc : Type := 'cV[F]_xdim -> F.

(** The body of [compute_control_stepsize] (the same in both solvers), on
    the four vectors it reads. *)
Definition control_stepsize
    (Ks : seq 'M[F]_(udim, xdim)) (ks : seq 'cV[F]_udim)
    (uhat : seq 'cV[F]_udim) (xhat : seq 'cV[F]_xdim)
    (xt : 'cV[F]_xdim) (t : nat) (alpha : F) : 'cV[F]_udim :=
  let Kt := nth 0 Ks t in
  let kt := nth 0 ks t in
  let zt := xt - nth 0 xhat t in
  let vt := Kt *m zt + alpha *: kt in
  vt + nth 0 uhat t.

(** The loop of [forward_pass] (the same in both solvers), [n] steps from
    time [t] at state [xt]: the states after [xt], the controls, and the
    accumulated cost. *)
Fixpoint rollout (dyn : DynamicsFunc) (cost : CostFunc)
    (control : 'cV[F]_xdim -> nat -> 'cV[F]_udim)
    (n t : nat) (xt : 'cV[F]_xdim) (cost_to_go : F)
    : seq 'cV[F]_xdim * seq 'cV[F]_udim * F :=
  match n with
  | 0 => ([::], [::], cost_to_go)
  | n'.+1 =>
      let ut := control xt t in
      let c := cost xt ut t in
      let xt1 := dyn xt ut in
      let: (xs, us, J) := rollout dyn cost control n' t.+1 xt1 (cost_to_go + c) in
      (xt1 :: xs, ut :: us, J)
  end.

End Rollout.

(* ===================================================================== *)
(** ** The single-chain solver (templated/iLQR_impl.hh) *)
(* ===================================================================== *)

Module Chain.
Section Solver.

Variable F : realFieldType.
Variables xdim udim : nat.
Context {num : Numerics F xdim udim}.

(** The members of [iLQRSolver<xdim,udim>] that the implementation uses. *)
Record iLQRSolver : Type := ILQRSolver {
  dynamics_ : DynamicsFunc F xdim udim;
  cost_ : CostFunc F xdim udim;
  final_cost_ : FinalCostFunc F xdim;
  Ks_ : seq 'M[F]_(udim, xdim);
  ks_ : seq 'cV[F]_udim;
  uhat_ : seq 'cV[F]_udim;
  xhat_ : seq 'cV[F]_xdim
}.

Definition set_gains (s : iLQRSolver) Ks ks : iLQRSolver :=
  ILQRSolver (dynamics_ s) (cost_ s) (final_cost_ s) Ks ks (uhat_ s) (xhat_ s).

Definition set_nominal (s : iLQRSolver) uhat xhat : iLQRSolver :=
  ILQRSolver (dynamics_ s) (cost_ s) (final_cost_ s) (Ks_ s) (ks_ s) uhat xhat.

Definition compute_control_stepsize (s : iLQRSolver)
    (xt : 'cV[F]_xdim) (t : nat) (alpha : F) : 'cV[F]_udim :=
  control_stepsize (Ks_ s) (ks_ s) (uhat_ s) (xhat_ s) xt t alpha.

Definition timesteps (s : iLQRSolver) : outcome nat :=
  let T := size (uhat_ s) in
  IS_TRUE (T == size (ks_ s)) ;;;
  IS_TRUE (T == size (Ks_ s)) ;;;
  IS_TRUE (T.+1 == size (xhat_ s)) ;;;
  Done T.

(** [forward_pass]: (states, controls) and the returned cost. *)
Definition forward_pass (s : iLQRSolver) (x_init : 'cV[F]_xdim) (alpha : F)
    : outcome (seq 'cV[F]_xdim * seq 'cV[F]_udim * F) :=
  T <- timesteps s ;;
  let: (xs, us, cost_to_go) :=
    rollout (dynamics_ s) (cost_ s)
      (fun xt t => compute_control_stepsize s xt t alpha) T 0 x_init 0 in
  let states := x_init :: xs in
  let final_cost := final_cost_ s (nth 0 states T) in
  Done (states, us, cost_to_go + final_cost).

(** [bellman_backup]: the results written to [Vt], [Gt] (here [G_t]: [Gt]
    is a constructor of [comparison]), [Kt], [kt]. *)
Definition bellman_backup (s : iLQRSolver) (t : nat) (mu : F)
    (Vt1 : 'M[F]_xdim) (Gt1 : 'rV[F]_xdim)
    : 'M[F]_xdim * 'rV[F]_xdim * 'M[F]_(udim, xdim) * 'cV[F]_udim :=
  let x := nth 0 (xhat_ s) t in
  let u := nth 0 (uhat_ s) t in
  let: (A, B) := linearize_dynamics (dynamics_ s) x u in
  let q := quadratize_cost (cost_ s) t x u in
  let Q := quad_Q q in
  let R := quad_R q in
  let P := quad_P q in
  let g_x := quad_g_x q in
  let g_u := quad_g_u q in
  let LM : 'M[F]_xdim := mu *: 1%:M in
  let inv_term := (-1) *: inverse (R + B^T *m (Vt1 + LM) *m B) in
  let Kt := inv_term *m (P^T + B^T *m (Vt1 + LM) *m A) in
  let kt := inv_term *m (g_u + B^T *m Gt1^T) in
  let tmp := A + B *m Kt in
  let Vt := Q + 2 *: (P *m Kt) + Kt^T *m R *m Kt + tmp^T *m Vt1 *m tmp in
  let G_t := kt^T *m P^T + kt^T *m R *m Kt + g_x^T + g_u^T *m Kt
             + kt^T *m B^T *m Vt1 *m tmp + Gt1 *m tmp in
  (Vt, G_t, Kt, kt).

(** The backward loop [for (int t = T-1; t >= 0; --t)], entered with
    [k = t + 1] steps to go. *)
Fixpoint backward_pass (k : nat) (mu : F) (s : iLQRSolver)
    (Vt1 : 'M[F]_xdim) (Gt1 : 'rV[F]_xdim) : iLQRSolver :=
  match k with
  | 0 => s
  | t.+1 =>
      let: (Vt, G_t, Kt, kt) := bellman_backup s t mu Vt1 Gt1 in
      backward_pass t mu
        (set_gains s (set_nth 0 (Ks_ s) t Kt) (set_nth 0 (ks_ s) t kt)) Vt G_t
  end.

(** What the line search evaluates at each [alpha]: one forward pass into
    the holders [xhat_new], [uhat_new]. *)
Definition line_search_pass (s : iLQRSolver) (x_init : 'cV[F]_xdim) (alpha : F)
    : outcome (seq 'cV[F]_xdim * seq 'cV[F]_udim * F) :=
  forward_pass s x_init alpha.

(** The body of [for (iter = 0; iter < max_iters; ++iter)], [iters]
    iterations to go. *)
Fixpoint iterations (fuel iters T : nat) (x_init : 'cV[F]_xdim) (mu : F)
    (cost_convg_ratio start_alpha : F) (s : iLQRSolver) (old_cost : xdouble F)
    : outcome iLQRSolver :=
  match iters with
  | 0 => Done s
  | iters'.+1 =>
      ' (xhat_new, uhat_new, new_cost, ratio, _) <-
        line_search fuel (line_search_pass s x_init)
          old_cost cost_convg_ratio start_alpha ;;
      let s1 := set_nominal s uhat_new xhat_new in
      if xlt ratio (Finite cost_convg_ratio) then Done s1
      else
        let: (QT, gT) :=
          quadratize_final_cost (final_cost_ s1) (nth 0 (xhat_ s1) T) in
        let s2 := backward_pass T mu s1 QT gT^T in
        iterations fuel iters' T x_init mu cost_convg_ratio start_alpha s2
          (Finite new_cost)
  end.

(** The state set up at the start of [solve]. *)
Definition cold_start (s : iLQRSolver) (T : nat) (u_nominal : 'cV[F]_udim)
    : iLQRSolver :=
  set_nominal (set_gains s (nseq T 0) (nseq T 0)) (nseq T u_nominal) (nseq T.+1 0).

Definition warm_start_shift (s : iLQRSolver) (T : nat) (t_offset : int)
    : outcome iLQRSolver :=
  IS_TRUE (t_offset < Posz (size (Ks_ s))) ;;;
  let d := int_to_nat t_offset in
  let s' := set_nominal (set_gains s (drop d (Ks_ s)) (drop d (ks_ s)))
              (drop d (uhat_ s)) (drop d (xhat_ s)) in
  IS_TRUE (size (Ks_ s') == T) ;;;
  IS_TRUE (size (ks_ s') == T) ;;;
  IS_TRUE (size (uhat_ s') == T) ;;;
  IS_TRUE (size (xhat_ s') == T.+1) ;;;
  Done s'.

(** [iLQRSolver::solve].  [verbose] only selects printing and is left
    out. [fuel] bounds each line search. *)
Definition solve (fuel : nat) (T : int) (x_init : 'cV[F]_xdim)
    (u_nominal : 'cV[F]_udim) (mu : F) (max_iters : int)
    (cost_convg_ratio start_alpha : F) (warm_start : bool) (t_offset : int)
    (s : iLQRSolver) : outcome iLQRSolver :=
  IS_TRUE (0 < T) ;;;
  IS_TRUE (0 <= mu) ;;;
  IS_TRUE (0 < max_iters) ;;;
  IS_TRUE (0 < cost_convg_ratio) ;;;
  IS_TRUE (0 < start_alpha) ;;;
  s0 <- (if ~~ warm_start then Done (cold_start s (int_to_nat T) u_nominal)
         else warm_start_shift s (int_to_nat T) t_offset) ;;
  iterations fuel (int_to_nat max_iters) (int_to_nat T) x_init mu
    cost_convg_ratio start_alpha s0 PosInf.

End Solver.
End Chain.

(* ===================================================================== *)
(** ** The hindsight solver (templated/iLQR_hindsight_impl.hh) *)
(* ===================================================================== *)

(** [for (b = lo; b < lo + n; ++b) st = body(b, st)], for a body with no
    check in it. *)
Fixpoint for_each_index (S : Type) (body : nat -> S -> S)
    (lo n : nat) (st : S) : S :=
  match n with
  | 0 => st
  | n'.+1 => for_each_index body lo.+1 n' (body lo st)
  end.

Module Hindsight.
Section Solver.

Variable F : realFieldType.
Variables xdim udim : nat.
Context {num : Numerics F xdim udim}.

(** The fields of [HindsightBranch<xdim,udim>] that the implementation
    uses. *)
Record HindsightBranch : Type := Branch {
  dynamics : DynamicsFunc F xdim udim;
  cost : CostFunc F xdim udim;
  final_cost : FinalCostFunc F xdim;
  probability : F;
  Ks : seq 'M[F]_(udim, xdim);
  ks : seq 'cV[F]_udim;
  uhat : seq 'cV[F]_udim;
  xhat : seq 'cV[F]_xdim
}.

(** The members of [iLQRHindsightSolver<xdim,udim>]. *)
Record iLQRHindsightSolver : Type := HSolver {
  branches_ : seq HindsightBranch;
  K0_ : 'M[F]_(udim, xdim);
  k0_ : 'cV[F]_udim;
  xhat0_ : 'cV[F]_xdim;
  uhat0_ : 'cV[F]_udim
}.

Definition set_gains (b : HindsightBranch) Ks ks : HindsightBranch :=
  Branch (dynamics b) (cost b) (final_cost b) (probability b) Ks ks (uhat b) (xhat b).

Definition set_nominal (b : HindsightBranch) uhat xhat : HindsightBranch :=
  Branch (dynamics b) (cost b) (final_cost b) (probability b) (Ks b) (ks b) uhat xhat.

Definition set_probability (b : HindsightBranch) p : HindsightBranch :=
  Branch (dynamics b) (cost b) (final_cost b) p (Ks b) (ks b) (uhat b) (xhat b).

(** Filler for [nth] and [set_nth]; every access below is in range. *)
Definition null_branch : HindsightBranch :=
  Branch (fun _ _ => 0) (fun _ _ _ => 0) (fun _ => 0) 0 [::] [::] [::] [::].

(** [1e-3]. *)
Definition prob_eps : F := 1000%:R^-1.

Definition total_branch_probability (bs : seq HindsightBranch) : F :=
  foldl (fun total_prob branch => total_prob + probability branch) 0 bs.

(** The constructor.  It sets [K0_] and [k0_] to zero and leaves [xhat0_]
    and [uhat0_] uninitialised; the model puts zero there. *)
Definition make (branches : seq HindsightBranch) : outcome iLQRHindsightSolver :=
  IS_TRUE (0 < size branches)%N ;;;
  IS_TRUE (almost_equal (total_branch_probability branches) 1 prob_eps) ;;;
  Done (HSolver branches 0 0 0 0).

(** [IS_BETWEEN_LOWER_INCLUSIVE(branch_num, 0, branches_.size())], then
    [branches_[branch_num]]. *)
Definition branch_at (bs : seq HindsightBranch) (branch_num : nat)
    : outcome HindsightBranch :=
  IS_TRUE (branch_num < size bs)%N ;;; Done (nth null_branch bs branch_num).

Definition set_branch_probability (h : iLQRHindsightSolver)
    (branch_num : int) (p : F) : outcome iLQRHindsightSolver :=
  IS_TRUE ((0 <= branch_num) && (branch_num < Posz (size (branches_ h)))) ;;;
  IS_TRUE ((0 <= p) && (p <= 1)) ;;;
  let n := int_to_nat branch_num in
  let bs := branches_ h in
  Done (HSolver (set_nth null_branch bs n (set_probability (nth null_branch bs n) p))
          (K0_ h) (k0_ h) (xhat0_ h) (uhat0_ h)).


Definition compute_control_stepsize (branch : HindsightBranch)
    (xt : 'cV[F]_xdim) (t : nat) (alpha : F) : 'cV[F]_udim :=
  control_stepsize (Ks branch) (ks branch) (uhat branch) (xhat branch) xt t alpha.

Definition timesteps (bs : seq HindsightBranch) : outcome nat :=
  IS_TRUE (0 < size bs)%N ;;;
  let b0 := nth null_branch bs 0 in
  let T := size (uhat b0) in
  IS_TRUE (T == size (ks b0)) ;;;
  IS_TRUE (T == size (Ks b0)) ;;;
  IS_TRUE (T.+1 == size (xhat b0)) ;;;
  Done T.

Definition forward_pass (bs : seq HindsightBranch) (branch_num : nat)
    (x_init : 'cV[F]_xdim) (alpha : F)
    : outcome (seq 'cV[F]_xdim * seq 'cV[F]_udim * F) :=
  branch <- branch_at bs branch_num ;;
  T <- timesteps bs ;;
  let: (xs, us, cost_to_go) :=
    rollout (dynamics branch) (cost branch)
      (fun xt t => compute_control_stepsize branch xt t alpha) T 0 x_init 0 in
  let states := x_init :: xs in
  let final_cost := final_cost branch (nth 0 states T) in
  Done (states, us, cost_to_go + final_cost).

(** [bellman_backup(branch_num, t, mu, Vt1, Gt1, Vt, Gt)]: the branches
    with [Ks[t]] and [ks[t]] of the branch rewritten, and [Vt], [Gt]. *)
Definition bellman_backup (bs : seq HindsightBranch) (branch_num t : nat)
    (mu : F) (Vt1 : 'M[F]_xdim) (Gt1 : 'rV[F]_xdim)
    : seq HindsightBranch * 'M[F]_xdim * 'rV[F]_xdim :=
  let branch := nth null_branch bs branch_num in
  let x := nth 0 (xhat branch) t in
  let u := nth 0 (uhat branch) t in
  let: (A, B) := linearize_dynamics (dynamics branch) x u in
  let q := quadratize_cost (cost branch) t x u in
  let Q := quad_Q q in
  let R := quad_R q in
  let P := quad_P q in
  let g_x := quad_g_x q in
  let g_u := quad_g_u q in
  let LM : 'M[F]_xdim := mu *: 1%:M in
  let inv_term := (-1) *: inverse (R + B^T *m (Vt1 + LM) *m B) in
  let Kt := inv_term *m (P^T + B^T *m (Vt1 + LM) *m A) in
  let kt := inv_term *m (g_u + B^T *m Gt1^T) in
  let branch' := set_gains branch (set_nth 0 (Ks branch) t Kt)
                   (set_nth 0 (ks branch) t kt) in
  let tmp := A + B *m Kt in
  let Vt := Q + 2 *: (P *m Kt) + Kt^T *m R *m Kt + tmp^T *m Vt1 *m tmp in
  let G_t := kt^T *m P^T + kt^T *m R *m Kt + g_x^T + g_u^T *m Kt
             + kt^T *m B^T *m Vt1 *m tmp + Gt1 *m tmp in
  (set_nth null_branch bs branch_num branch', Vt, G_t).

(** The per-branch loop [for (int t = T-1; t > 0; --t)], entered with
    [t] itself. *)
Fixpoint branch_sweep (t : nat) (mu : F) (bs : seq HindsightBranch)
    (branch_num : nat) (Vt1 : 'M[F]_xdim) (Gt1 : 'rV[F]_xdim)
    : seq HindsightBranch * 'M[F]_xdim * 'rV[F]_xdim :=
  match t with
  | 0 => (bs, Vt1, Gt1)
  | t'.+1 =>
      let: (bs', Vt, G_t) := bellman_backup bs branch_num t mu Vt1 Gt1 in
      branch_sweep t' mu bs' branch_num Vt G_t
  end.

(** "Backup each branch separately": one pass of the loop over
    [branch_num].  The terminal gradient is a column vector in the code
    and is handed to a row parameter; Eigen transposes vectors on such a
    copy. *)
Definition backup_branch (T : nat) (mu : F) (branch_num : nat)
    (st : seq HindsightBranch * seq 'M[F]_xdim * seq 'rV[F]_xdim)
    : seq HindsightBranch * seq 'M[F]_xdim * seq 'rV[F]_xdim :=
  let: (bs, branch_V1, branch_G1) := st in
  let branch := nth null_branch bs branch_num in
  let: (Vt1, Gt1) := quadratize_final_cost (final_cost branch) (last 0 (xhat branch)) in
  let: (bs', V1, G1) := branch_sweep T.-1 mu bs branch_num Vt1 Gt1^T in
  (bs', set_nth 0 branch_V1 branch_num V1, set_nth 0 branch_G1 branch_num G1).

(** The accumulators of "merge the branches at the top timestep". *)
Record merge_terms : Type := MergeTerms {
  weighted_inv_term : 'M[F]_udim;
  weighted_Kt_term : 'M[F]_(udim, xdim);
  weighted_kt_term : 'cV[F]_udim;
  wQ : 'M[F]_xdim;
  wR : 'M[F]_udim;
  wP : 'M[F]_(xdim, udim);
  wg_x : 'cV[F]_xdim;
  wg_u : 'cV[F]_udim
}.

Definition merge_zero : merge_terms := MergeTerms 0 0 0 0 0 0 0 0.

Definition merge_branch (mu : F) (bs : seq HindsightBranch)
    (xhat0 : 'cV[F]_xdim) (uhat0 : 'cV[F]_udim)
    (branch_V1 : seq 'M[F]_xdim) (branch_G1 : seq 'rV[F]_xdim)
    (branch_num : nat) (acc : merge_terms) : merge_terms :=
  let LM : 'M[F]_xdim := mu *: 1%:M in
  let branch := nth null_branch bs branch_num in
  let p := probability branch in
  let x := xhat0 in
  let u := uhat0 in
  let: (A, B) := linearize_dynamics (dynamics branch) x u in
  let Vt1 := nth 0 branch_V1 branch_num in
  let Gt1 := nth 0 branch_G1 branch_num in
  let q := quadratize_cost (cost branch) 0 x u in
  MergeTerms
    (weighted_inv_term acc + p *: (B^T *m (Vt1 + LM) *m B))
    (weighted_Kt_term acc + p *: (B^T *m (Vt1 + LM) *m A))
    (weighted_kt_term acc + p *: (B^T *m Gt1^T))
    (wQ acc + p *: quad_Q q)
    (wR acc + p *: quad_R q)
    (wP acc + p *: quad_P q)
    (wg_x acc + p *: quad_g_x q)
    (wg_u acc + p *: quad_g_u q).

(** The shared first-stage gains from the accumulated terms. *)
Definition merged_gains (acc : merge_terms) : 'M[F]_(udim, xdim) * 'cV[F]_udim :=
  let inv_term := (-1) *: inverse (wR acc + weighted_inv_term acc) in
  (inv_term *m ((wP acc)^T + weighted_Kt_term acc),
   inv_term *m (wg_u acc + weighted_kt_term acc)).

(** "Copy the first timestep K to all the branches", with its two checks. *)
Fixpoint copy_first_gains (K0 : 'M[F]_(udim, xdim)) (k0 : 'cV[F]_udim)
    (xhat0 : 'cV[F]_xdim) (uhat0 : 'cV[F]_udim) (bs : seq HindsightBranch)
    : outcome (seq HindsightBranch) :=
  match bs with
  | [::] => Done [::]
  | branch :: rest =>
      let branch' := set_gains branch (set_nth 0 (Ks branch) 0 K0)
                       (set_nth 0 (ks branch) 0 k0) in
      IS_TRUE (is_equal (nth 0 (xhat branch') 0) xhat0) ;;;
      IS_TRUE (is_equal (nth 0 (uhat branch') 0) uhat0) ;;;
      rest' <- copy_first_gains K0 k0 xhat0 uhat0 rest ;;
      Done (branch' :: rest')
  end.

(** The body of the line search: the expected cost at [alpha]. *)
Definition expected_cost (bs : seq HindsightBranch) (x_init : 'cV[F]_xdim)
    (alpha : F) : outcome F :=
  for_loop
    (fun branch_num new_cost =>
       ' (_, _, branch_new_cost) <- forward_pass bs branch_num x_init alpha ;;
       let p := probability (nth null_branch bs branch_num) in
       Done (new_cost + p * branch_new_cost))
    0 (size bs) 0.

Definition line_search_pass (bs : seq HindsightBranch) (x_init : 'cV[F]_xdim)
    (alpha : F) : outcome (unit * F) :=
  new_cost <- expected_cost bs x_init alpha ;; Done (tt, new_cost).

(** "For each branch with this step size": one pass of the loop that
    rolls a branch out again and swaps the result in. *)
Definition commit_branch (x_init : 'cV[F]_xdim) (alpha : F) (branch_num : nat)
    (st : seq HindsightBranch * seq 'cV[F]_xdim * seq 'cV[F]_udim)
    : outcome (seq HindsightBranch * seq 'cV[F]_xdim * seq 'cV[F]_udim) :=
  let: (bs, x0s, u0s) := st in
  ' (xhat_new, uhat_new, _) <- forward_pass bs branch_num x_init alpha ;;
  let branch := nth null_branch bs branch_num in
  Done (set_nth null_branch bs branch_num (set_nominal branch uhat_new xhat_new),
        set_nth 0 x0s branch_num (nth 0 xhat_new 0),
        set_nth 0 u0s branch_num (nth 0 uhat_new 0)).

(** One pass of [for (iter = 0; iter < max_iters; ++iter)] up to the
    convergence test: the solver after the commit, the new cost and the
    ratio. *)
Definition forward_step (fuel : nat) (x_init : 'cV[F]_xdim)
    (cost_convg_ratio start_alpha : F) (h : iLQRHindsightSolver)
    (old_cost : xdouble F) : outcome (iLQRHindsightSolver * F * xdouble F) :=
  let bs := branches_ h in
  let num_branches := size bs in
  ' (_, new_cost, ratio, alpha) <-
    line_search fuel (line_search_pass bs x_init)
      old_cost cost_convg_ratio start_alpha ;;
  let alpha := (1 / beta F) * alpha in
  ' (bs1, x0s, u0s) <-
    for_loop (commit_branch x_init alpha) 0 num_branches
      (bs, nseq num_branches 0, nseq num_branches 0) ;;
  Done (HSolver bs1 (K0_ h) (k0_ h) (nth 0 x0s 0) (nth 0 u0s 0), new_cost, ratio).

(** The rest of the pass: per-branch backups, merge, copy. *)
Definition backward_step (T : nat) (mu : F) (h : iLQRHindsightSolver)
    : outcome iLQRHindsightSolver :=
  let bs := branches_ h in
  let num_branches := size bs in
  let: (bs2, branch_V1, branch_G1) :=
    for_each_index (backup_branch T mu) 0 num_branches
      (bs, nseq num_branches 0, nseq num_branches 0) in
  let acc :=
    for_each_index
      (merge_branch mu bs2 (xhat0_ h) (uhat0_ h) branch_V1 branch_G1)
      0 num_branches merge_zero in
  let: (K0, k0) := merged_gains acc in
  bs3 <- copy_first_gains K0 k0 (xhat0_ h) (uhat0_ h) bs2 ;;
  Done (HSolver bs3 K0 k0 (xhat0_ h) (uhat0_ h)).

Fixpoint iterations (fuel iters T : nat) (x_init : 'cV[F]_xdim) (mu : F)
    (cost_convg_ratio start_alpha : F) (h : iLQRHindsightSolver)
    (old_cost : xdouble F) : outcome iLQRHindsightSolver :=
  match iters with
  | 0 => Done h
  | iters'.+1 =>
      ' (h1, new_cost, ratio) <-
        forward_step fuel x_init cost_convg_ratio start_alpha h old_cost ;;
      if xlt ratio (Finite cost_convg_ratio) then Done h1
      else
        h2 <- backward_step T mu h1 ;;
        iterations fuel iters' T x_init mu cost_convg_ratio start_alpha h2
          (Finite new_cost)
  end.

Definition cold_start (h : iLQRHindsightSolver) (T : nat)
    (u_nominal : 'cV[F]_udim) : iLQRHindsightSolver :=
  HSolver
    [seq set_nominal (set_gains branch (nseq T 0) (nseq T 0))
           (nseq T u_nominal) (nseq T.+1 0) | branch <- branches_ h]
    0 0 0 u_nominal.

(** The first loop of the warm start: shift each branch, check its sizes,
    accumulate the averages. *)
Fixpoint warm_start_shift (T : nat) (t_offset : int) (bs : seq HindsightBranch)
    (K0 : 'M[F]_(udim, xdim)) (k0 : 'cV[F]_udim)
    : outcome (seq HindsightBranch * 'M[F]_(udim, xdim) * 'cV[F]_udim) :=
  match bs with
  | [::] => Done ([::], K0, k0)
  | branch :: rest =>
      let old_size := size (Ks branch) in
      IS_TRUE (t_offset < Posz old_size) ;;;
      let d := int_to_nat t_offset in
      let branch' := set_nominal (set_gains branch (drop d (Ks branch)) (drop d (ks branch)))
                       (drop d (uhat branch)) (drop d (xhat branch)) in
      IS_TRUE (size (Ks branch') == T) ;;;
      IS_TRUE (size (ks branch') == T) ;;;
      IS_TRUE (size (uhat branch') == T) ;;;
      IS_TRUE (size (xhat branch') == T.+1) ;;;
      ' (rest', K0', k0') <-
        warm_start_shift T t_offset rest
          (K0 + probability branch' *: nth 0 (Ks branch') 0)
          (k0 + probability branch' *: nth 0 (ks branch') 0) ;;
      Done (branch' :: rest', K0', k0')
  end.

(** The second loop of the warm start. *)
Definition set_first_slot (K0 : 'M[F]_(udim, xdim)) (k0 : 'cV[F]_udim)
    (xhat0 : 'cV[F]_xdim) (uhat0 : 'cV[F]_udim) (branch : HindsightBranch)
    : HindsightBranch :=
  set_nominal
    (set_gains branch (set_nth 0 (Ks branch) 0 K0) (set_nth 0 (ks branch) 0 k0))
    (set_nth 0 (uhat branch) 0 uhat0) (set_nth 0 (xhat branch) 0 xhat0).

Definition warm_start (h : iLQRHindsightSolver) (T : nat) (t_offset : int)
    (x_init : 'cV[F]_xdim) (u_nominal : 'cV[F]_udim)
    : outcome iLQRHindsightSolver :=
  let xhat0 := x_init in
  let uhat0 := u_nominal in
  ' (bs, K0, k0) <- warm_start_shift T t_offset (branches_ h) 0 0 ;;
  Done (HSolver [seq set_first_slot K0 k0 xhat0 uhat0 branch | branch <- bs]
          K0 k0 xhat0 uhat0).

(** [iLQRHindsightSolver::solve]; [verbose] only selects printing. *)
Definition solve (fuel : nat) (T : int) (x_init : 'cV[F]_xdim)
    (u_nominal : 'cV[F]_udim) (mu : F) (max_iters : int)
    (cost_convg_ratio start_alpha : F) (warm_start_flag : bool) (t_offset : int)
    (h : iLQRHindsightSolver) : outcome iLQRHindsightSolver :=
  IS_TRUE (1 < T) ;;;
  IS_TRUE (0 <= mu) ;;;
  IS_TRUE (0 < max_iters) ;;;
  IS_TRUE (0 < cost_convg_ratio) ;;;
  IS_TRUE (0 < start_alpha) ;;;
  IS_TRUE (0 <= t_offset) ;;;
  IS_TRUE (almost_equal (total_branch_probability (branches_ h)) 1 prob_eps) ;;;
  h0 <- (if ~~ warm_start_flag then Done (cold_start h (int_to_nat T) u_nominal)
         else warm_start h (int_to_nat T) t_offset x_init u_nominal) ;;
  iterations fuel (int_to_nat max_iters) (int_to_nat T) x_init mu
    cost_convg_ratio start_alpha h0 PosInf.

End Solver.
End Hindsight.


(* ===================================================================== *)
(** ** The LQR tree (lqr/lqr_tree.cc) *)
(* ===================================================================== *)

Module LQRTree.
Section Tree.

Variable F : realFieldType.
Variables state_dim control_dim : nat.

(** Eigen's [inverse()] on the control term; nothing is assumed about
    it. *)
Variable inverse : 'M[F]_control_dim -> 'M[F]_control_dim.

(** The order in which [for (auto &pair : parent_map)] visits an
    [std::unordered_map]: some rearrangement of its entries. *)
Variable map_order :
  seq (option nat * seq nat) -> seq (option nat * seq nat).

(** Modelled from the spec: [PlanNode] is declared in lqr/lqr_tree.hh,
    which is not among the sources.  A node carries the fixed
    [(A, B, Q, R, p)], the feedback [K], the value matrix [V] and its
    linearization point [(x, u)], which the backup does not read and the
    forward pass writes with [set_x] and [set_u]. *)
Record PlanNode : Type := MkPlanNode {
  dynamics_A : 'M[F]_state_dim;
  dynamics_B : 'M[F]_(state_dim, control_dim);
  cost_Q : 'M[F]_state_dim;
  cost_R : 'M[F]_control_dim;
  probability_ : F;
  K_ : 'M[F]_(control_dim, state_dim);
  V_ : 'M[F]_state_dim;
  x_ : 'cV[F]_state_dim;
  u_ : 'cV[F]_control_dim
}.

(** Modelled from the spec: [data::Tree] and its nodes are declared in
    utils/data/tree.hh, which is not among the sources.  The tree is an
    arena of nodes, the root at index 0; a [TreeNodePtr] is an index, a
    null pointer is [None].  A node has its item, its parent, the list of
    its children and its depth. *)
Record TreeNode : Type := MkTreeNode {
  item : PlanNode;
  parent : option nat;
  children : seq nat;
  depth : nat
}.

Definition Tree : Type := seq TreeNode.

Definition null_plan : PlanNode := MkPlanNode 0 0 0 0 0 0 0 0 0.
Definition null_node : TreeNode := MkTreeNode null_plan None [::] 0.

Definition node (t : Tree) (i : nat) : TreeNode := nth null_node t i.

(** Modelled from the spec: [Tree::leaf_nodes()], the nodes without
    children, here in the order of the arena. *)
Definition leaf_nodes (t : Tree) : seq nat :=
  filter (fun i => nilp (children (node t i))) (iota 0 (size t)).

(** Writing through [leaf->item()] or [parent->item()]. *)
Definition set_item (t : Tree) (i : nat) (pn : PlanNode) : Tree :=
  let nd := node t i in
  set_nth null_node t i (MkTreeNode pn (parent nd) (children nd) (depth nd)).

Definition set_K (pn : PlanNode) (K : 'M[F]_(control_dim, state_dim)) : PlanNode :=
  MkPlanNode (dynamics_A pn) (dynamics_B pn) (cost_Q pn) (cost_R pn)
    (probability_ pn) K (V_ pn) (x_ pn) (u_ pn).

Definition set_V (pn : PlanNode) (V : 'M[F]_state_dim) : PlanNode :=
  MkPlanNode (dynamics_A pn) (dynamics_B pn) (cost_Q pn) (cost_R pn)
    (probability_ pn) (K_ pn) V (x_ pn) (u_ pn).

Definition set_x (pn : PlanNode) (x : 'cV[F]_state_dim) : PlanNode :=
  MkPlanNode (dynamics_A pn) (dynamics_B pn) (cost_Q pn) (cost_R pn)
    (probability_ pn) (K_ pn) (V_ pn) x (u_ pn).

Definition set_u (pn : PlanNode) (u : 'cV[F]_control_dim) : PlanNode :=
  MkPlanNode (dynamics_A pn) (dynamics_B pn) (cost_Q pn) (cost_R pn)
    (probability_ pn) (K_ pn) (V_ pn) (x_ pn) u.

(** [compute_value_matrix]:
    [Vt = Q + K^T R K + (A + B K)^T Vt1 (A + B K)]. *)
Definition compute_value_matrix (pn : PlanNode) (Vt1 : 'M[F]_state_dim)
    : 'M[F]_state_dim :=
  let A := dynamics_A pn in
  let B := dynamics_B pn in
  let Q := cost_Q pn in
  let R := cost_R pn in
  let K := K_ pn in
  let tmp := A + B *m K in
  Q + K^T *m R *m K + tmp^T *m Vt1 *m tmp.

(** [compute_control_policy]:
    [K_ = (R + B^T Vt1 B).inverse() * (B^T Vt1 A);  K_ *= -1.0]. *)
Definition compute_control_policy (pn : PlanNode) (Vt1 : 'M[F]_state_dim)
    : PlanNode :=
  let A := dynamics_A pn in
  let B := dynamics_B pn in
  let R := cost_R pn in
  let inv_cntrl_term := inverse (R + B^T *m Vt1 *m B) in
  let K := inv_cntrl_term *m (B^T *m Vt1 *m A) in
  set_K pn ((-1) *: K).

(** What both loops do to one node, given the value matrix of the next
    stage: the policy first, then the value matrix from the new policy. *)
Definition backup_node (t : Tree) (i : nat) (Vt1 : 'M[F]_state_dim) : Tree :=
  let pn := compute_control_policy (item (node t i)) Vt1 in
  set_item t i (set_V pn (compute_value_matrix pn Vt1)).

(** [FIRST_DEPTH = list.size() > 0 ? list.front()->depth() : -1]. *)
Definition first_depth (t : Tree) (ns : seq nat) : int :=
  if ns is n :: _ then Posz (depth (node t n)) else -1.

(** The loop of [control_and_value_for_leaves]. *)
Fixpoint leaves_loop (FIRST_DEPTH : int) (leaves : seq nat) (t : Tree)
    : outcome Tree :=
  match leaves with
  | [::] => Done t
  | leaf :: leaves' =>
      IS_TRUE (Posz (depth (node t leaf)) == FIRST_DEPTH) ;;;
      leaves_loop FIRST_DEPTH leaves' (backup_node t leaf 0)
  end.

Definition control_and_value_for_leaves (t : Tree) : outcome Tree :=
  let leaves := leaf_nodes t in
  leaves_loop (first_depth t leaves) leaves t.

(** [parent_map[key].push_back(child)]: a new key gets a new entry. *)
Fixpoint map_push (m : seq (option nat * seq nat)) (key : option nat)
    (child : nat) : seq (option nat * seq nat) :=
  match m with
  | [::] => [:: (key, [:: child])]
  | (k, cs) :: m' =>
      if k == key then (k, rcons cs child) :: m'
      else (k, cs) :: map_push m' key child
  end.

(** The first loop of [backup_to_parents]. *)
Fixpoint group_by_parent (t : Tree) (FIRST_DEPTH : int) (all_children : seq nat)
    (parent_map : seq (option nat * seq nat))
    : outcome (seq (option nat * seq nat)) :=
  match all_children with
  | [::] => Done parent_map
  | child :: rest =>
      IS_TRUE (Posz (depth (node t child)) == FIRST_DEPTH) ;;;
      group_by_parent t FIRST_DEPTH rest
        (map_push parent_map (parent (node t child)) child)
  end.

(** [Vtilde = ZERO; for child: Vtilde += child.probability_ * child.V_]. *)
Definition weighted_value (t : Tree) (cs : seq nat) : 'M[F]_state_dim :=
  foldl (fun Vtilde child =>
           Vtilde + probability_ (item (node t child)) *: V_ (item (node t child)))
        0 cs.

(** The second loop of [backup_to_parents].  A null key cannot be
    dereferenced; the model stops there. *)
Fixpoint parents_loop (pairs : seq (option nat * seq nat)) (t : Tree)
    (parents : seq nat) : outcome (Tree * seq nat) :=
  match pairs with
  | [::] => Done (t, parents)
  | (key, cs) :: pairs' =>
      let Vtilde := weighted_value t cs in
      if key is Some p then
        parents_loop pairs' (backup_node t p Vtilde) (rcons parents p)
      else Throw
  end.

Definition backup_to_parents (t : Tree) (all_children : seq nat)
    : outcome (Tree * seq nat) :=
  parent_map <- group_by_parent t (first_depth t all_children) all_children [::] ;;
  parents_loop (map_order parent_map) t [::].

(** The [while] of [bellman_tree_backup]; [fuel] bounds its rounds. *)
Fixpoint backup_rounds (fuel : nat) (t : Tree) (all_children : seq nat)
    : outcome Tree :=
  if (size all_children == 1%N) && (depth (node t (head 0%N all_children)) == 0%N)
  then Done t
  else
    match fuel with
    | 0 => Diverge
    | fuel'.+1 =>
        ' (t', parents) <- backup_to_parents t all_children ;;
        backup_rounds fuel' t' parents
    end.

Definition bellman_tree_backup (fuel : nat) (t : Tree) : outcome Tree :=
  t1 <- control_and_value_for_leaves t ;;
  backup_rounds fuel t1 (leaf_nodes t1).

(** [forward_node]: the control [ut = K_ * xt], the new linearization
    point written to the node, and the next state [A xt + B ut].
    [update_dynamics] and [update_cost] are noted in the source to do
    nothing. *)
Definition forward_node (pn : PlanNode) (xt : 'cV[F]_state_dim)
    : PlanNode * 'cV[F]_state_dim :=
  let ut := K_ pn *m xt in
  let pn := set_u (set_x pn xt) ut in
  (pn, dynamics_A pn *m xt + dynamics_B pn *m ut).

(** [to_process.pop_back()]. *)
Definition pop_back (T : Type) (q : seq T) : seq T := take (size q).-1 q.

(** The [while] of [forward_pass]: the pair at the back of the list is
    processed, its children are put at the front, one after the other,
    with the next state, and the pair is removed; [fuel] bounds the
    rounds. *)
Fixpoint forward_loop (fuel : nat) (t : Tree)
    (to_process : seq (nat * 'cV[F]_state_dim)) : outcome Tree :=
  if nilp to_process then Done t
  else
    match fuel with
    | 0 => Diverge
    | fuel'.+1 =>
        let process_pair := last (0%N, 0) to_process in
        let: (pn, xt1) :=
          forward_node (item (node t process_pair.1)) process_pair.2 in
        let t' := set_item t process_pair.1 pn in
        let to_process' :=
          foldl (fun q child => (child, xt1) :: q) to_process
            (children (node t' process_pair.1)) in
        forward_loop fuel' t' (pop_back to_process')
    end.

(** [forward_pass]; the root is node 0, and a tree without a root has
    none to start from: the model stops there. *)
Definition forward_pass (fuel : nat) (x0 : 'cV[F]_state_dim) (t : Tree)
    : outcome Tree :=
  if nilp t then Throw else forward_loop fuel t [:: (0%N, x0)].

End Tree.
End LQRTree.
(* ===================================================================== *)
(** ** The value-function backup as the specification words it *)
(* ===================================================================== *)

Section BackupSpec.

Variable F : realFieldType.
Variables xdim udim : nat.
Context {num : Numerics F xdim udim}.

Variable mu : F.
Variable V1 : 'M[F]_xdim.
Variable g1 : 'rV[F]_xdim.
Variable A : 'M[F]_xdim.
Variable B : 'M[F]_(xdim, udim).
Variable q : quadratic F xdim udim.

(** LM inflation: [V~ = V_{t+1} + mu I]. *)
Definition spec_Vtilde : 'M[F]_xdim := V1 + mu%:M.

(** [H = R + B^T V~ B]. *)
Definition spec_H : 'M[F]_udim := quad_R q + B^T *m spec_Vtilde *m B.

(** [K_t = - H^-1 (P^T + B^T V~ A)]. *)
Definition spec_K : 'M[F]_(udim, xdim) :=
  - (inverse spec_H *m ((quad_P q)^T + B^T *m spec_Vtilde *m A)).

(** [k_t = - H^-1 (g_u + B^T g_{t+1}^T)]. *)
Definition spec_k : 'cV[F]_udim :=
  - (inverse spec_H *m (quad_g_u q + B^T *m g1^T)).

(** [M = A + B K_t]. *)
Definition spec_M : 'M[F]_xdim := A + B *m spec_K.

(** [V_t = Q + 2 (P K_t) + K_t^T R K_t + M^T V_{t+1} M], on the un-inflated
    [V_{t+1}]. *)
Definition spec_V : 'M[F]_xdim :=
  quad_Q q + 2 *: (quad_P q *m spec_K) + spec_K^T *m quad_R q *m spec_K
  + spec_M^T *m V1 *m spec_M.

(** [g_t = k^T P^T + k^T R K + g_x^T + g_u^T K + k^T B^T V_{t+1} M + g_{t+1} M]. *)
Definition spec_g : 'rV[F]_xdim :=
  spec_k^T *m (quad_P q)^T + spec_k^T *m quad_R q *m spec_K + (quad_g_x q)^T
  + (quad_g_u q)^T *m spec_K + spec_k^T *m B^T *m V1 *m spec_M + g1 *m spec_M.

End BackupSpec.

(* ===================================================================== *)
(** ** The hindsight backward pass as the specification words it *)
(* ===================================================================== *)

Section HindsightSpec.

Variable F : realFieldType.
Variables xdim udim : nat.
Context {num : Numerics F xdim udim}.

Local Notation branch := (Hindsight.HindsightBranch F xdim udim).

(** The backup of section 4.2 for one branch at time [t], from the value
    model [(V, g)] of time [t + 1]: the branch with the gains of time [t]
    stored, and the value model of time [t]. *)
Definition spec_branch_backup (t : nat) (mu : F) (b : branch)
    (V : 'M[F]_xdim) (g : 'rV[F]_xdim) : branch * 'M[F]_xdim * 'rV[F]_xdim :=
  let x := nth 0 (Hindsight.xhat b) t in
  let u := nth 0 (Hindsight.uhat b) t in
  let AB := linearize_dynamics (Hindsight.dynamics b) x u in
  let q := quadratize_cost (Hindsight.cost b) t x u in
  (Hindsight.set_gains b
     (set_nth 0 (Hindsight.Ks b) t (spec_K mu V AB.1 AB.2 q))
     (set_nth 0 (Hindsight.ks b) t (spec_k mu V g AB.2 q)),
   spec_V mu V AB.1 AB.2 q, spec_g mu V g AB.1 AB.2 q).

(** The sweep from time [t] down to time 1 (time 0 is left out). *)
Fixpoint spec_branch_sweep (t : nat) (mu : F) (b : branch)
    (V : 'M[F]_xdim) (g : 'rV[F]_xdim) : branch * 'M[F]_xdim * 'rV[F]_xdim :=
  match t with
  | 0 => (b, V, g)
  | t'.+1 =>
      let: (b', V', g') := spec_branch_backup t mu b V g in
      spec_branch_sweep t' mu b' V' g'
  end.

(** Per branch: the terminal cost seeds [(V_T, g_T)], the sweep runs from
    [T - 1] down to 1 and ends with the boundary pair [(V_1, g_1)]. *)
Definition spec_boundary (T : nat) (mu : F) (b : branch)
    : branch * 'M[F]_xdim * 'rV[F]_xdim :=
  let: (V_T, g_T) :=
    quadratize_final_cost (Hindsight.final_cost b) (last 0 (Hindsight.xhat b)) in
  spec_branch_sweep T.-1 mu b V_T g_T^T.

Variable T : nat.
Variable mu : F.
Variable xhat0 : 'cV[F]_xdim.
Variable uhat0 : 'cV[F]_udim.
Variable bs : seq branch.

(** Linearization and quadratization of a branch at the shared point. *)
Definition spec_A0 (b : branch) : 'M[F]_xdim :=
  (linearize_dynamics (Hindsight.dynamics b) xhat0 uhat0).1.
Definition spec_B0 (b : branch) : 'M[F]_(xdim, udim) :=
  (linearize_dynamics (Hindsight.dynamics b) xhat0 uhat0).2.
Definition spec_q0 (b : branch) : quadratic F xdim udim :=
  quadratize_cost (Hindsight.cost b) 0 xhat0 uhat0.
Definition spec_V1 (b : branch) : 'M[F]_xdim := (spec_boundary T mu b).1.2.
Definition spec_g1 (b : branch) : 'rV[F]_xdim := (spec_boundary T mu b).2.

(** [Hbar = sum_b p_b (R^b + B^b^T (V_1^b + mu I) B^b)]. *)
Definition spec_Hbar : 'M[F]_udim :=
  \sum_(b <- bs) Hindsight.probability b *:
     (quad_R (spec_q0 b) + (spec_B0 b)^T *m (spec_V1 b + mu%:M) *m spec_B0 b).

(** [Mbar = sum_b p_b (P^b^T + B^b^T (V_1^b + mu I) A^b)]. *)
Definition spec_Mbar : 'M[F]_(udim, xdim) :=
  \sum_(b <- bs) Hindsight.probability b *:
     ((quad_P (spec_q0 b))^T + (spec_B0 b)^T *m (spec_V1 b + mu%:M) *m spec_A0 b).

(** [mbar = sum_b p_b (B^b^T (g_1^b)^T) + sum_b p_b g_u^b]. *)
Definition spec_mbar : 'cV[F]_udim :=
  \sum_(b <- bs) Hindsight.probability b *: ((spec_B0 b)^T *m (spec_g1 b)^T)
  + \sum_(b <- bs) Hindsight.probability b *: quad_g_u (spec_q0 b).

(** [K_0 = - Hbar^-1 Mbar] and [k_0 = - Hbar^-1 mbar]. *)
Definition spec_K0 : 'M[F]_(udim, xdim) := - (inverse spec_Hbar *m spec_Mbar).
Definition spec_k0 : 'cV[F]_udim := - (inverse spec_Hbar *m spec_mbar).

End HindsightSpec.


(* ===================================================================== *)
(** ** Linear-quadratic problems with exact derivatives *)
(* ===================================================================== *)

(** For dynamics [f(x,u) = A x + B u], running cost
    [c(x,u) = c0 + x^T Q x / 2 + x^T P u + u^T R u / 2] and final cost
    [cT(x) = x^T QT x / 2] the differentiation helpers return, up to
    rounding, the matrices below ([Q], [R], [QT] symmetric).  The instance
    takes the true inverse for [inverse] (MathComp's [invmx] leaves a
    singular matrix unchanged) and exact equality for the comparisons. *)

Section LinearQuadratic.

Variable F : realFieldType.
Variables xdim udim : nat.
Variable A : 'M[F]_xdim.
Variable B : 'M[F]_(xdim, udim).
Variable Q : 'M[F]_xdim.
Variable R : 'M[F]_udim.
Variable P : 'M[F]_(xdim, udim).
Variable QT : 'M[F]_xdim.
Variable c0 : F.

Definition lq_dynamics : DynamicsFunc F xdim udim :=
  fun x u => A *m x + B *m u.

Definition lq_cost : CostFunc F xdim udim :=
  fun x u _ =>
    c0 + (2^-1 *: (x^T *m Q *m x) + x^T *m P *m u + 2^-1 *: (u^T *m R *m u)) 0 0.

Definition lq_final_cost : FinalCostFunc F xdim :=
  fun x => (2^-1 *: (x^T *m QT *m x)) 0 0.

Definition lq_numerics : Numerics F xdim udim := {|
  inverse := invmx;
  linearize_dynamics := fun _ _ _ => (A, B);
  quadratize_cost := fun _ _ x u =>
    Quadratic Q R P (Q *m x + P *m u) (P^T *m x + R *m u);
  quadratize_final_cost := fun _ x => (QT, QT *m x);
  is_equal := fun _ x y => x == y;
  almost_equal := fun a b eps => `|a - b| <= eps
|}.

(** The solver object for this problem, before [solve]. *)
Definition lq_solver : Chain.iLQRSolver F xdim udim :=
  Chain.ILQRSolver lq_dynamics lq_cost lq_final_cost [::] [::] [::] [::].

Definition lq_branch (p : F) : Hindsight.HindsightBranch F xdim udim :=
  Hindsight.Branch lq_dynamics lq_cost lq_final_cost p [::] [::] [::] [::].

End LinearQuadratic.

(** A problem with a cross term: two states, one control,
    [f(x,u) = x + (0, u)], [c(x,u) = x_0 u], no final cost. *)
Definition cross_numerics : Numerics rat 2 1 :=
  lq_numerics 1%:M (delta_mx ord_max ord0) 0 0 (delta_mx ord0 ord0) 0.

Definition cross_solver : Chain.iLQRSolver rat 2 1 :=
  Chain.cold_start
    (lq_solver 1%:M (delta_mx ord_max ord0) 0 0 (delta_mx ord0 ord0) 0 0)
    1 0.

Definition cross_branches : seq (Hindsight.HindsightBranch rat 2 1) :=
  Hindsight.branches_
    (Hindsight.cold_start
       (Hindsight.HSolver
          [:: lq_branch 1%:M (delta_mx ord_max ord0) 0 0 (delta_mx ord0 ord0) 0 0 1]
          0 0 0 0)
       2 0).

(** The flat problem: one state, one control, [f(x,u) = x], constant
    running cost [1], no final cost.  All its derivatives vanish, so the
    control Hessian [R + B^T (V + mu I) B] is the zero matrix. *)
Definition flat_numerics : Numerics rat 1 1 := lq_numerics 1%:M 0 0 0 0 0.

Definition flat_solver : Chain.iLQRSolver rat 1 1 := lq_solver 1%:M 0 0 0 0 0 1.

Definition flat_branch (p : rat) : Hindsight.HindsightBranch rat 1 1 :=
  lq_branch 1%:M 0 0 0 0 0 1 p.

(** Two equally likely branches that hold three time steps of earlier
    results. *)
Definition warm_branch (K1 : rat) : Hindsight.HindsightBranch rat 1 1 :=
  Hindsight.Branch
    (Hindsight.dynamics (flat_branch 2^-1)) (Hindsight.cost (flat_branch 2^-1))
    (Hindsight.final_cost (flat_branch 2^-1)) 2^-1
    [:: 0; K1%:M; 0] [:: 0; 0; 0] [:: 0; 0; 0] [:: 0; 0; 0; 0].

Definition warm_solver : Hindsight.iLQRHindsightSolver rat 1 1 :=
  Hindsight.HSolver [:: warm_branch 1; warm_branch 3] 0 0 0 0.

(** Two equally likely branches of the flat problem. *)
Definition flat_hsolver : Hindsight.iLQRHindsightSolver rat 1 1 :=
  Hindsight.HSolver [:: flat_branch 2^-1; flat_branch 2^-1] 0 0 0 0.

(** Branch probabilities [3/2] and [-1/2]: they sum to 1. *)
Definition skewed_branches : seq (Hindsight.HindsightBranch rat 1 1) :=
  [:: flat_branch (3%:R / 2%:R); flat_branch (- (1 / 2%:R))].

(** A regulator: one state, one control, [f(x,u) = x + u], running cost
    [c0 + x^2/2 + u^2/2], final cost [x^2/2].  Started at the origin with
    zero nominal controls it is at its goal. *)
Definition goal_numerics : Numerics rat 1 1 :=
  lq_numerics 1%:M 1%:M 1%:M 1%:M 0 1%:M.


(** The same regulator with running cost [1 + x^2/2 + u^2/2], at the
    origin with zero nominal controls, holding a feedforward term [k = 1]
    that leads away from the origin: the pass at step size [alpha] costs
    [1 + alpha^2]. *)
Definition overshoot : Chain.iLQRSolver rat 1 1 :=
  Chain.ILQRSolver (lq_dynamics 1%:M 1%:M) (lq_cost 1%:M 1%:M 0 1)
    (lq_final_cost 1%:M) [:: 0] [:: 1%:M] [:: 0] [:: 0; 0].

(** An LQR tree of depth 1: a root with two leaves of probabilities 2/5
    and 3/5, every node with [A = B = Q = R = 1] (one state, one
    control). *)
Definition fork_plan (p : rat) : LQRTree.PlanNode rat 1 1 :=
  LQRTree.MkPlanNode 1%:M 1%:M 1%:M 1%:M p 0 0 0 0.

Definition fork_tree : LQRTree.Tree rat 1 1 :=
  [:: LQRTree.MkTreeNode (fork_plan 1) None [:: 1%N; 2%N] 0;
      LQRTree.MkTreeNode (fork_plan (2%:R / 5%:R)) (Some 0%N) [::] 1;
      LQRTree.MkTreeNode (fork_plan (3%:R / 5%:R)) (Some 0%N) [::] 1].
(* ===================================================================== *)
(** ** Properties of the backup *)
(* ===================================================================== *)

Section BackupTheory.

Variable F : realFieldType.
Variables xdim udim : nat.
Context {num : Numerics F xdim udim}.

Lemma inv_term_mul (m n : nat) (X : 'M[F]_m) (Y : 'M[F]_(m, n)) :
  ((-1) *: X) *m Y = - (X *m Y).
Proof. by rewrite scaleN1r mulNmx. Qed.

Lemma chain_backup_spec (s : Chain.iLQRSolver F xdim udim) (t : nat) (mu : F)
    (Vt1 : 'M[F]_xdim) (Gt1 : 'rV[F]_xdim) :
  let x := nth 0 (Chain.xhat_ s) t in
  let u := nth 0 (Chain.uhat_ s) t in
  let AB := linearize_dynamics (Chain.dynamics_ s) x u in
  let q := quadratize_cost (Chain.cost_ s) t x u in
  Chain.bellman_backup s t mu Vt1 Gt1 =
    (spec_V mu Vt1 AB.1 AB.2 q, spec_g mu Vt1 Gt1 AB.1 AB.2 q,
     spec_K mu Vt1 AB.1 AB.2 q, spec_k mu Vt1 Gt1 AB.2 q).
Proof.
move=> x u AB q; rewrite /Chain.bellman_backup -/x -/u -/AB -/q.
case: AB => A B /=.
by rewrite /spec_V /spec_g /spec_M /spec_K /spec_k /spec_H /spec_Vtilde
           !inv_term_mul scalemx1.
Qed.

Lemma hindsight_backup_spec (bs : seq (Hindsight.HindsightBranch F xdim udim))
    (branch_num t : nat) (mu : F) (Vt1 : 'M[F]_xdim) (Gt1 : 'rV[F]_xdim) :
  let branch := nth (Hindsight.null_branch F xdim udim) bs branch_num in
  let x := nth 0 (Hindsight.xhat branch) t in
  let u := nth 0 (Hindsight.uhat branch) t in
  let AB := linearize_dynamics (Hindsight.dynamics branch) x u in
  let q := quadratize_cost (Hindsight.cost branch) t x u in
  Hindsight.bellman_backup bs branch_num t mu Vt1 Gt1 =
    (set_nth (Hindsight.null_branch F xdim udim) bs branch_num
       (Hindsight.set_gains branch
          (set_nth 0 (Hindsight.Ks branch) t (spec_K mu Vt1 AB.1 AB.2 q))
          (set_nth 0 (Hindsight.ks branch) t (spec_k mu Vt1 Gt1 AB.2 q))),
     spec_V mu Vt1 AB.1 AB.2 q, spec_g mu Vt1 Gt1 AB.1 AB.2 q).
Proof.
move=> branch x u AB q; rewrite /Hindsight.bellman_backup -/branch -/x -/u -/AB -/q.
case: AB => A B /=.
by rewrite /spec_V /spec_g /spec_M /spec_K /spec_k /spec_H /spec_Vtilde
           !inv_term_mul scalemx1.
Qed.

Lemma spec_V_symmetric_iff (mu : F) (V1 A : 'M[F]_xdim) (B : 'M[F]_(xdim, udim))
    (q : quadratic F xdim udim) :
  (quad_Q q)^T = quad_Q q -> (quad_R q)^T = quad_R q -> V1^T = V1 ->
  ((spec_V mu V1 A B q)^T = spec_V mu V1 A B q <->
   (quad_P q *m spec_K mu V1 A B q)^T = quad_P q *m spec_K mu V1 A B q).
Proof.
move=> HQ HR HV; rewrite /spec_V.
set K := spec_K _ _ _ _ _; set M := spec_M _ _ _ _ _.
move: K M => K M.
rewrite !linearD /= linearZ /= HQ.
have -> : (K^T *m quad_R q *m K)^T = K^T *m quad_R q *m K.
  by rewrite !trmx_mul trmxK HR mulmxA.
have -> : (M^T *m V1 *m M)^T = M^T *m V1 *m M.
  by rewrite !trmx_mul trmxK HV mulmxA.
split=> [/addIr /addIr /addrI /scalerI -> // | -> //].
by rewrite pnatr_eq0.
Qed.

(** C1.  At every time step and for every [mu] (in particular every
    [mu >= 0]), both [bellman_backup]s compute the gains from the inflated
    matrix [V~ = V_{t+1} + mu I]:
    [K_t = -(R + B^T V~ B)^-1 (P^T + B^T V~ A)] and
    [k_t = -(R + B^T V~ B)^-1 (g_u + B^T g_{t+1}^T)],
    while [V_t = Q + 2 (P K_t) + K_t^T R K_t + (A + B K_t)^T V_{t+1} (A + B K_t)]
    and [g_t] are formed from the un-inflated [V_{t+1}].  The hindsight
    version stores the two gains in slot [t] of the branch. *)
Theorem bellman_backup_inflates_gains_only
    (s : Chain.iLQRSolver F xdim udim)
    (bs : seq (Hindsight.HindsightBranch F xdim udim))
    (branch_num t : nat) (mu : F) (Vt1 : 'M[F]_xdim) (Gt1 : 'rV[F]_xdim) :
  (let x := nth 0 (Chain.xhat_ s) t in
   let u := nth 0 (Chain.uhat_ s) t in
   let AB := linearize_dynamics (Chain.dynamics_ s) x u in
   let q := quadratize_cost (Chain.cost_ s) t x u in
   Chain.bellman_backup s t mu Vt1 Gt1 =
     (spec_V mu Vt1 AB.1 AB.2 q, spec_g mu Vt1 Gt1 AB.1 AB.2 q,
      spec_K mu Vt1 AB.1 AB.2 q, spec_k mu Vt1 Gt1 AB.2 q))
  /\
  (let branch := nth (Hindsight.null_branch F xdim udim) bs branch_num in
   let x := nth 0 (Hindsight.xhat branch) t in
   let u := nth 0 (Hindsight.uhat branch) t in
   let AB := linearize_dynamics (Hindsight.dynamics branch) x u in
   let q := quadratize_cost (Hindsight.cost branch) t x u in
   let: (bs', Vt, G_t) := Hindsight.bellman_backup bs branch_num t mu Vt1 Gt1 in
   let branch' := nth (Hindsight.null_branch F xdim udim) bs' branch_num in
   [/\ nth 0 (Hindsight.Ks branch') t = spec_K mu Vt1 AB.1 AB.2 q,
       nth 0 (Hindsight.ks branch') t = spec_k mu Vt1 Gt1 AB.2 q,
       Vt = spec_V mu Vt1 AB.1 AB.2 q
     & G_t = spec_g mu Vt1 Gt1 AB.1 AB.2 q]).
Proof.
split; first exact: chain_backup_spec.
move=> branch x u AB q; rewrite hindsight_backup_spec -/branch -/x -/u -/AB -/q.
by rewrite nth_set_nth /= eqxx /= !nth_set_nth /= !eqxx.
Qed.

(** C4 (as the code has it).  Neither solver symmetrizes [V_t].  A step
    of a backward sweep hands the step before it the value model that
    [bellman_backup] formed, as it formed it:
    [V_t = Q + 2 (P K_t) + K_t^T R K_t + (A + B K_t)^T V_{t+1} (A + B K_t)]
    and [g_t]; no [(V + V^T) / 2] comes in between.  This holds for the
    sweep of the single-chain solver, from [t] down to 0, and for the
    sweep over a branch of the hindsight solver, from [t + 1] down
    to 1. *)
Theorem backward_sweep_hands_on_plain_value
    (s : Chain.iLQRSolver F xdim udim)
    (bs : seq (Hindsight.HindsightBranch F xdim udim))
    (branch_num t : nat) (mu : F) (Vt1 : 'M[F]_xdim) (Gt1 : 'rV[F]_xdim) :
  (let x := nth 0 (Chain.xhat_ s) t in
   let u := nth 0 (Chain.uhat_ s) t in
   let AB := linearize_dynamics (Chain.dynamics_ s) x u in
   let q := quadratize_cost (Chain.cost_ s) t x u in
   Chain.backward_pass t.+1 mu s Vt1 Gt1 =
     Chain.backward_pass t mu
       (Chain.set_gains s
          (set_nth 0 (Chain.Ks_ s) t (spec_K mu Vt1 AB.1 AB.2 q))
          (set_nth 0 (Chain.ks_ s) t (spec_k mu Vt1 Gt1 AB.2 q)))
       (spec_V mu Vt1 AB.1 AB.2 q) (spec_g mu Vt1 Gt1 AB.1 AB.2 q))
  /\
  (let branch := nth (Hindsight.null_branch F xdim udim) bs branch_num in
   let x := nth 0 (Hindsight.xhat branch) t.+1 in
   let u := nth 0 (Hindsight.uhat branch) t.+1 in
   let AB := linearize_dynamics (Hindsight.dynamics branch) x u in
   let q := quadratize_cost (Hindsight.cost branch) t.+1 x u in
   Hindsight.branch_sweep t.+1 mu bs branch_num Vt1 Gt1 =
     Hindsight.branch_sweep t mu
       (set_nth (Hindsight.null_branch F xdim udim) bs branch_num
          (Hindsight.set_gains branch
             (set_nth 0 (Hindsight.Ks branch) t.+1 (spec_K mu Vt1 AB.1 AB.2 q))
             (set_nth 0 (Hindsight.ks branch) t.+1 (spec_k mu Vt1 Gt1 AB.2 q))))
       branch_num
       (spec_V mu Vt1 AB.1 AB.2 q) (spec_g mu Vt1 Gt1 AB.1 AB.2 q)).
Proof.
split.
  move=> x u AB q.
  have -> : Chain.backward_pass t.+1 mu s Vt1 Gt1 =
      (let: (Vt, G_t, Kt, kt) := Chain.bellman_backup s t mu Vt1 Gt1 in
       Chain.backward_pass t mu
         (Chain.set_gains s (set_nth 0 (Chain.Ks_ s) t Kt)
            (set_nth 0 (Chain.ks_ s) t kt)) Vt G_t) by [].
  by rewrite chain_backup_spec.
move=> branch x u AB q.
have -> : Hindsight.branch_sweep t.+1 mu bs branch_num Vt1 Gt1 =
    (let: (bs', Vt, G_t) := Hindsight.bellman_backup bs branch_num t.+1 mu Vt1 Gt1 in
     Hindsight.branch_sweep t mu bs' branch_num Vt G_t) by [].
by rewrite hindsight_backup_spec.
Qed.

End BackupTheory.

(* ===================================================================== *)
(** ** The line search *)
(* ===================================================================== *)

Section LineSearchTheory.

Variable F : realFieldType.
Variable A : Type.

Lemma bind_Done (X Y : Type) (m : outcome X) (f : X -> outcome Y) (y : Y) :
  bind m f = Done y -> exists2 x, m = Done x & f x = Done y.
Proof. by case: m => [x||] //= Hf; exists x. Qed.

(** The test at the head of the [while], after a pass that gave
    [new_cost]. *)
Definition accepted (old_cost : xdouble F) (cost_convg_ratio new_cost : F) : bool :=
  xlt (Finite new_cost) old_cost
  || xlt (cost_diff_ratio old_cost new_cost) (Finite cost_convg_ratio).

Lemma line_search_step (fuel : nat) (pass : F -> outcome (A * F))
    (old_cost : xdouble F) (convg alpha : F) (held : A) (new_cost : F) :
  pass alpha = Done (held, new_cost) ->
  line_search fuel.+1 pass old_cost convg alpha =
    if accepted old_cost convg new_cost
    then Done (held, new_cost, cost_diff_ratio old_cost new_cost, alpha * beta F)
    else line_search fuel pass old_cost convg (alpha * beta F).
Proof. by move=> /= ->. Qed.

(** With [old_cost = +inf] (the first outer iteration) the first pass is
    accepted. *)
Lemma line_search_first (fuel : nat) (pass : F -> outcome (A * F))
    (convg alpha : F) (held : A) (new_cost : F) :
  pass alpha = Done (held, new_cost) ->
  line_search fuel.+1 pass PosInf convg alpha =
    Done (held, new_cost, PosInf, alpha * beta F).
Proof. by move=> /line_search_step ->. Qed.

(** Whatever the loop returns was produced by the pass at the step size
    just before the last halving, and passed the test. *)
Lemma line_search_Done (fuel : nat) (pass : F -> outcome (A * F))
    (old_cost : xdouble F) (convg alpha : F)
    (held : A) (new_cost : F) (ratio : xdouble F) (alpha' : F) :
  line_search fuel pass old_cost convg alpha = Done (held, new_cost, ratio, alpha') ->
  exists a : F,
    [/\ pass a = Done (held, new_cost), alpha' = a * beta F,
        ratio = cost_diff_ratio old_cost new_cost
      & accepted old_cost convg new_cost].
Proof.
elim: fuel alpha => [|fuel IH] alpha //=.
case Epass: (pass alpha) => [[h c]||] //=.
rewrite -/(accepted old_cost convg c).
case Eacc: (accepted old_cost convg c); last exact: IH.
by case=> <- <- <- <-; exists alpha; split.
Qed.

(** A line search throws only if some pass does. *)
Lemma line_search_no_Throw (fuel : nat) (pass : F -> outcome (A * F))
    (old_cost : xdouble F) (convg alpha : F) :
  (forall a, pass a <> Throw) ->
  line_search fuel pass old_cost convg alpha <> Throw.
Proof.
move=> Hpass; elim: fuel alpha => [|fuel IH] alpha //=.
case Epass: (pass alpha) (Hpass alpha) => [[h c]||] //= _.
by case: ifP.
Qed.

End LineSearchTheory.

(* ===================================================================== *)
(** ** Sizes in the single-chain solver *)
(* ===================================================================== *)

Section ChainTheory.

Variable F : realFieldType.
Variables xdim udim : nat.
Context {num : Numerics F xdim udim}.

Local Notation solver := (Chain.iLQRSolver F xdim udim).

(** [|uhat| = |K| = |k| = T] and [|xhat| = T + 1]. *)
Definition well_sized (T : nat) (s : solver) : bool :=
  [&& size (Chain.Ks_ s) == T, size (Chain.ks_ s) == T,
      size (Chain.uhat_ s) == T & size (Chain.xhat_ s) == T.+1].

Lemma size_rollout (dyn : DynamicsFunc F xdim udim) (cost : CostFunc F xdim udim)
    (control : 'cV[F]_xdim -> nat -> 'cV[F]_udim) (n t : nat)
    (x : 'cV[F]_xdim) (c : F) :
  size (rollout dyn cost control n t x c).1.1 = n
  /\ size (rollout dyn cost control n t x c).1.2 = n.
Proof.
elim: n t x c => [|n IH] t x c //=.
have := IH t.+1 (dyn x (control x t)) (c + cost x (control x t) t).
by case: (rollout _ _ _ _ _ _ _) => [[xs us] J] /= [-> ->].
Qed.

Lemma timesteps_sized (T : nat) (s : solver) :
  well_sized T s -> Chain.timesteps s = Done T.
Proof.
case/and4P=> /eqP HK /eqP Hk /eqP Hu /eqP Hx.
by rewrite /Chain.timesteps Hu Hk HK Hx !eqxx.
Qed.

Lemma forward_pass_sized (T : nat) (s : solver) (x_init : 'cV[F]_xdim) (alpha : F) :
  well_sized T s ->
  exists xs us J,
    [/\ Chain.forward_pass s x_init alpha = Done (xs, us, J),
        size xs = T.+1 & size us = T].
Proof.
move=> Hs; rewrite /Chain.forward_pass (timesteps_sized Hs) /=.
set r := rollout _ _ _ _ _ _ _.
have [] := size_rollout (Chain.dynamics_ s) (Chain.cost_ s)
             (fun xt t => Chain.compute_control_stepsize s xt t alpha) T 0 x_init 0.
rewrite -/r; case: r => [[xs us] J] /= Hxs Hus.
by exists (x_init :: xs), us, (J + Chain.final_cost_ s (nth 0 (x_init :: xs) T)); rewrite /= Hxs.
Qed.

Lemma well_sized_set_nominal (T : nat) (s : solver) uhat xhat :
  well_sized T s -> size uhat = T -> size xhat = T.+1 ->
  well_sized T (Chain.set_nominal s uhat xhat).
Proof.
by case/and4P=> HK Hk _ _ Hu Hx; rewrite /well_sized /= HK Hk Hu Hx !eqxx.
Qed.

Lemma well_sized_backward_pass (T k : nat) (mu : F) (s : solver)
    (Vt1 : 'M[F]_xdim) (Gt1 : 'rV[F]_xdim) :
  (k <= T)%N -> well_sized T s ->
  well_sized T (Chain.backward_pass k mu s Vt1 Gt1).
Proof.
elim: k s Vt1 Gt1 => [|t IH] s Vt1 Gt1 //= Ht Hs.
case: (Chain.bellman_backup _ _ _ _ _) => [[[Vt G_t] Kt] kt].
apply: IH; first exact: ltnW.
case/and4P: Hs => /eqP HK /eqP Hk Hu Hx.
rewrite /well_sized /= !size_set_nth HK Hk Hu Hx.
by rewrite (maxn_idPr Ht) eqxx.
Qed.

Lemma well_sized_cold_start (s : solver) (T : nat) (u_nominal : 'cV[F]_udim) :
  well_sized T (Chain.cold_start s T u_nominal).
Proof. by rewrite /well_sized /= !size_nseq !eqxx. Qed.

Lemma iterations_no_Throw (fuel iters T : nat) (x_init : 'cV[F]_xdim)
    (mu convg start_alpha : F) (s : solver) (old_cost : xdouble F) :
  well_sized T s ->
  Chain.iterations fuel iters T x_init mu convg start_alpha s old_cost <> Throw.
Proof.
elim: iters s old_cost => [|iters IH] s old_cost Hs //=.
have Hpass a : Chain.line_search_pass s x_init a <> Throw.
  rewrite /Chain.line_search_pass.
  by have [xs [us [J [-> _ _]]]] := forward_pass_sized x_init a Hs.
case Els: (line_search _ _ _ _ _) (@line_search_no_Throw _ _ fuel _ old_cost convg start_alpha Hpass)
  => [[[[[xhat_new uhat_new] new_cost] ratio] alpha']||] //= _.
have [a [Ha _ _ _]] := line_search_Done Els.
have [xs [us [J [Hfp Hxs Hus]]]] := forward_pass_sized x_init a Hs.
move: Ha; rewrite /Chain.line_search_pass Hfp => -[Ex Eu _].
have Hs1 : well_sized T (Chain.set_nominal s uhat_new xhat_new).
  by apply: well_sized_set_nominal; rewrite // -?Eu -?Ex.
case: ifP => // _.
case: (quadratize_final_cost _ _) => QT gT.
by apply: IH; apply: well_sized_backward_pass.
Qed.

Lemma IS_TRUE_true (b : bool) : b -> IS_TRUE b = Done tt.
Proof. by move=> ->. Qed.

Lemma IS_TRUE_false (b : bool) : ~~ b -> IS_TRUE b = Throw.
Proof. by move=> /negbTE ->. Qed.

(** A cold-start [solve] whose arguments pass the five checks does not
    throw: every [timesteps] check holds along the way, and no backup can
    fail. *)
Lemma chain_solve_no_Throw (fuel : nat) (T : int) (x_init : 'cV[F]_xdim)
    (u_nominal : 'cV[F]_udim) (mu : F) (max_iters : int)
    (convg start_alpha : F) (t_offset : int) (s : solver) :
  0 < T -> 0 <= mu -> 0 < max_iters -> 0 < convg -> 0 < start_alpha ->
  Chain.solve fuel T x_init u_nominal mu max_iters convg start_alpha
    false t_offset s <> Throw.
Proof.
move=> HT Hmu Hit Hc Ha; rewrite /Chain.solve.
rewrite !IS_TRUE_true //=.
exact/iterations_no_Throw/well_sized_cold_start.
Qed.

Lemma chain_iterationsS (fuel iters T : nat) (x_init : 'cV[F]_xdim)
    (mu convg start_alpha : F) (s : solver) (old_cost : xdouble F) :
  Chain.iterations fuel iters.+1 T x_init mu convg start_alpha s old_cost =
    (' (xhat_new, uhat_new, new_cost, ratio, _) <-
       line_search fuel (Chain.line_search_pass s x_init)
         old_cost convg start_alpha ;;
     let s1 := Chain.set_nominal s uhat_new xhat_new in
     if xlt ratio (Finite convg) then Done s1
     else
       let: (QT, gT) :=
         quadratize_final_cost (Chain.final_cost_ s1) (nth 0 (Chain.xhat_ s1) T) in
       Chain.iterations fuel iters T x_init mu convg start_alpha
         (Chain.backward_pass T mu s1 QT gT^T) (Finite new_cost)).
Proof. by []. Qed.

(** The first iteration accepts its first rollout and runs the backward
    pass. *)
Lemma chain_one_iteration_Done (fuel T : nat) (x_init : 'cV[F]_xdim)
    (mu convg start_alpha : F) (s : solver) :
  well_sized T s ->
  exists s',
    Chain.iterations fuel.+1 1 T x_init mu convg start_alpha s PosInf = Done s'.
Proof.
move=> Hs; have [xs [us [J [Hfp _ _]]]] := forward_pass_sized x_init start_alpha Hs.
rewrite chain_iterationsS
  (line_search_first fuel convg (pass := Chain.line_search_pass s x_init) Hfp) /=.
by case: (quadratize_final_cost _ _) => QT gT; eexists.
Qed.

(** A cold-start [solve] whose arguments pass the checks. *)
Lemma chain_solve_cold (fuel : nat) (T : int) (x_init : 'cV[F]_xdim)
    (u_nominal : 'cV[F]_udim) (mu : F) (max_iters : int)
    (convg start_alpha : F) (t_offset : int) (s : solver) :
  0 < T -> 0 <= mu -> 0 < max_iters -> 0 < convg -> 0 < start_alpha ->
  Chain.solve fuel T x_init u_nominal mu max_iters convg start_alpha
    false t_offset s
  = Chain.iterations fuel (int_to_nat max_iters) (int_to_nat T) x_init mu
      convg start_alpha (Chain.cold_start s (int_to_nat T) u_nominal) PosInf.
Proof. by move=> HT Hmu Hit Hc Ha; rewrite /Chain.solve !IS_TRUE_true. Qed.

(** The checks at the head of [solve]. *)
Lemma chain_solve_rejects (fuel : nat) (T : int) (x_init : 'cV[F]_xdim)
    (u_nominal : 'cV[F]_udim) (mu : F) (max_iters : int)
    (convg start_alpha : F) (warm_start : bool) (t_offset : int) (s : solver) :
  [|| T <= 0, mu < 0, max_iters <= 0, convg <= 0 | start_alpha <= 0] ->
  Chain.solve fuel T x_init u_nominal mu max_iters convg start_alpha
    warm_start t_offset s = Throw.
Proof.
rewrite /Chain.solve (leNgt T) (ltNge mu) (leNgt max_iters) (leNgt convg)
        (leNgt start_alpha).
case: (0 < T) => //=; case: (0 <= mu) => //=; case: (0 < max_iters) => //=.
by case: (0 < convg) => //=; case: (0 < start_alpha).
Qed.

End ChainTheory.

(* ===================================================================== *)
(** ** The hindsight solver: boundary checks and warm start *)
(* ===================================================================== *)

Section HindsightChecks.

Variable F : realFieldType.
Variables xdim udim : nat.
Context {num : Numerics F xdim udim}.

Local Notation branch := (Hindsight.HindsightBranch F xdim udim).
Local Notation hsolver := (Hindsight.iLQRHindsightSolver F xdim udim).
Local Notation null := (Hindsight.null_branch F xdim udim).

Lemma hindsight_solve_rejects (fuel : nat) (T : int) (x_init : 'cV[F]_xdim)
    (u_nominal : 'cV[F]_udim) (mu : F) (max_iters : int)
    (convg start_alpha : F) (warm_start : bool) (t_offset : int) (h : hsolver) :
  [|| T <= 1, mu < 0, max_iters <= 0, convg <= 0, start_alpha <= 0, t_offset < 0
    | ~~ almost_equal (Hindsight.total_branch_probability (Hindsight.branches_ h))
           1 (Hindsight.prob_eps F)] ->
  Hindsight.solve fuel T x_init u_nominal mu max_iters convg start_alpha
    warm_start t_offset h = Throw.
Proof.
rewrite /Hindsight.solve (leNgt T) (ltNge mu) (leNgt max_iters) (leNgt convg)
        (leNgt start_alpha) (ltNge t_offset).
case: (1 < T) => //=; case: (0 <= mu) => //=; case: (0 < max_iters) => //=.
case: (0 < convg) => //=; case: (0 < start_alpha) => //=.
by case: (0 <= t_offset) => //=; case: (almost_equal _ _ _).
Qed.

Lemma make_rejects (bs : seq branch) :
  (size bs == 0)%N
  || ~~ almost_equal (Hindsight.total_branch_probability bs) 1 (Hindsight.prob_eps F) ->
  Hindsight.make bs = Throw.
Proof.
rewrite /Hindsight.make lt0n.
by case: (size bs == 0)%N => //=; case: (almost_equal _ _ _).
Qed.

Lemma make_accepts (bs : seq branch) :
  (0 < size bs)%N ->
  almost_equal (Hindsight.total_branch_probability bs) 1 (Hindsight.prob_eps F) ->
  Hindsight.make bs = Done (Hindsight.HSolver bs 0 0 0 0).
Proof. by move=> Hn Hp; rewrite /Hindsight.make !IS_TRUE_true. Qed.

Lemma set_branch_probability_rejects (h : hsolver) (branch_num : int) (p : F) :
  (p < 0) || (1 < p) -> Hindsight.set_branch_probability h branch_num p = Throw.
Proof.
rewrite /Hindsight.set_branch_probability (ltNge p) (ltNge 1) -negb_and.
by move=> /negbTE ->; case: (_ && _).
Qed.

(** The accumulation loop of [total_branch_probability] is a sum. *)
Lemma total_branch_probability_from (acc : F) (bs : seq branch) :
  foldl (fun total_prob b => total_prob + Hindsight.probability b) acc bs
  = acc + \sum_(b <- bs) Hindsight.probability b.
Proof.
elim: bs acc => [|b bs IH] acc /=; first by rewrite big_nil addr0.
by rewrite IH big_cons addrA.
Qed.

Lemma total_branch_probabilityE (bs : seq branch) :
  Hindsight.total_branch_probability bs = \sum_(b <- bs) Hindsight.probability b.
Proof. by rewrite /Hindsight.total_branch_probability total_branch_probability_from add0r. Qed.

(** *** Warm start *)

(** A branch after the first [t_offset] entries of its four vectors are
    erased. *)
Definition shifted (t_offset : int) (b : branch) : branch :=
  let d := int_to_nat t_offset in
  Hindsight.set_nominal
    (Hindsight.set_gains b (drop d (Hindsight.Ks b)) (drop d (Hindsight.ks b)))
    (drop d (Hindsight.uhat b)) (drop d (Hindsight.xhat b)).

Definition branch_sized (T : nat) (b : branch) : bool :=
  [&& size (Hindsight.Ks b) == T, size (Hindsight.ks b) == T,
      size (Hindsight.uhat b) == T & size (Hindsight.xhat b) == T.+1].

Lemma warm_start_shift_Done (T : nat) (t_offset : int) (bs bs' : seq branch)
    (K0 K0' : 'M[F]_(udim, xdim)) (k0 k0' : 'cV[F]_udim) :
  Hindsight.warm_start_shift T t_offset bs K0 k0 = Done (bs', K0', k0') ->
  [/\ bs' = [seq shifted t_offset b | b <- bs],
      all (branch_sized T) bs',
      all (fun b => t_offset < Posz (size (Hindsight.Ks b))) bs,
      K0' = K0 + \sum_(b <- bs') Hindsight.probability b *: nth 0 (Hindsight.Ks b) 0
    & k0' = k0 + \sum_(b <- bs') Hindsight.probability b *: nth 0 (Hindsight.ks b) 0].
Proof.
elim: bs bs' K0 k0 K0' k0' => [|b bs IH] bs' K0 k0 K0' k0' /=.
  by case=> <- <- <-; rewrite !big_nil !addr0.
rewrite -/(shifted t_offset b).
case Hoff: (t_offset < _) => //=.
case HK: (size (drop _ (Hindsight.Ks b)) == T) => //=.
case Hk: (size (drop _ (Hindsight.ks b)) == T) => //=.
case Hu: (size (drop _ (Hindsight.uhat b)) == T) => //=.
case Hx: (size (drop _ (Hindsight.xhat b)) == T.+1) => //=.
case E: (Hindsight.warm_start_shift _ _ _ _ _) => [[[rest K1] k1]||] //= [<- <- <-].
have [-> Hall Hoffs -> ->] := IH _ _ _ _ _ E.
by rewrite /= /branch_sized /= HK Hk Hu Hx Hall !big_cons !addrA.
Qed.

(** Slot 0 of every branch holds the shared first-stage values. *)
Definition shares_first_slot (K0 : 'M[F]_(udim, xdim)) (k0 : 'cV[F]_udim)
    (xhat0 : 'cV[F]_xdim) (uhat0 : 'cV[F]_udim) (b : branch) : bool :=
  [&& nth 0 (Hindsight.Ks b) 0 == K0, nth 0 (Hindsight.ks b) 0 == k0,
      nth 0 (Hindsight.xhat b) 0 == xhat0 & nth 0 (Hindsight.uhat b) 0 == uhat0].

Definition shared_first_slot (h : hsolver) : bool :=
  all (shares_first_slot (Hindsight.K0_ h) (Hindsight.k0_ h)
         (Hindsight.xhat0_ h) (Hindsight.uhat0_ h))
      (Hindsight.branches_ h).

Lemma shares_set_first_slot K0 k0 xhat0 uhat0 (b : branch) :
  shares_first_slot K0 k0 xhat0 uhat0 (Hindsight.set_first_slot K0 k0 xhat0 uhat0 b).
Proof. by rewrite /shares_first_slot /= !nth_set_nth /= !eqxx. Qed.

(** C10.  On a warm start the hindsight solver drops the first [t_offset]
    entries of the four vectors of every branch and checks what remains
    against [T]; the shared gains are the probability-weighted sums of the
    retained slot-0 gains, [xhat0_] is [x_init] and [uhat0_] is
    [u_nominal]; the four shared values are written to slot 0 of every
    branch, and the iterations of [solve] start from that state. *)
Theorem warm_start_rederives_shared_gains (h h' : hsolver) (T t_offset : int)
    (x_init : 'cV[F]_xdim) (u_nominal : 'cV[F]_udim) :
  Hindsight.warm_start h (int_to_nat T) t_offset x_init u_nominal = Done h' ->
  let kept := [seq shifted t_offset b | b <- Hindsight.branches_ h] in
  [/\ all (branch_sized (int_to_nat T)) kept,
      Hindsight.K0_ h'
        = \sum_(b <- kept) Hindsight.probability b *: nth 0 (Hindsight.Ks b) 0
      /\ Hindsight.k0_ h'
        = \sum_(b <- kept) Hindsight.probability b *: nth 0 (Hindsight.ks b) 0,
      Hindsight.xhat0_ h' = x_init /\ Hindsight.uhat0_ h' = u_nominal,
      Hindsight.branches_ h'
        = [seq Hindsight.set_first_slot (Hindsight.K0_ h') (Hindsight.k0_ h')
                 x_init u_nominal b | b <- kept]
      /\ shared_first_slot h'
    & forall (fuel : nat) (mu : F) (max_iters : int) (convg start_alpha : F),
        [&& 1 < T, 0 <= mu, 0 < max_iters, 0 < convg, 0 < start_alpha, 0 <= t_offset
          & almost_equal (Hindsight.total_branch_probability (Hindsight.branches_ h))
              1 (Hindsight.prob_eps F)] ->
        Hindsight.solve fuel T x_init u_nominal mu max_iters convg start_alpha
          true t_offset h
        = Hindsight.iterations fuel (int_to_nat max_iters) (int_to_nat T) x_init mu
            convg start_alpha h' PosInf].
Proof.
rewrite /Hindsight.warm_start => Hwarm.
have Hsolve (fuel : nat) (mu : F) (max_iters : int) (convg start_alpha : F) :
    [&& 1 < T, 0 <= mu, 0 < max_iters, 0 < convg, 0 < start_alpha, 0 <= t_offset
      & almost_equal (Hindsight.total_branch_probability (Hindsight.branches_ h))
          1 (Hindsight.prob_eps F)] ->
    Hindsight.solve fuel T x_init u_nominal mu max_iters convg start_alpha
      true t_offset h
    = Hindsight.iterations fuel (int_to_nat max_iters) (int_to_nat T) x_init mu
        convg start_alpha h' PosInf.
  case/and5P=> HT Hmu Hit Hc /and3P [Ha Hoff Hp].
  by rewrite /Hindsight.solve !IS_TRUE_true //= /Hindsight.warm_start Hwarm.
case E: (Hindsight.warm_start_shift _ _ _ _ _) Hwarm Hsolve
  => [[[bs K0] k0]||] //= [<-] /= Hsolve.
have [? Hsized _ ? ?] := warm_start_shift_Done E; subst bs K0 k0.
rewrite !add0r in Hsolve *; split=> //.
split=> //.
rewrite /shared_first_slot /= all_map (@eq_all _ _ predT) ?all_predT // => b /=.
exact: shares_set_first_slot.
Qed.

End HindsightChecks.

(* ===================================================================== *)
(** ** Loops over the branches *)
(* ===================================================================== *)

Section Loops.

Variable S : Type.

Lemma for_loop_inv (body : nat -> S -> outcome S) (Inv : nat -> S -> Prop)
    (lo n : nat) (st : S) :
  Inv lo st ->
  (forall i st0, (lo <= i < lo + n)%N -> Inv i st0 ->
     exists2 st1, body i st0 = Done st1 & Inv i.+1 st1) ->
  exists2 st', for_loop body lo n st = Done st' & Inv (lo + n)%N st'.
Proof.
elim: n lo st => [|n IH] lo st Hst Hbody /=; first by exists st; rewrite ?addn0.
have [|st1 -> Hst1] /= := Hbody lo st _ Hst; first by rewrite leqnn -addn1 leq_add2l.
rewrite addnS -addSn; apply: IH => // i st0 /andP [Hlo Hhi] Hi.
by apply: Hbody => //; rewrite (ltnW Hlo) -addSnnS.
Qed.

Lemma for_each_index_inv (body : nat -> S -> S) (Inv : nat -> S -> Prop)
    (lo n : nat) (st : S) :
  Inv lo st ->
  (forall i st0, (lo <= i < lo + n)%N -> Inv i st0 -> Inv i.+1 (body i st0)) ->
  Inv (lo + n)%N (for_each_index body lo n st).
Proof.
elim: n lo st => [|n IH] lo st Hst Hbody /=; first by rewrite addn0.
rewrite addnS -addSn; apply: IH.
  by apply: Hbody => //; rewrite leqnn -addn1 leq_add2l.
move=> i st0 /andP [Hlo Hhi] Hi.
by apply: Hbody => //; rewrite (ltnW Hlo) -addSnnS.
Qed.

End Loops.

Section HindsightPasses.

Variable F : realFieldType.
Variables xdim udim : nat.
Context {num : Numerics F xdim udim}.

Local Notation branch := (Hindsight.HindsightBranch F xdim udim).
Local Notation hsolver := (Hindsight.iLQRHindsightSolver F xdim udim).
Local Notation null := (Hindsight.null_branch F xdim udim).

(** What [forward_pass] returns for one branch, as a function of the
    branch alone. *)
Definition branch_rollout (b : branch) (T : nat) (x_init : 'cV[F]_xdim) (alpha : F)
    : seq 'cV[F]_xdim * seq 'cV[F]_udim * F :=
  let: (xs, us, cost_to_go) :=
    rollout (Hindsight.dynamics b) (Hindsight.cost b)
      (fun xt t => Hindsight.compute_control_stepsize b xt t alpha) T 0 x_init 0 in
  (x_init :: xs, us, cost_to_go + Hindsight.final_cost b (nth 0 (x_init :: xs) T)).

(** The branch after its rollout is swapped in. *)
Definition committed (T : nat) (x_init : 'cV[F]_xdim) (alpha : F) (b : branch)
    : branch :=
  let r := branch_rollout b T x_init alpha in
  Hindsight.set_nominal b r.1.2 r.1.1.

Lemma size_branch_rollout (b : branch) (T : nat) (x_init : 'cV[F]_xdim) (alpha : F) :
  size (branch_rollout b T x_init alpha).1.1 = T.+1
  /\ size (branch_rollout b T x_init alpha).1.2 = T.
Proof.
rewrite /branch_rollout.
have [] := size_rollout (Hindsight.dynamics b) (Hindsight.cost b)
             (fun xt t => Hindsight.compute_control_stepsize b xt t alpha) T 0 x_init 0.
by case: (rollout _ _ _ _ _ _ _) => [[xs us] J] /= -> ->.
Qed.

Lemma branch_rollout_first (b : branch) (T : nat) (x_init : 'cV[F]_xdim) (alpha : F) :
  nth 0 (branch_rollout b T x_init alpha).1.1 0 = x_init
  /\ nth 0 (branch_rollout b T.+1 x_init alpha).1.2 0
     = Hindsight.compute_control_stepsize b x_init 0 alpha.
Proof.
rewrite /branch_rollout; split; first by case: (rollout _ _ _ _ _ _ _) => [[xs us] J].
by rewrite /=; case: (rollout _ _ _ _ _ _ _) => [[xs us] J].
Qed.

Lemma branch_sized_committed (T : nat) (x_init : 'cV[F]_xdim) (alpha : F) (b : branch) :
  branch_sized T b -> branch_sized T (committed T x_init alpha b).
Proof.
case/and4P=> HK Hk _ _; rewrite /branch_sized /= HK Hk.
by have [-> ->] := size_branch_rollout b T x_init alpha; rewrite !eqxx.
Qed.

Lemma timesteps_hsized (T : nat) (bs : seq branch) :
  (0 < size bs)%N -> branch_sized T (nth null bs 0) ->
  Hindsight.timesteps bs = Done T.
Proof.
move=> Hn /and4P [/eqP HK /eqP Hk /eqP Hu /eqP Hx].
by rewrite /Hindsight.timesteps Hn /= Hu Hk HK Hx !eqxx.
Qed.

Lemma forward_passE (T : nat) (bs : seq branch) (i : nat)
    (x_init : 'cV[F]_xdim) (alpha : F) :
  (i < size bs)%N -> branch_sized T (nth null bs 0) ->
  Hindsight.forward_pass bs i x_init alpha
  = Done (branch_rollout (nth null bs i) T x_init alpha).
Proof.
move=> Hi H0; rewrite /Hindsight.forward_pass /Hindsight.branch_at Hi /=.
rewrite (timesteps_hsized (leq_ltn_trans (leq0n i) Hi) H0) /= /branch_rollout.
by case: (rollout _ _ _ _ _ _ _) => [[xs us] J].
Qed.

End HindsightPasses.

(* ===================================================================== *)
(** ** The hindsight backward pass *)
(* ===================================================================== *)

Section HindsightBackward.

Variable F : realFieldType.
Variables xdim udim : nat.
Context {num : Numerics F xdim udim}.

Local Notation branch := (Hindsight.HindsightBranch F xdim udim).
Local Notation hsolver := (Hindsight.iLQRHindsightSolver F xdim udim).
Local Notation null := (Hindsight.null_branch F xdim udim).

Lemma set_nth_same (T : Type) (x0 : T) (s : seq T) (i : nat) :
  (i < size s)%N -> set_nth x0 s i (nth x0 s i) = s.
Proof.
move=> Hi; apply: (@eq_from_nth _ x0).
  by rewrite size_set_nth; apply/maxn_idPr.
by move=> j _; rewrite nth_set_nth /=; case: eqP => // ->.
Qed.

Lemma size_set_nth_in (T : Type) (x0 : T) (s : seq T) (i : nat) (y : T) :
  (i < size s)%N -> size (set_nth x0 s i y) = size s.
Proof. by move=> Hi; rewrite size_set_nth; apply/maxn_idPr. Qed.

Lemma hindsight_backupE (bs : seq branch) (i t : nat) (mu : F)
    (V : 'M[F]_xdim) (g : 'rV[F]_xdim) :
  Hindsight.bellman_backup bs i t mu V g =
    let: (b', V', g') := spec_branch_backup t mu (nth null bs i) V g in
    (set_nth null bs i b', V', g').
Proof. by rewrite hindsight_backup_spec. Qed.

Lemma spec_branch_sweepS (t : nat) (mu : F) (b : branch)
    (V : 'M[F]_xdim) (g : 'rV[F]_xdim) :
  spec_branch_sweep t.+1 mu b V g =
    let: (b', V', g') := spec_branch_backup t.+1 mu b V g in
    spec_branch_sweep t mu b' V' g'.
Proof. by []. Qed.

Lemma branch_sweepS (t : nat) (mu : F) (bs : seq branch) (i : nat)
    (V : 'M[F]_xdim) (g : 'rV[F]_xdim) :
  Hindsight.branch_sweep t.+1 mu bs i V g =
    let: (bs', Vt, G_t) := Hindsight.bellman_backup bs i t.+1 mu V g in
    Hindsight.branch_sweep t mu bs' i Vt G_t.
Proof. by []. Qed.

Lemma branch_sweepE (t : nat) (mu : F) (bs : seq branch) (i : nat)
    (V : 'M[F]_xdim) (g : 'rV[F]_xdim) :
  (i < size bs)%N ->
  Hindsight.branch_sweep t mu bs i V g =
    let: (b', V', g') := spec_branch_sweep t mu (nth null bs i) V g in
    (set_nth null bs i b', V', g').
Proof.
elim: t bs V g => [|t IH] bs V g Hi; first by rewrite /= set_nth_same.
rewrite branch_sweepS hindsight_backupE spec_branch_sweepS.
case: (spec_branch_backup _ _ _ _ _) => [[b1 V1] g1].
rewrite IH ?size_set_nth_in // nth_set_nth /= eqxx.
case: (spec_branch_sweep _ _ _ _ _) => [[b' V'] g'].
by rewrite set_set_nth eqxx.
Qed.

(** A sweep rewrites gains only: callbacks, probability and the nominal
    trajectory of the branch stay, and so does slot 0 of the gains. *)
Definition same_problem (b' b : branch) : Prop :=
  [/\ Hindsight.dynamics b' = Hindsight.dynamics b,
      Hindsight.cost b' = Hindsight.cost b,
      Hindsight.final_cost b' = Hindsight.final_cost b
    & Hindsight.probability b' = Hindsight.probability b].

Definition gains_only (b' b : branch) : Prop :=
  [/\ same_problem b' b,
      Hindsight.xhat b' = Hindsight.xhat b,
      Hindsight.uhat b' = Hindsight.uhat b,
      nth 0 (Hindsight.Ks b') 0 = nth 0 (Hindsight.Ks b) 0
    & nth 0 (Hindsight.ks b') 0 = nth 0 (Hindsight.ks b) 0].

Lemma gains_only_trans (b2 b1 b0 : branch) :
  gains_only b2 b1 -> gains_only b1 b0 -> gains_only b2 b0.
Proof.
move=> [[H1 H2 H3 H4] H5 H6 H7 H8] [[G1 G2 G3 G4] G5 G6 G7 G8].
by split; [split|..]; etransitivity; eassumption.
Qed.

Lemma spec_branch_backup_keeps (t : nat) (mu : F) (b : branch)
    (V : 'M[F]_xdim) (g : 'rV[F]_xdim) :
  gains_only (spec_branch_backup t.+1 mu b V g).1.1 b.
Proof. by split; rewrite /= ?nth_set_nth. Qed.

Lemma spec_branch_sweep_keeps (t : nat) (mu : F) (b : branch)
    (V : 'M[F]_xdim) (g : 'rV[F]_xdim) :
  gains_only (spec_branch_sweep t mu b V g).1.1 b.
Proof.
elim: t b V g => [|t IH] b V g //; rewrite spec_branch_sweepS.
have := spec_branch_backup_keeps t mu b V g.
case: (spec_branch_backup _ _ _ _ _) => [[b1 V1] g1] /= Hb.
exact: gains_only_trans (IH b1 V1 g1) Hb.
Qed.

Lemma spec_boundary_keeps (T : nat) (mu : F) (b : branch) :
  gains_only (spec_boundary T mu b).1.1 b.
Proof.
rewrite /spec_boundary; case: (quadratize_final_cost _ _) => V_T g_T.
exact: spec_branch_sweep_keeps.
Qed.

Lemma backup_branchE (T : nat) (mu : F) (i : nat) (bs : seq branch)
    (Vs : seq 'M[F]_xdim) (Gs : seq 'rV[F]_xdim) :
  (i < size bs)%N ->
  Hindsight.backup_branch T mu i (bs, Vs, Gs) =
    (set_nth null bs i (spec_boundary T mu (nth null bs i)).1.1,
     set_nth 0 Vs i (spec_V1 T mu (nth null bs i)),
     set_nth 0 Gs i (spec_g1 T mu (nth null bs i))).
Proof.
move=> Hi; rewrite /Hindsight.backup_branch /spec_V1 /spec_g1 /spec_boundary.
case: (quadratize_final_cost _ _) => V_T g_T.
rewrite branch_sweepE //.
by case: (spec_branch_sweep _ _ _ _ _) => [[b' V'] g'].
Qed.

(** The state of the loop over the branches when [i] of them are done. *)
Definition backup_inv (T : nat) (mu : F) (bs : seq branch) (i : nat)
    (st : seq branch * seq 'M[F]_xdim * seq 'rV[F]_xdim) : Prop :=
  [/\ size st.1.1 = size bs, size st.1.2 = size bs, size st.2 = size bs
    & forall j,
        nth null st.1.1 j
          = (if (j < i)%N then (spec_boundary T mu (nth null bs j)).1.1
             else nth null bs j)
        /\ ((j < i)%N ->
            nth 0 st.1.2 j = spec_V1 T mu (nth null bs j)
            /\ nth 0 st.2 j = spec_g1 T mu (nth null bs j))].

Lemma backup_branchesE (T : nat) (mu : F) (bs : seq branch) :
  for_each_index (Hindsight.backup_branch T mu) 0 (size bs)
    (bs, nseq (size bs) 0, nseq (size bs) 0)
  = ([seq (spec_boundary T mu b).1.1 | b <- bs],
     [seq spec_V1 T mu b | b <- bs], [seq spec_g1 T mu b | b <- bs]).
Proof.
have : backup_inv T mu bs (0 + size bs)
         (for_each_index (Hindsight.backup_branch T mu) 0 (size bs)
            (bs, nseq (size bs) 0, nseq (size bs) 0)).
  apply: for_each_index_inv; first by split; rewrite ?size_nseq.
  move=> i [[bs0 Vs0] Gs0]; rewrite add0n => Hi [Hsb HsV HsG Hnth].
  rewrite /= in Hi Hsb HsV HsG Hnth.
  rewrite backup_branchE ?Hsb //; split; rewrite /= ?size_set_nth_in ?Hsb ?HsV ?HsG //.
  move=> j; rewrite !nth_set_nth /= ltnS leq_eqVlt (proj1 (Hnth i)) ltnn.
  by case: (j =P i) => [->|_] //=; rewrite eqxx.
rewrite add0n; case: (for_each_index _ _ _ _) => [[bs' Vs] Gs].
move=> [/= Hsb HsV HsG Hnth]; congr (_, _, _).
- apply: (@eq_from_nth _ null); rewrite ?size_map // => j; rewrite Hsb => Hj.
  by rewrite (nth_map null) // (proj1 (Hnth j)) Hj.
- apply: (@eq_from_nth _ 0); rewrite ?size_map // => j; rewrite HsV => Hj.
  by rewrite (nth_map null) //; have [_ /(_ Hj) []] := Hnth j.
- apply: (@eq_from_nth _ 0); rewrite ?size_map // => j; rewrite HsG => Hj.
  by rewrite (nth_map null) //; have [_ /(_ Hj) []] := Hnth j.
Qed.

(** *** The merge at the first time step *)

Lemma merge_branchE (mu : F) (bs : seq branch)
    (xhat0 : 'cV[F]_xdim) (uhat0 : 'cV[F]_udim)
    (Vs : seq 'M[F]_xdim) (Gs : seq 'rV[F]_xdim) (i : nat)
    (acc : Hindsight.merge_terms F xdim udim) :
  Hindsight.merge_branch mu bs xhat0 uhat0 Vs Gs i acc =
    let b := nth null bs i in
    let p := Hindsight.probability b in
    let A := spec_A0 xhat0 uhat0 b in
    let B := spec_B0 xhat0 uhat0 b in
    let q := spec_q0 xhat0 uhat0 b in
    Hindsight.MergeTerms
      (Hindsight.weighted_inv_term acc + p *: (B^T *m (nth 0 Vs i + mu%:M) *m B))
      (Hindsight.weighted_Kt_term acc + p *: (B^T *m (nth 0 Vs i + mu%:M) *m A))
      (Hindsight.weighted_kt_term acc + p *: (B^T *m (nth 0 Gs i)^T))
      (Hindsight.wQ acc + p *: quad_Q q)
      (Hindsight.wR acc + p *: quad_R q)
      (Hindsight.wP acc + p *: quad_P q)
      (Hindsight.wg_x acc + p *: quad_g_x q)
      (Hindsight.wg_u acc + p *: quad_g_u q).
Proof.
rewrite /Hindsight.merge_branch /spec_A0 /spec_B0 /spec_q0 scalemx1.
by case: (linearize_dynamics _ _ _).
Qed.

(** The accumulators after the first [i] branches. *)
Definition merge_upto (mu : F) (bs : seq branch)
    (xhat0 : 'cV[F]_xdim) (uhat0 : 'cV[F]_udim)
    (Vs : seq 'M[F]_xdim) (Gs : seq 'rV[F]_xdim) (i : nat)
    : Hindsight.merge_terms F xdim udim :=
  let b j := nth null bs j in
  let p j := Hindsight.probability (b j) in
  let A j := spec_A0 xhat0 uhat0 (b j) in
  let B j := spec_B0 xhat0 uhat0 (b j) in
  let q j := spec_q0 xhat0 uhat0 (b j) in
  Hindsight.MergeTerms
    (\sum_(0 <= j < i) p j *: ((B j)^T *m (nth 0 Vs j + mu%:M) *m B j))
    (\sum_(0 <= j < i) p j *: ((B j)^T *m (nth 0 Vs j + mu%:M) *m A j))
    (\sum_(0 <= j < i) p j *: ((B j)^T *m (nth 0 Gs j)^T))
    (\sum_(0 <= j < i) p j *: quad_Q (q j))
    (\sum_(0 <= j < i) p j *: quad_R (q j))
    (\sum_(0 <= j < i) p j *: quad_P (q j))
    (\sum_(0 <= j < i) p j *: quad_g_x (q j))
    (\sum_(0 <= j < i) p j *: quad_g_u (q j)).

Lemma merge_loopE (mu : F) (bs : seq branch)
    (xhat0 : 'cV[F]_xdim) (uhat0 : 'cV[F]_udim)
    (Vs : seq 'M[F]_xdim) (Gs : seq 'rV[F]_xdim) (n : nat) :
  for_each_index (Hindsight.merge_branch mu bs xhat0 uhat0 Vs Gs) 0 n
    (Hindsight.merge_zero F xdim udim)
  = merge_upto mu bs xhat0 uhat0 Vs Gs n.
Proof.
rewrite -[n in RHS]add0n.
apply: (@for_each_index_inv _ _
          (fun i acc => acc = merge_upto mu bs xhat0 uhat0 Vs Gs i)).
  by rewrite /merge_upto /Hindsight.merge_zero !big_geq.
move=> i acc _ ->; rewrite merge_branchE /merge_upto /=.
by rewrite !big_nat_recr.
Qed.

Lemma spec_lin_keeps (xhat0 : 'cV[F]_xdim) (uhat0 : 'cV[F]_udim) (b' b : branch) :
  same_problem b' b ->
  [/\ spec_A0 xhat0 uhat0 b' = spec_A0 xhat0 uhat0 b,
      spec_B0 xhat0 uhat0 b' = spec_B0 xhat0 uhat0 b,
      spec_q0 xhat0 uhat0 b' = spec_q0 xhat0 uhat0 b
    & Hindsight.probability b' = Hindsight.probability b].
Proof. by rewrite /spec_A0 /spec_B0 /spec_q0 => -[-> -> _ ->]. Qed.

(** The gains computed by the merging code are the probability-weighted
    [K_0] and [k_0] of the specification. *)
Lemma merged_gainsE (T : nat) (mu : F) (bs : seq branch)
    (xhat0 : 'cV[F]_xdim) (uhat0 : 'cV[F]_udim) :
  Hindsight.merged_gains
    (merge_upto mu [seq (spec_boundary T mu b).1.1 | b <- bs] xhat0 uhat0
       [seq spec_V1 T mu b | b <- bs] [seq spec_g1 T mu b | b <- bs] (size bs))
  = (spec_K0 T mu xhat0 uhat0 bs, spec_k0 T mu xhat0 uhat0 bs).
Proof.
have Hkeep b :
    [/\ spec_A0 xhat0 uhat0 (spec_boundary T mu b).1.1 = spec_A0 xhat0 uhat0 b,
        spec_B0 xhat0 uhat0 (spec_boundary T mu b).1.1 = spec_B0 xhat0 uhat0 b,
        spec_q0 xhat0 uhat0 (spec_boundary T mu b).1.1 = spec_q0 xhat0 uhat0 b
      & Hindsight.probability (spec_boundary T mu b).1.1 = Hindsight.probability b].
  by have [Hp _ _ _ _] := spec_boundary_keeps T mu b; apply: spec_lin_keeps.
rewrite /Hindsight.merged_gains /merge_upto /= !inv_term_mul.
rewrite /spec_K0 /spec_k0 /spec_Hbar /spec_Mbar /spec_mbar.
have EH :
    \sum_(0 <= j < size bs)
       Hindsight.probability (nth null [seq (spec_boundary T mu b).1.1 | b <- bs] j) *:
       quad_R (spec_q0 xhat0 uhat0 (nth null [seq (spec_boundary T mu b).1.1 | b <- bs] j))
    + \sum_(0 <= j < size bs)
        Hindsight.probability (nth null [seq (spec_boundary T mu b).1.1 | b <- bs] j) *:
        ((spec_B0 xhat0 uhat0 (nth null [seq (spec_boundary T mu b).1.1 | b <- bs] j))^T
         *m (nth 0 [seq spec_V1 T mu b | b <- bs] j + mu%:M)
         *m spec_B0 xhat0 uhat0 (nth null [seq (spec_boundary T mu b).1.1 | b <- bs] j))
    = \sum_(b <- bs) Hindsight.probability b *:
        (quad_R (spec_q0 xhat0 uhat0 b)
         + (spec_B0 xhat0 uhat0 b)^T *m (spec_V1 T mu b + mu%:M) *m spec_B0 xhat0 uhat0 b).
  rewrite -big_split /= [RHS](big_nth null); apply: eq_big_nat => j /andP [_ Hj].
  rewrite !(nth_map null) //.
  by have [EA EB Eq Ep] := Hkeep (nth null bs j); rewrite ?EA ?EB ?Eq ?Ep scalerDr.
have EM :
    (\sum_(0 <= j < size bs)
       Hindsight.probability (nth null [seq (spec_boundary T mu b).1.1 | b <- bs] j) *:
       quad_P (spec_q0 xhat0 uhat0 (nth null [seq (spec_boundary T mu b).1.1 | b <- bs] j)))^T
    + \sum_(0 <= j < size bs)
        Hindsight.probability (nth null [seq (spec_boundary T mu b).1.1 | b <- bs] j) *:
        ((spec_B0 xhat0 uhat0 (nth null [seq (spec_boundary T mu b).1.1 | b <- bs] j))^T
         *m (nth 0 [seq spec_V1 T mu b | b <- bs] j + mu%:M)
         *m spec_A0 xhat0 uhat0 (nth null [seq (spec_boundary T mu b).1.1 | b <- bs] j))
    = \sum_(b <- bs) Hindsight.probability b *:
        ((quad_P (spec_q0 xhat0 uhat0 b))^T
         + (spec_B0 xhat0 uhat0 b)^T *m (spec_V1 T mu b + mu%:M) *m spec_A0 xhat0 uhat0 b).
  rewrite raddf_sum -big_split /= [RHS](big_nth null).
  apply: eq_big_nat => j /andP [_ Hj]; rewrite !(nth_map null) //.
  by have [EA EB Eq Ep] := Hkeep (nth null bs j); rewrite ?EA ?EB ?Eq ?Ep scalerDr linearZ.
have Em :
    \sum_(0 <= j < size bs)
       Hindsight.probability (nth null [seq (spec_boundary T mu b).1.1 | b <- bs] j) *:
       quad_g_u (spec_q0 xhat0 uhat0 (nth null [seq (spec_boundary T mu b).1.1 | b <- bs] j))
    + \sum_(0 <= j < size bs)
        Hindsight.probability (nth null [seq (spec_boundary T mu b).1.1 | b <- bs] j) *:
        ((spec_B0 xhat0 uhat0 (nth null [seq (spec_boundary T mu b).1.1 | b <- bs] j))^T
         *m (nth 0 [seq spec_g1 T mu b | b <- bs] j)^T)
    = \sum_(b <- bs) Hindsight.probability b *:
        ((spec_B0 xhat0 uhat0 b)^T *m (spec_g1 T mu b)^T)
      + \sum_(b <- bs) Hindsight.probability b *: quad_g_u (spec_q0 xhat0 uhat0 b).
  rewrite addrC; congr (_ + _); rewrite [RHS](big_nth null);
    apply: eq_big_nat => j /andP [_ Hj]; rewrite !(nth_map null) //;
    by have [EA EB Eq Ep] := Hkeep (nth null bs j); rewrite ?EA ?EB ?Eq ?Ep.
by rewrite EH EM Em.
Qed.

Lemma copy_first_gainsE (K0 : 'M[F]_(udim, xdim)) (k0 : 'cV[F]_udim)
    (xhat0 : 'cV[F]_xdim) (uhat0 : 'cV[F]_udim) (bs : seq branch) :
  Hindsight.copy_first_gains K0 k0 xhat0 uhat0 bs =
    if all (fun b => is_equal (nth 0 (Hindsight.xhat b) 0) xhat0
                     && is_equal (nth 0 (Hindsight.uhat b) 0) uhat0) bs
    then Done [seq Hindsight.set_gains b (set_nth 0 (Hindsight.Ks b) 0 K0)
                     (set_nth 0 (Hindsight.ks b) 0 k0) | b <- bs]
    else Throw.
Proof.
elim: bs => [|b bs IH] //=; rewrite IH.
case: (is_equal _ _) => //=; case: (is_equal _ _) => //=.
by case: (all _ _).
Qed.

(** The backward half of an iteration: per-branch sweeps down to time 1,
    the probability-weighted gains of time 0, the copy into every branch. *)
Lemma backward_stepE (T : nat) (mu : F) (h : hsolver) :
  let bs := Hindsight.branches_ h in
  let xhat0 := Hindsight.xhat0_ h in
  let uhat0 := Hindsight.uhat0_ h in
  let K0 := spec_K0 T mu xhat0 uhat0 bs in
  let k0 := spec_k0 T mu xhat0 uhat0 bs in
  Hindsight.backward_step T mu h =
    (bs3 <- Hindsight.copy_first_gains K0 k0 xhat0 uhat0
              [seq (spec_boundary T mu b).1.1 | b <- bs] ;;
     Done (Hindsight.HSolver bs3 K0 k0 xhat0 uhat0)).
Proof.
move=> bs xhat0 uhat0 K0 k0.
rewrite /Hindsight.backward_step -/bs -/xhat0 -/uhat0 backup_branchesE.
by rewrite merge_loopE merged_gainsE.
Qed.

End HindsightBackward.

(* ===================================================================== *)
(** ** The hindsight forward pass and line search *)
(* ===================================================================== *)

Section HindsightForward.

Variable F : realFieldType.
Variables xdim udim : nat.
Context {num : Numerics F xdim udim}.

Local Notation branch := (Hindsight.HindsightBranch F xdim udim).
Local Notation hsolver := (Hindsight.iLQRHindsightSolver F xdim udim).
Local Notation null := (Hindsight.null_branch F xdim udim).

Lemma line_search_ext (A : Type) (fuel : nat) (pass1 pass2 : F -> outcome (A * F))
    (old_cost : xdouble F) (convg alpha : F) :
  (forall a, pass1 a = pass2 a) ->
  line_search fuel pass1 old_cost convg alpha
  = line_search fuel pass2 old_cost convg alpha.
Proof.
move=> Hpass; elim: fuel alpha => [|fuel IH] alpha //=.
by rewrite Hpass; case: (pass2 alpha) => [[held c]||] //=; rewrite IH.
Qed.

Lemma beta_restore (a : F) : (1 / beta F) * (a * beta F) = a.
Proof. by rewrite /beta; field. Qed.

(** The expected cost [sum_b p_b J_b] of the rollouts at [alpha]. *)
Definition expected (T : nat) (bs : seq branch) (x_init : 'cV[F]_xdim) (alpha : F) : F :=
  \sum_(0 <= i < size bs)
     Hindsight.probability (nth null bs i)
     * (branch_rollout (nth null bs i) T x_init alpha).2.

Lemma expected_costE (T : nat) (bs : seq branch) (x_init : 'cV[F]_xdim) (alpha : F) :
  all (branch_sized T) bs ->
  Hindsight.expected_cost bs x_init alpha = Done (expected T bs x_init alpha).
Proof.
move=> Hbs; rewrite /Hindsight.expected_cost /expected.
pose Inv (i : nat) (J : F) :=
  J = \sum_(0 <= j < i)
        Hindsight.probability (nth null bs j)
        * (branch_rollout (nth null bs j) T x_init alpha).2.
have Hbase : Inv 0%N 0 by rewrite /Inv big_geq.
have [|J -> ->] // := for_loop_inv Hbase (n := size bs)
    (body := fun branch_num new_cost =>
       ' (_, _, branch_new_cost) <- Hindsight.forward_pass bs branch_num x_init alpha ;;
       Done (new_cost + Hindsight.probability (nth null bs branch_num) * branch_new_cost)).
move=> i J; rewrite add0n => /andP [_ Hi] ->.
have H0 : branch_sized T (nth null bs 0).
  by move/all_nthP: Hbs; apply; apply: leq_ltn_trans Hi.
rewrite (forward_passE _ _ Hi H0) /=.
case Er: (branch_rollout _ _ _ _) => [[xs us] Ji] /=.
by eexists; first reflexivity; rewrite /Inv big_nat_recr //= Er.
Qed.

(** The state of the commit loop when [i] branches are done. *)
Definition commit_inv (T : nat) (x_init : 'cV[F]_xdim) (alpha : F)
    (bs : seq branch) (i : nat)
    (st : seq branch * seq 'cV[F]_xdim * seq 'cV[F]_udim) : Prop :=
  [/\ size st.1.1 = size bs, size st.1.2 = size bs, size st.2 = size bs
    & forall j,
        nth null st.1.1 j
          = (if (j < i)%N then committed T x_init alpha (nth null bs j)
             else nth null bs j)
        /\ ((j < i)%N ->
            nth 0 st.1.2 j = nth 0 (branch_rollout (nth null bs j) T x_init alpha).1.1 0
            /\ nth 0 st.2 j = nth 0 (branch_rollout (nth null bs j) T x_init alpha).1.2 0)].

Lemma commit_loopE (T : nat) (bs : seq branch) (x_init : 'cV[F]_xdim) (alpha : F) :
  all (branch_sized T) bs ->
  for_loop (Hindsight.commit_branch x_init alpha) 0 (size bs)
    (bs, nseq (size bs) 0, nseq (size bs) 0)
  = Done ([seq committed T x_init alpha b | b <- bs],
          [seq nth 0 (branch_rollout b T x_init alpha).1.1 0 | b <- bs],
          [seq nth 0 (branch_rollout b T x_init alpha).1.2 0 | b <- bs]).
Proof.
move=> Hbs.
have Hbase : commit_inv T x_init alpha bs 0 (bs, nseq (size bs) 0, nseq (size bs) 0).
  by split; rewrite ?size_nseq.
have [|[[bs' x0s] u0s] ->] := for_loop_inv Hbase (n := size bs)
    (body := Hindsight.commit_branch x_init alpha).
- move=> i [[bs0 x0s] u0s]; rewrite add0n => /andP [_ Hi] [Hsb Hsx Hsu Hnth].
  rewrite /= in Hsb Hsx Hsu Hnth.
  have H0 : branch_sized T (nth null bs0 0).
    rewrite (proj1 (Hnth 0%N)).
    have Hb0 : branch_sized T (nth null bs 0).
      by move/all_nthP: Hbs; apply; apply: leq_ltn_trans Hi.
    by case: ifP => _ //; apply: branch_sized_committed.
  rewrite /Hindsight.commit_branch (forward_passE (T := T)) ?Hsb //=.
  rewrite (proj1 (Hnth i)) ltnn.
  case Er: (branch_rollout _ _ _ _) => [[xs us] J] /=.
  eexists; first reflexivity.
  split; rewrite /= ?size_set_nth_in ?Hsb ?Hsx ?Hsu //.
  move=> j; rewrite !nth_set_nth /= ltnS leq_eqVlt.
  case: (j =P i) => [->|_] //=.
  by rewrite /committed Er.
- rewrite add0n => -[/= Hsb Hsx Hsu Hnth]; congr (Done (_, _, _)).
  + apply: (@eq_from_nth _ null); rewrite ?size_map // => j; rewrite Hsb => Hj.
    by rewrite (nth_map null) // (proj1 (Hnth j)) Hj.
  + apply: (@eq_from_nth _ 0); rewrite ?size_map // => j; rewrite Hsx => Hj.
    by rewrite (nth_map null) //; have [_ /(_ Hj) []] := Hnth j.
  + apply: (@eq_from_nth _ 0); rewrite ?size_map // => j; rewrite Hsu => Hj.
    by rewrite (nth_map null) //; have [_ /(_ Hj) []] := Hnth j.
Qed.

(** The forward half of an iteration: a line search on the expected cost,
    then every branch rolled out at the accepted step size. *)
Lemma forward_stepE (fuel T : nat) (x_init : 'cV[F]_xdim) (convg start_alpha : F)
    (h : hsolver) (old_cost : xdouble F) :
  let bs := Hindsight.branches_ h in
  all (branch_sized T) bs -> (0 < size bs)%N ->
  Hindsight.forward_step fuel x_init convg start_alpha h old_cost =
    (' (_, new_cost, ratio, alpha') <-
       line_search fuel (fun a => Done (tt, expected T bs x_init a))
         old_cost convg start_alpha ;;
     let alpha := (1 / beta F) * alpha' in
     Done (Hindsight.HSolver [seq committed T x_init alpha b | b <- bs]
             (Hindsight.K0_ h) (Hindsight.k0_ h) x_init
             (nth 0 (branch_rollout (nth null bs 0) T x_init alpha).1.2 0),
           new_cost, ratio)).
Proof.
move=> bs Hbs Hn; rewrite /Hindsight.forward_step -/bs.
have Hext a : Hindsight.line_search_pass bs x_init a = Done (tt, expected T bs x_init a).
  by rewrite /Hindsight.line_search_pass (expected_costE _ _ Hbs).
rewrite (line_search_ext fuel old_cost convg start_alpha Hext).
case: (line_search _ _ _ _ _) => [[[[[] new_cost] ratio] alpha']||] //=.
rewrite (commit_loopE _ _ Hbs) /=; congr (Done (Hindsight.HSolver _ _ _ _ _, _, _)).
  by rewrite (nth_map null) //; have [-> _] := branch_rollout_first (nth null bs 0) T x_init (1 / beta F * alpha').
by rewrite (nth_map null).
Qed.

End HindsightForward.

(* ===================================================================== *)
(** ** The shared first slot is an invariant of the hindsight solver *)
(* ===================================================================== *)

Section HindsightInvariant.

Variable F : realFieldType.
Variables xdim udim : nat.
Context {num : Numerics F xdim udim}.

Local Notation branch := (Hindsight.HindsightBranch F xdim udim).
Local Notation hsolver := (Hindsight.iLQRHindsightSolver F xdim udim).
Local Notation null := (Hindsight.null_branch F xdim udim).

(** Sizes agree with the horizon and slot 0 is shared. *)
Definition hinv (T : nat) (h : hsolver) : bool :=
  [&& (0 < size (Hindsight.branches_ h))%N,
      all (branch_sized T) (Hindsight.branches_ h) & shared_first_slot h].

Lemma all_nth0 (P : pred branch) (bs : seq branch) :
  (0 < size bs)%N -> all P bs -> P (nth null bs 0).
Proof. by case: bs => [|b bs] //= _ /andP []. Qed.

(** The first control of a rollout, from the shared values. *)
Lemma committed_shares (T : nat) (x_init : 'cV[F]_xdim) (alpha : F)
    (K0 : 'M[F]_(udim, xdim)) (k0 : 'cV[F]_udim)
    (xhat0 : 'cV[F]_xdim) (uhat0 : 'cV[F]_udim) (b : branch) :
  shares_first_slot K0 k0 xhat0 uhat0 b ->
  shares_first_slot K0 k0 x_init
    (K0 *m (x_init - xhat0) + alpha *: k0 + uhat0)
    (committed T.+1 x_init alpha b).
Proof.
case/and4P=> /eqP HK /eqP Hk /eqP Hx /eqP Hu.
have [Ex Eu] := branch_rollout_first b T x_init alpha.
have [Ex' _] := branch_rollout_first b T.+1 x_init alpha.
rewrite /shares_first_slot /committed /= HK Hk Ex' Eu !eqxx /=.
by rewrite /Hindsight.compute_control_stepsize /control_stepsize HK Hk Hx Hu.
Qed.

Lemma forward_step_hinv (fuel T : nat) (x_init : 'cV[F]_xdim)
    (convg start_alpha : F) (h h1 : hsolver) (old_cost : xdouble F)
    (new_cost : F) (ratio : xdouble F) :
  hinv T.+1 h ->
  Hindsight.forward_step fuel x_init convg start_alpha h old_cost
    = Done (h1, new_cost, ratio) ->
  hinv T.+1 h1.
Proof.
case/and3P=> Hn Hbs Hsh; rewrite (forward_stepE _ _ _ _ _ Hbs Hn).
case: (line_search _ _ _ _ _) => [[[[[] c] r] alpha']||] //= [<- _ _].
rewrite /hinv /= size_map Hn /=; apply/andP; split.
  rewrite all_map; apply: sub_all Hbs => b /=; exact: branch_sized_committed.
have E0 := committed_shares T x_init (1 / beta F * alpha')
             (all_nth0 Hn Hsh).
have /and4P [_ _ _ /eqP Eu] := E0; rewrite /= in Eu.
rewrite /shared_first_slot /= Eu all_map; apply: sub_all Hsh => b Hb /=.
exact: committed_shares.
Qed.

Lemma branch_sized_sweep (T t : nat) (mu : F) (b : branch)
    (V : 'M[F]_xdim) (g : 'rV[F]_xdim) :
  (t < T)%N -> branch_sized T b ->
  branch_sized T (spec_branch_sweep t mu b V g).1.1.
Proof.
elim: t b V g => [|t IH] b V g Ht Hb //; rewrite spec_branch_sweepS.
have Hb1 : branch_sized T (spec_branch_backup t.+1 mu b V g).1.1.
  case/and4P: Hb => /eqP HK /eqP Hk Hu Hx.
  by rewrite /branch_sized /= !size_set_nth_in ?HK ?Hk // !eqxx Hu Hx.
case: (spec_branch_backup _ _ _ _ _) Hb1 => [[b1 V1] g1] /= Hb1.
by apply: IH => //; apply: ltnW.
Qed.

Lemma branch_sized_boundary (T : nat) (mu : F) (b : branch) :
  (0 < T)%N -> branch_sized T b -> branch_sized T (spec_boundary T mu b).1.1.
Proof.
move=> HT Hb; rewrite /spec_boundary; case: (quadratize_final_cost _ _) => V_T g_T.
by apply: branch_sized_sweep => //; rewrite prednK.
Qed.

(** The branch after the backward half of an iteration. *)
Definition backed_up (T : nat) (mu : F) (K0 : 'M[F]_(udim, xdim))
    (k0 : 'cV[F]_udim) (b : branch) : branch :=
  let b' := (spec_boundary T mu b).1.1 in
  Hindsight.set_gains b' (set_nth 0 (Hindsight.Ks b') 0 K0)
    (set_nth 0 (Hindsight.ks b') 0 k0).

(** What the two checks after the merge test. *)
Definition rollouts_agree (h : hsolver) : bool :=
  all (fun b => is_equal (nth 0 (Hindsight.xhat b) 0) (Hindsight.xhat0_ h)
                && is_equal (nth 0 (Hindsight.uhat b) 0) (Hindsight.uhat0_ h))
      (Hindsight.branches_ h).

Lemma backward_step_checks (T : nat) (mu : F) (h : hsolver) :
  let bs := Hindsight.branches_ h in
  let K0 := spec_K0 T mu (Hindsight.xhat0_ h) (Hindsight.uhat0_ h) bs in
  let k0 := spec_k0 T mu (Hindsight.xhat0_ h) (Hindsight.uhat0_ h) bs in
  Hindsight.backward_step T mu h =
    if rollouts_agree h
    then Done (Hindsight.HSolver [seq backed_up T mu K0 k0 b | b <- bs] K0 k0
                 (Hindsight.xhat0_ h) (Hindsight.uhat0_ h))
    else Throw.
Proof.
move=> bs K0 k0; rewrite backward_stepE copy_first_gainsE -/bs -/K0 -/k0.
rewrite all_map /rollouts_agree -/bs.
have -> : all (preim (fun b => (spec_boundary T mu b).1.1)
                 (fun b => is_equal (nth 0 (Hindsight.xhat b) 0) (Hindsight.xhat0_ h)
                           && is_equal (nth 0 (Hindsight.uhat b) 0) (Hindsight.uhat0_ h))) bs
          = all (fun b => is_equal (nth 0 (Hindsight.xhat b) 0) (Hindsight.xhat0_ h)
                          && is_equal (nth 0 (Hindsight.uhat b) 0) (Hindsight.uhat0_ h)) bs.
  by apply: eq_all => b /=; have [_ -> -> _ _] := spec_boundary_keeps T mu b.
by case: (all _ _) => //=; rewrite -map_comp.
Qed.

Lemma backward_step_hinv (T : nat) (mu : F) (h h2 : hsolver) :
  hinv T.+1 h -> Hindsight.backward_step T.+1 mu h = Done h2 -> hinv T.+1 h2.
Proof.
case/and3P=> Hn Hbs Hsh; rewrite backward_step_checks.
case: (rollouts_agree h) => // -[<-].
rewrite /hinv /= size_map Hn /=; apply/andP; split.
  rewrite all_map; apply: sub_all Hbs => b Hb /=.
  have /and4P [/eqP HK /eqP Hk Hu Hx] := branch_sized_boundary mu (ltn0Sn T) Hb.
  by rewrite /branch_sized /= !size_set_nth_in ?HK ?Hk // !eqxx Hu Hx.
rewrite /shared_first_slot /= all_map; apply: sub_all Hsh => b /=.
case/and4P=> _ _ Hx Hu; rewrite /shares_first_slot /= !nth_set_nth /= !eqxx /=.
by have [_ -> -> _ _] := spec_boundary_keeps T.+1 mu b; rewrite Hx Hu.
Qed.


Lemma cold_start_hinv (h : hsolver) (T : nat) (u_nominal : 'cV[F]_udim) :
  (0 < size (Hindsight.branches_ h))%N ->
  hinv T.+1 (Hindsight.cold_start h T.+1 u_nominal).
Proof.
move=> Hn; rewrite /hinv /= size_map Hn /=; apply/andP; split.
  rewrite all_map (@eq_all _ _ predT) ?all_predT // => b /=.
  by rewrite /branch_sized /= !size_nseq !eqxx.
rewrite /shared_first_slot /= all_map (@eq_all _ _ predT) ?all_predT // => b /=.
by rewrite /shares_first_slot /= !eqxx.
Qed.


Lemma int_gt1_nat (T : int) : 1 < T -> exists n, int_to_nat T = n.+1.
Proof. by case: T => [[|n]|n] // _; exists n. Qed.


(** When [math::is_equal] accepts equal vectors, the two checks after the
    merge pass on a solver whose first slot is shared. *)
Lemma shared_rollouts_agree (h : hsolver) :
  (forall (n : nat) (x : 'cV[F]_n), is_equal x x) ->
  shared_first_slot h -> rollouts_agree h.
Proof.
move=> Hrefl; rewrite /shared_first_slot /rollouts_agree; apply: sub_all => b.
by case/and4P=> _ _ /eqP -> /eqP ->; rewrite !Hrefl.
Qed.

Lemma forward_step_no_Throw (fuel T : nat) (x_init : 'cV[F]_xdim)
    (convg start_alpha : F) (h : hsolver) (old_cost : xdouble F) :
  hinv T h ->
  Hindsight.forward_step fuel x_init convg start_alpha h old_cost <> Throw.
Proof.
case/and3P=> Hn Hbs _; rewrite (forward_stepE _ _ _ _ _ Hbs Hn).
have := @line_search_no_Throw F unit fuel
          (fun a => Done (tt, expected T (Hindsight.branches_ h) x_init a))
          old_cost convg start_alpha.
by case: (line_search _ _ _ _ _) => [[[[[] c] r] alpha']||] //= H _; apply: H.
Qed.

Lemma hindsight_iterations_no_Throw (fuel iters T : nat) (x_init : 'cV[F]_xdim)
    (mu convg start_alpha : F) (h : hsolver) (old_cost : xdouble F) :
  (forall (n : nat) (x : 'cV[F]_n), is_equal x x) ->
  hinv T.+1 h ->
  Hindsight.iterations fuel iters T.+1 x_init mu convg start_alpha h old_cost
    <> Throw.
Proof.
move=> Hrefl; elim: iters h old_cost => [|iters IH] h old_cost Hh //=.
case E1: (Hindsight.forward_step _ _ _ _ _ _)
  (@forward_step_no_Throw fuel _ x_init convg start_alpha h old_cost Hh)
  => [[[h1 c] r]||] //= _.
have Hh1 := forward_step_hinv Hh E1.
case: ifP => // _.
have := backward_step_hinv (mu := mu) Hh1.
rewrite backward_step_checks shared_rollouts_agree //=; first by case/and3P: Hh1.
by move=> /(_ _ erefl); apply: IH.
Qed.

(** The first iteration of a [solve] accepts its first rollout and goes
    on to the backward pass. *)
Lemma hindsight_first_iteration (fuel T : nat) (x_init : 'cV[F]_xdim)
    (mu convg start_alpha : F) (h : hsolver) :
  hinv T.+1 h ->
  exists h1,
    hinv T.+1 h1 /\
    Hindsight.iterations fuel.+1 1 T.+1 x_init mu convg start_alpha h PosInf
      = Hindsight.backward_step T.+1 mu h1.
Proof.
move=> Hh; have /and3P [Hn Hbs _] := Hh.
have := @forward_step_hinv fuel.+1 T x_init convg start_alpha h _ PosInf _ _ Hh.
rewrite /= (forward_stepE _ _ _ _ _ Hbs Hn) (line_search_first _ _ (held := tt)
          (new_cost := expected T.+1 (Hindsight.branches_ h) x_init start_alpha)) //=.
set h1 := Hindsight.HSolver _ _ _ _ _ => /(_ _ _ _ erefl) Hh1.
by exists h1; split=> //; case: (Hindsight.backward_step _ _ _).
Qed.

(** A cold-start [solve] whose arguments pass the checks. *)
Lemma hindsight_solve_cold (fuel : nat) (T : int) (x_init : 'cV[F]_xdim)
    (u_nominal : 'cV[F]_udim) (mu : F) (max_iters : int)
    (convg start_alpha : F) (t_offset : int) (h : hsolver) :
  1 < T -> 0 <= mu -> 0 < max_iters -> 0 < convg -> 0 < start_alpha ->
  0 <= t_offset ->
  almost_equal (Hindsight.total_branch_probability (Hindsight.branches_ h)) 1
    (Hindsight.prob_eps F) ->
  Hindsight.solve fuel T x_init u_nominal mu max_iters convg start_alpha
    false t_offset h
  = Hindsight.iterations fuel (int_to_nat max_iters) (int_to_nat T) x_init mu
      convg start_alpha (Hindsight.cold_start h (int_to_nat T) u_nominal) PosInf.
Proof.
by move=> HT Hmu Hit Hc Ha Hoff Hp; rewrite /Hindsight.solve !IS_TRUE_true.
Qed.

Lemma hindsight_one_iteration_Done (fuel T : nat) (x_init : 'cV[F]_xdim)
    (mu convg start_alpha : F) (h : hsolver) :
  (forall (n : nat) (x : 'cV[F]_n), is_equal x x) ->
  hinv T.+1 h ->
  exists h',
    Hindsight.iterations fuel.+1 1 T.+1 x_init mu convg start_alpha h PosInf
      = Done h'.
Proof.
move=> Hrefl /(hindsight_first_iteration fuel x_init mu convg start_alpha).
case=> h1 [/and3P [_ _ Hsh] ->].
by rewrite backward_step_checks (shared_rollouts_agree Hrefl Hsh); eexists.
Qed.

(** C5 (as the code has it).  Neither backup tests the control Hessian:
    [bellman_backup] is a total function that returns the gains computed
    from [inverse] of [H], whatever [H] is, and [solve] has no failure for
    a singular [H].  A cold-start [solve] whose arguments pass the
    boundary checks never throws (for the hindsight solver: with at least
    one branch, probabilities accepted by the sum check, and an [is_equal]
    that accepts equal vectors). *)
Theorem solve_never_throws_after_its_checks (fuel : nat) (T : int)
    (x_init : 'cV[F]_xdim) (u_nominal : 'cV[F]_udim) (mu : F) (max_iters : int)
    (convg start_alpha : F) (t_offset : int)
    (s : Chain.iLQRSolver F xdim udim) (h : hsolver) :
  0 <= mu -> 0 < max_iters -> 0 < convg -> 0 < start_alpha ->
  (0 < T ->
   Chain.solve fuel T x_init u_nominal mu max_iters convg start_alpha
     false t_offset s <> Throw)
  /\
  ((forall (n : nat) (x : 'cV[F]_n), is_equal x x) ->
   1 < T -> 0 <= t_offset -> (0 < size (Hindsight.branches_ h))%N ->
   almost_equal (Hindsight.total_branch_probability (Hindsight.branches_ h)) 1
     (Hindsight.prob_eps F) ->
   Hindsight.solve fuel T x_init u_nominal mu max_iters convg start_alpha
     false t_offset h <> Throw).
Proof.
move=> Hmu Hit Hc Ha; split=> [HT|Hrefl HT Hoff Hn Hp].
  exact: chain_solve_no_Throw.
rewrite hindsight_solve_cold //; have [n ->] := int_gt1_nat HT.
exact/hindsight_iterations_no_Throw/cold_start_hinv.
Qed.

(** C2.  The backward half of a hindsight iteration sweeps every branch
    with the backup of section 4.2 from [t = T-1] down to [t = 1] only
    ([spec_boundary], which leaves slot 0 and the nominal trajectory of
    the branch as they were and ends with [(V_1^b, g_1^b)]); the gains of
    [t = 0] are then computed once, at the shared point
    [(xhat0_, uhat0_)], as [K_0 = - Hbar^-1 Mbar] and
    [k_0 = - Hbar^-1 mbar] with
    [Hbar = sum_b p_b (R^b + B^b^T (V_1^b + mu I) B^b)],
    [Mbar = sum_b p_b (P^b^T + B^b^T (V_1^b + mu I) A^b)] and
    [mbar = sum_b p_b B^b^T (g_1^b)^T + sum_b p_b g_u^b], and copied to
    every branch. *)
Theorem hindsight_backward_pass_merges_at_time_zero (T : nat) (mu : F) (h : hsolver) :
  let bs := Hindsight.branches_ h in
  let xhat0 := Hindsight.xhat0_ h in
  let uhat0 := Hindsight.uhat0_ h in
  let K0 := - (inverse (spec_Hbar T mu xhat0 uhat0 bs) *m spec_Mbar T mu xhat0 uhat0 bs) in
  let k0 := - (inverse (spec_Hbar T mu xhat0 uhat0 bs) *m spec_mbar T mu xhat0 uhat0 bs) in
  Hindsight.backward_step T mu h =
    (bs3 <- Hindsight.copy_first_gains K0 k0 xhat0 uhat0
              [seq (spec_boundary T mu b).1.1 | b <- bs] ;;
     Done (Hindsight.HSolver bs3 K0 k0 xhat0 uhat0))
  /\ (forall b : branch, gains_only (spec_boundary T mu b).1.1 b).
Proof.
split; last by move=> b; apply: spec_boundary_keeps.
exact: backward_stepE.
Qed.


End HindsightInvariant.

(* ===================================================================== *)
(** ** One branch of probability 1 against the single-chain solver *)
(* ===================================================================== *)

Section SingleBranch.

Variable F : realFieldType.
Variables xdim udim : nat.
Context {num : Numerics F xdim udim}.

Local Notation branch := (Hindsight.HindsightBranch F xdim udim).
Local Notation hsolver := (Hindsight.iLQRHindsightSolver F xdim udim).
Local Notation solver := (Chain.iLQRSolver F xdim udim).
Local Notation null := (Hindsight.null_branch F xdim udim).

(** The single-chain solver on the problem and data of a branch. *)
Definition as_chain (b : branch) : solver :=
  Chain.ILQRSolver (Hindsight.dynamics b) (Hindsight.cost b) (Hindsight.final_cost b)
    (Hindsight.Ks b) (Hindsight.ks b) (Hindsight.uhat b) (Hindsight.xhat b).



Lemma bind_unit (X Y : Type) (x : X) (f : X -> outcome Y) : bind (Done x) f = f x.
Proof. by []. Qed.

Lemma well_sized_as_chain (T : nat) (b : branch) :
  well_sized T (as_chain b) = branch_sized T b.
Proof. by []. Qed.

Lemma chain_forward_passE (T : nat) (b : branch) (x_init : 'cV[F]_xdim) (alpha : F) :
  branch_sized T b ->
  Chain.forward_pass (as_chain b) x_init alpha = Done (branch_rollout b T x_init alpha).
Proof.
move=> Hb; rewrite /Chain.forward_pass (timesteps_sized (s := as_chain b) Hb) /=.
by rewrite /branch_rollout; case: (rollout _ _ _ _ _ _ _) => [[xs us] J].
Qed.










End SingleBranch.

(* ===================================================================== *)
(** ** When the backtracking line search ends *)
(* ===================================================================== *)

Section StepSize64.

Variable F : realFieldType.

(** [double alpha].  A finite, non-negative binary64 number is
    [m * 2^e * 2^-1074] for a mantissa [m < 2^53] and an exponent
    [e <= 2045] counted from the smallest one.  [start_alpha], checked to
    be positive, is such a number unless it is [+inf]. *)
Record step64 : Type := Step64 { mantissa : nat; exponent : nat }.

(** The smallest positive binary64 number, [2^-1074]. *)
Definition least_step : F := (2 ^+ 1074)^-1.

Definition step_val (a : step64) : F :=
  (mantissa a)%:R * 2 ^+ exponent a * least_step.

(** Half of [m], rounded to nearest, ties to even. *)
Definition half_even (m : nat) : nat :=
  if odd m && odd m./2 then (m./2).+1 else m./2.

(** [alpha *= beta] on a [double], [beta = 0.5].  While the exponent can
    drop, the product is a binary64 number and is returned as it is.  At
    the smallest exponent the results are the multiples of [2^-1074]: the
    mantissa is halved and rounded, and reaches 0. *)
Definition halve64 (a : step64) : step64 :=
  if exponent a is e.+1 then Step64 (mantissa a) e
  else Step64 (half_even (mantissa a)) 0.

(** The line-search loop (see [line_search]) with [alpha] as the [double]
    it is. *)
Fixpoint line_search64 (A : Type) (fuel : nat) (pass : F -> outcome (A * F))
    (old_cost : xdouble F) (cost_convg_ratio : F) (alpha : step64)
    : outcome (A * F * xdouble F * step64) :=
  match fuel with
  | 0 => Diverge
  | fuel'.+1 =>
      ' (held, new_cost) <- pass (step_val alpha) ;;
      let ratio := cost_diff_ratio old_cost new_cost in
      let alpha' := halve64 alpha in
      if xlt (Finite new_cost) old_cost || xlt ratio (Finite cost_convg_ratio)
      then Done (held, new_cost, ratio, alpha')
      else line_search64 fuel' pass old_cost cost_convg_ratio alpha'
  end.

Lemma least_step_gt0 : 0 < least_step.
Proof. by rewrite /least_step invr_gt0 exprn_gt0 // ltr0n. Qed.


Lemma scaled_val (m d n : nat) :
  m%:R * 2 ^+ (d + n) * (2 ^+ n)^-1 = m%:R * 2 ^+ d :> F.
Proof. by rewrite exprD mulrA mulfK // expf_neq0 // pnatr_eq0. Qed.

(** The numbers [m * 2^d] with [m < 2^53]: the exponent is [d] above
    1074. *)
Lemma step_val_shift (m d : nat) : step_val (Step64 m (d + 1074)) = m%:R * 2 ^+ d.
Proof. exact: (scaled_val m d 1074). Qed.

(** Above the smallest exponent halving is exact. *)
Lemma step_val_halve (a : step64) :
  (0 < exponent a)%N -> step_val (halve64 a) = step_val a * beta F.
Proof.
case: a => m [|e] // _; rewrite /step_val /halve64 /beta.
rewrite [mantissa _]/= [mantissa _]/= [exponent _]/= [exponent _]/= exprS.
by rewrite mulrA [_ * 2 * _]mulrAC [_ * 2 * _]mulrAC mulfK // pnatr_eq0.
Qed.






(** While no halving reaches the smallest exponent, the loop on the
    [double] is the loop on the exact step size. *)
Lemma line_search64_exact (A : Type) (fuel : nat) (pass : F -> outcome (A * F))
    (old_cost : xdouble F) (convg : F) (alpha : step64) :
  (fuel <= exponent alpha)%N ->
  line_search fuel pass old_cost convg (step_val alpha)
  = (' (held, new_cost, ratio, alpha') <-
       line_search64 fuel pass old_cost convg alpha ;;
     Done (held, new_cost, ratio, step_val alpha')).
Proof.
elim: fuel alpha => [|fuel IH] alpha Hfuel //=.
have He : (0 < exponent alpha)%N by apply: leq_trans Hfuel.
case: (pass (step_val alpha)) => [[held c]| |] //=.
rewrite -(step_val_halve He); case: ifP => // _.
by apply: IH; case: alpha Hfuel {He} => m [|e].
Qed.

End StepSize64.

Section LineSearchHalvings.

Variable F : realFieldType.
Variable A : Type.
Variable pass : F -> outcome (A * F).
Variable held_at : F -> A.
Variable J : F -> F.
Hypothesis passE : forall a, pass a = Done (held_at a, J a).
Variable old_cost : xdouble F.
Variable convg : F.


Lemma line_search64_step (fuel : nat) (alpha : step64) :
  line_search64 fuel.+1 pass old_cost convg alpha =
    if accepted old_cost convg (J (step_val F alpha))
    then Done (held_at (step_val F alpha), J (step_val F alpha),
               cost_diff_ratio old_cost (J (step_val F alpha)), halve64 alpha)
    else line_search64 fuel pass old_cost convg (halve64 alpha).
Proof. by rewrite /= passE. Qed.

Lemma line_search64_never_accepted (alpha : step64) :
  (forall a, ~~ accepted old_cost convg (J a)) ->
  forall fuel, line_search64 fuel pass old_cost convg alpha = Diverge.
Proof.
move=> Hno fuel; elim: fuel alpha => [|fuel IH] alpha //.
by rewrite line_search64_step (negbTE (Hno _)).
Qed.



End LineSearchHalvings.

Section LineSearchTermination.

Variable F : realFieldType.
Variable A : Type.
Variable pass : F -> outcome (A * F).
Variable held_at : F -> A.
Variable J : F -> F.
Hypothesis passE : forall a, pass a = Done (held_at a, J a).


End LineSearchTermination.

Section NominalReplay.

Variable F : realFieldType.
Variables xdim udim : nat.
Context {num : Numerics F xdim udim}.

Local Notation branch := (Hindsight.HindsightBranch F xdim udim).
Local Notation hsolver := (Hindsight.iLQRHindsightSolver F xdim udim).
Local Notation solver := (Chain.iLQRSolver F xdim udim).
Local Notation null := (Hindsight.null_branch F xdim udim).

(** A control law that gives, along the states of a rollout, the controls
    of that rollout, gives the same rollout. *)
Lemma rollout_replay (dyn : DynamicsFunc F xdim udim) (cost : CostFunc F xdim udim)
    (control control' : 'cV[F]_xdim -> nat -> 'cV[F]_udim)
    (n t : nat) (xt : 'cV[F]_xdim) (c : F) :
  (forall i, (i < n)%N ->
     control' (nth 0 (xt :: (rollout dyn cost control n t xt c).1.1) i) (t + i)%N
     = nth 0 (rollout dyn cost control n t xt c).1.2 i) ->
  rollout dyn cost control' n t xt c = rollout dyn cost control n t xt c.
Proof.
elim: n t xt c => [|n IH] t xt c //= Hi.
have H0 := Hi 0%N (ltn0Sn n).
have {}Hi i : (i < n)%N -> _ := Hi i.+1.
move: H0 Hi (IH t.+1 (dyn xt (control xt t)) (c + cost xt (control xt t) t)).
case: (rollout dyn cost control n _ _ _) => [[xs us] J] /=.
rewrite addn0 => -> Hi -> // i Hlt.
by rewrite addSnnS; apply: Hi.
Qed.

(** With step size 0 the forward pass reproduces the nominal trajectory it
    starts from, whatever the gains: the deviation from the nominal states
    stays zero and the feedforward term is switched off. *)
Lemma branch_rollout_nominal (b b' : branch) (T : nat) (x_init : 'cV[F]_xdim)
    (alpha : F) :
  Hindsight.dynamics b' = Hindsight.dynamics b ->
  Hindsight.cost b' = Hindsight.cost b ->
  Hindsight.final_cost b' = Hindsight.final_cost b ->
  Hindsight.xhat b' = (branch_rollout b T x_init alpha).1.1 ->
  Hindsight.uhat b' = (branch_rollout b T x_init alpha).1.2 ->
  branch_rollout b' T x_init 0 = branch_rollout b T x_init alpha.
Proof.
rewrite /branch_rollout => Hd Hc Hf.
set control := fun xt t => Hindsight.compute_control_stepsize b xt t alpha.
have := @rollout_replay (Hindsight.dynamics b) (Hindsight.cost b) control
          (fun xt t => Hindsight.compute_control_stepsize b' xt t 0) T 0 x_init 0.
rewrite Hd Hc Hf.
case: (rollout _ _ control _ _ _ _) => [[xs us] c] /= Hreplay Hx Hu.
rewrite Hreplay // => i Hi.
rewrite /Hindsight.compute_control_stepsize /control_stepsize Hx Hu add0n.
by rewrite subrr mulmx0 scale0r !add0r.
Qed.

Lemma chain_backward_pass_keeps (k : nat) (mu : F) (s : solver)
    (V : 'M[F]_xdim) (g : 'rV[F]_xdim) :
  let s' := Chain.backward_pass k mu s V g in
  [/\ Chain.dynamics_ s' = Chain.dynamics_ s, Chain.cost_ s' = Chain.cost_ s,
      Chain.final_cost_ s' = Chain.final_cost_ s,
      Chain.xhat_ s' = Chain.xhat_ s & Chain.uhat_ s' = Chain.uhat_ s].
Proof.
elim: k s V g => [|k IH] s V g //=.
case: (Chain.bellman_backup _ _ _ _ _) => [[[Vt G_t] Kt] kt].
by have [-> -> -> -> ->] := IH (Chain.set_gains s (set_nth 0 (Chain.Ks_ s) k Kt)
                                 (set_nth 0 (Chain.ks_ s) k kt)) Vt G_t.
Qed.

(** The hindsight branch with the problem and data of a single-chain
    solver. *)
Definition as_branch (s : solver) : branch :=
  Hindsight.Branch (Chain.dynamics_ s) (Chain.cost_ s) (Chain.final_cost_ s) 1
    (Chain.Ks_ s) (Chain.ks_ s) (Chain.uhat_ s) (Chain.xhat_ s).

Lemma as_chain_as_branch (s : solver) : as_chain (as_branch s) = s.
Proof. by case: s. Qed.

(** Single-chain solver: after a line search accepted the pass at
    [alpha] and the backward pass ran, the forward pass at step size 0
    gives the accepted states, controls and cost again. *)
Lemma chain_forward_pass_nominal (T k : nat) (mu : F) (s : solver)
    (x_init : 'cV[F]_xdim) (alpha : F)
    (xs : seq 'cV[F]_xdim) (us : seq 'cV[F]_udim) (c : F)
    (V : 'M[F]_xdim) (g : 'rV[F]_xdim) :
  well_sized T s -> (k <= T)%N ->
  Chain.forward_pass s x_init alpha = Done (xs, us, c) ->
  Chain.forward_pass (Chain.backward_pass k mu (Chain.set_nominal s us xs) V g)
    x_init 0 = Done (xs, us, c).
Proof.
move=> Hs Hk; rewrite -(as_chain_as_branch s) in Hs *.
rewrite (chain_forward_passE _ _ Hs) => -[Hroll].
set s2 := Chain.backward_pass _ _ _ _ _.
have [Hd Hc Hf Hx Hu] := chain_backward_pass_keeps k mu
                           (Chain.set_nominal (as_chain (as_branch s)) us xs) V g.
have [Hsx Hsu] := size_branch_rollout (as_branch s) T x_init alpha.
have Hs2 : well_sized T s2.
  apply: well_sized_backward_pass => //; apply: well_sized_set_nominal => //.
  - by rewrite -Hsu Hroll.
  - by rewrite -Hsx Hroll.
rewrite -(as_chain_as_branch s2) in Hs2 *.
rewrite (chain_forward_passE _ _ Hs2) -Hroll; congr Done.
by apply: branch_rollout_nominal; rewrite /= -/s2 ?Hd ?Hc ?Hf ?Hx ?Hu ?Hroll.
Qed.

Lemma expected_nominal (T : nat) (mu : F) (bs : seq branch) (x_init : 'cV[F]_xdim)
    (alpha : F) (K0 : 'M[F]_(udim, xdim)) (k0 : 'cV[F]_udim) :
  expected T [seq backed_up T mu K0 k0 b | b <- [seq committed T x_init alpha b | b <- bs]]
    x_init 0
  = expected T bs x_init alpha.
Proof.
rewrite /expected !size_map; apply: eq_big_nat => i /andP [_ Hi].
rewrite (nth_map null) ?size_map // (nth_map null) //.
set b := nth null bs i.
have [[Hd Hc Hf Hp] Hx Hu _ _] :
    gains_only (spec_boundary T mu (committed T x_init alpha b)).1.1
      (committed T x_init alpha b).
  exact: spec_boundary_keeps.
congr (_ * _); first by rewrite /backed_up /= Hp.
by rewrite (@branch_rollout_nominal b _ T x_init alpha) //= ?Hd ?Hc ?Hf ?Hx ?Hu.
Qed.

(** Hindsight solver: after a line search accepted a step size and the
    backward pass ran, the expected cost at step size 0 is the accepted
    cost again. *)
Lemma hindsight_expected_cost_nominal (fuel T : nat) (mu : F) (h h1 h2 : hsolver)
    (x_init : 'cV[F]_xdim) (convg start_alpha : F) (old_cost : xdouble F)
    (new_cost : F) (ratio : xdouble F) :
  hinv T.+1 h ->
  Hindsight.forward_step fuel x_init convg start_alpha h old_cost
    = Done (h1, new_cost, ratio) ->
  Hindsight.backward_step T.+1 mu h1 = Done h2 ->
  Hindsight.expected_cost (Hindsight.branches_ h2) x_init 0 = Done new_cost.
Proof.
move=> Hinv Hfwd Hbwd.
have Hinv1 := forward_step_hinv Hinv Hfwd.
have /and3P [_ Hsized2 _] := backward_step_hinv Hinv1 Hbwd.
rewrite (expected_costE _ _ Hsized2).
have /and3P [Hpos Hsized _] := Hinv.
move: Hfwd; rewrite (forward_stepE fuel x_init convg start_alpha old_cost Hsized Hpos).
case Els : (line_search _ _ _ _ _) => [[[[[] c] r] alpha']| |] //= -[Hh1 Hc _].
have [a0 [[Ha0] Halpha _ _]] := line_search_Done Els.
move: Hbwd; rewrite (@backward_step_checks _ _ _ num T.+1 mu h1).
case: ifP => // _ [<-]; rewrite -Hh1 /= Halpha beta_restore expected_nominal.
by rewrite -Hc Ha0.
Qed.

End NominalReplay.

(** *** A regulator that starts at its goal *)

Section RegulatorAtGoal.

Variable F : realFieldType.
Variables xdim udim : nat.
Variable A : 'M[F]_xdim.
Variable B : 'M[F]_(xdim, udim).
Variable Q : 'M[F]_xdim.
Variable R : 'M[F]_udim.
Variable P : 'M[F]_(xdim, udim).
Variable QT : 'M[F]_xdim.
Variable c0 : F.

Local Notation num := (lq_numerics A B Q R P QT).
Local Notation solver := (Chain.iLQRSolver F xdim udim).


Lemma lq_dynamics_origin : lq_dynamics A B 0 0 = 0.
Proof. by rewrite /lq_dynamics !mulmx0 addr0. Qed.


(** One time step, nominal trajectory at the origin, no feedforward: the
    state stays at the origin and every pass costs [c0], whatever the
    feedback gain and the step size. *)
Definition at_goal (K : 'M[F]_(udim, xdim)) : solver :=
  Chain.ILQRSolver (lq_dynamics A B) (lq_cost Q R P c0) (lq_final_cost QT)
    [:: K] [:: 0] [:: 0] [:: 0; 0].





End RegulatorAtGoal.

(* ===================================================================== *)
(** ** The Bellman backup on the LQR tree *)
(* ===================================================================== *)

Section TreeTheory.

Variable F : realFieldType.
Variables state_dim control_dim : nat.
Variable inverse : 'M[F]_control_dim -> 'M[F]_control_dim.
Variable map_order :
  seq (option nat * seq nat) -> seq (option nat * seq nat).

Local Notation Tree := (LQRTree.Tree F state_dim control_dim).
Local Notation TreeNode := (LQRTree.TreeNode F state_dim control_dim).
Local Notation PlanNode := (LQRTree.PlanNode F state_dim control_dim).
Local Notation node := (@LQRTree.node F state_dim control_dim).
Local Notation item := (@LQRTree.item F state_dim control_dim).
Local Notation parent := (@LQRTree.parent F state_dim control_dim).
Local Notation children := (@LQRTree.children F state_dim control_dim).
Local Notation depth := (@LQRTree.depth F state_dim control_dim).
Local Notation leaf_nodes := (@LQRTree.leaf_nodes F state_dim control_dim).
Local Notation backup_node := (LQRTree.backup_node inverse).

(** *** Well-formed trees *)

(** The root is node 0, at depth 0, without parent. *)
Definition wf_root (t : Tree) : bool :=
  [&& (0 < size t)%N, parent (node t 0) == None & depth (node t 0) == 0%N].

(** A node other than the root was added after its parent, one level
    deeper, and is in the children list of its parent. *)
Definition wf_child (t : Tree) (i : nat) : bool :=
  if parent (node t i) is Some p then
    [&& (p < i)%N, depth (node t i) == (depth (node t p)).+1
      & i \in children (node t p)]
  else false.

(** The children list of a node has no duplicate and holds nodes of the
    tree whose parent is that node. *)
Definition wf_children (t : Tree) (i : nat) : bool :=
  uniq (children (node t i))
  && all (fun c => (c < size t)%N && (parent (node t c) == Some i))
       (children (node t i)).

Definition well_formed (t : Tree) : bool :=
  [&& wf_root t, all (wf_child t) (iota 1 (size t).-1)
    & all (wf_children t) (iota 0 (size t))].

(** All leaves are at depth [D]. *)
Definition leaves_at_depth (D : nat) (t : Tree) : bool :=
  all (fun l => depth (node t l) == D) (leaf_nodes t).

(** What the backup leaves untouched in a node. *)
Definition fixed_part (nd : TreeNode) :=
  (parent nd, children nd, depth nd,
   (LQRTree.dynamics_A (item nd), LQRTree.dynamics_B (item nd),
    LQRTree.cost_Q (item nd), LQRTree.cost_R (item nd),
    LQRTree.probability_ (item nd))).

Definition same_shape (t t' : Tree) : Prop :=
  size t' = size t /\ forall j, fixed_part (node t' j) = fixed_part (node t j).

(** *** The backup equations, as the specification words them *)

(** [Vtilde = sum over the children of p_child * V_child]. *)
Definition spec_tree_Vtilde (t : Tree) (i : nat) : 'M[F]_state_dim :=
  \sum_(c <- children (node t i))
     LQRTree.probability_ (item (node t c)) *: LQRTree.V_ (item (node t c)).

(** [K = -(R + B^T Vtilde B)^-1 (B^T Vtilde A)]. *)
Definition spec_tree_K (pn : PlanNode) (Vtilde : 'M[F]_state_dim)
    : 'M[F]_(control_dim, state_dim) :=
  let A := LQRTree.dynamics_A pn in
  let B := LQRTree.dynamics_B pn in
  let R := LQRTree.cost_R pn in
  - (inverse (R + B^T *m Vtilde *m B) *m (B^T *m Vtilde *m A)).

(** [V = Q + K^T R K + (A + B K)^T Vtilde (A + B K)]. *)
Definition spec_tree_V (pn : PlanNode) (K : 'M[F]_(control_dim, state_dim))
    (Vtilde : 'M[F]_state_dim) : 'M[F]_state_dim :=
  let A := LQRTree.dynamics_A pn in
  let B := LQRTree.dynamics_B pn in
  let Q := LQRTree.cost_Q pn in
  let R := LQRTree.cost_R pn in
  Q + K^T *m R *m K + (A + B *m K)^T *m Vtilde *m (A + B *m K).

Definition node_backed_up (t : Tree) (i : nat) : Prop :=
  let pn := item (node t i) in
  LQRTree.K_ pn = spec_tree_K pn (spec_tree_Vtilde t i)
  /\ LQRTree.V_ pn = spec_tree_V pn (LQRTree.K_ pn) (spec_tree_Vtilde t i).

(** *** Structure of a well-formed tree *)

Section Structure.

Variable t : Tree.
Hypothesis Hwf : well_formed t.

Lemma wf_size : (0 < size t)%N.
Proof. by case/and3P: Hwf => /and3P []. Qed.

Lemma wf_root_parent : parent (node t 0) = None.
Proof. by case/and3P: Hwf => /and3P [_ /eqP]. Qed.

Lemma wf_root_depth : depth (node t 0) = 0%N.
Proof. by case/and3P: Hwf => /and3P [_ _ /eqP]. Qed.

Lemma wf_parent (i : nat) :
  (0 < i)%N -> (i < size t)%N ->
  exists p, [/\ parent (node t i) = Some p, (p < i)%N,
                depth (node t i) = (depth (node t p)).+1
              & i \in children (node t p)].
Proof.
move=> Hi0 Hi; case/and3P: Hwf => _ /allP Hc _.
have : wf_child t i.
  by apply: Hc; rewrite mem_iota Hi0 add1n prednK // wf_size.
rewrite /wf_child; case: (parent _) => // p /and3P [Hp /eqP Hd Hin].
by exists p.
Qed.

Lemma wf_child_of (i c : nat) :
  (i < size t)%N -> c \in children (node t i) ->
  [/\ (c < size t)%N, (i < c)%N, parent (node t c) = Some i
    & depth (node t c) = (depth (node t i)).+1].
Proof.
move=> Hi Hc; case/and3P: Hwf => _ _ /allP Hch.
have /andP [_ /allP Hall] : wf_children t i by apply: Hch; rewrite mem_iota.
have /andP [Hcs /eqP Hpar] := Hall c Hc.
have Hc0 : (0 < c)%N.
  by case: c Hpar {Hc Hcs} => // ; rewrite wf_root_parent.
have [p [Hp Hlt Hd _]] := wf_parent Hc0 Hcs.
by move: Hp; rewrite Hpar => -[Hpi]; rewrite -Hpi in Hlt Hd.
Qed.

Lemma wf_children_uniq (i : nat) : (i < size t)%N -> uniq (children (node t i)).
Proof.
move=> Hi; case/and3P: Hwf => _ _ /allP Hch.
by have /andP [] : wf_children t i by apply: Hch; rewrite mem_iota.
Qed.

Lemma wf_depth0 (i : nat) : (i < size t)%N -> depth (node t i) = 0%N -> i = 0%N.
Proof.
move=> Hi Hd; case: i Hi Hd => // i Hi Hd.
by have [p [_ _]] := wf_parent (ltn0Sn i) Hi; rewrite Hd.
Qed.

Lemma mem_leaf_nodes (l : nat) :
  (l \in leaf_nodes t) = (l < size t)%N && nilp (children (node t l)).
Proof. by rewrite /LQRTree.leaf_nodes mem_filter mem_iota /= add0n andbC. Qed.

(** Below every node there is a leaf, deeper than the node unless the
    node is that leaf. *)
Lemma wf_leaf_below (i : nat) :
  (i < size t)%N ->
  exists2 l, l \in leaf_nodes t
    & (depth (node t i) <= depth (node t l))%N
      /\ (~~ nilp (children (node t i)) -> (depth (node t i) < depth (node t l))%N).
Proof.
move: {2}(size t - i)%N (leqnn (size t - i)%N) => k.
elim: k i => [|k IH] i Hk Hi.
  by move: Hk; rewrite leqn0 subn_eq0 leqNgt Hi.
case Hch: (children (node t i)) => [|c cs].
  by exists i; rewrite ?mem_leaf_nodes ?Hi ?Hch.
have Hc : c \in children (node t i) by rewrite Hch mem_head.
have [Hcs Hic _ Hd] := wf_child_of Hi Hc.
have [|l Hl [Hle _]] := IH c _ Hcs.
  by rewrite -ltnS; apply: leq_trans Hk; rewrite ltn_sub2l.
exists l => //; rewrite -Hch; split; last by move=> _; apply: leq_trans Hle; rewrite Hd.
by apply: leq_trans Hle; rewrite Hd.
Qed.

Variable D : nat.
Hypothesis Hleaves : leaves_at_depth D t.

Lemma leaf_depth (l : nat) : l \in leaf_nodes t -> depth (node t l) = D.
Proof. by move=> Hl; apply/eqP; move/allP: Hleaves; apply. Qed.

Lemma depth_le (i : nat) : (i < size t)%N -> (depth (node t i) <= D)%N.
Proof. by move=> /wf_leaf_below [l /leaf_depth <- []]. Qed.

(** The leaves are the nodes at depth [D]. *)
Lemma leaf_iff_depth (i : nat) :
  (i < size t)%N -> nilp (children (node t i)) = (depth (node t i) == D).
Proof.
move=> Hi; case Hnil: (nilp _).
  by rewrite (@leaf_depth i) ?eqxx // mem_leaf_nodes Hi.
have [l /leaf_depth <- [_]] := wf_leaf_below Hi.
by rewrite Hnil => /(_ isT); rewrite ltn_neqAle => /andP [/negbTE ->].
Qed.

End Structure.

(** *** Writing one node *)

Lemma size_backup_node (t : Tree) (i : nat) (V : 'M[F]_state_dim) :
  (i < size t)%N -> size (backup_node t i V) = size t.
Proof.
by move=> Hi; rewrite /LQRTree.backup_node /LQRTree.set_item size_set_nth; apply/maxn_idPr.
Qed.

Lemma node_backup_node_other (t : Tree) (i j : nat) (V : 'M[F]_state_dim) :
  j != i -> node (backup_node t i V) j = node t j.
Proof.
move=> /negbTE Hji.
by rewrite /LQRTree.backup_node /LQRTree.set_item /LQRTree.node nth_set_nth /= Hji.
Qed.

Lemma fixed_backup_node (t : Tree) (i j : nat) (V : 'M[F]_state_dim) :
  fixed_part (node (backup_node t i V) j) = fixed_part (node t j).
Proof.
case Hji: (j == i); last by rewrite node_backup_node_other ?Hji.
rewrite (eqP Hji).
by rewrite /LQRTree.backup_node /LQRTree.set_item /LQRTree.node nth_set_nth /= eqxx.
Qed.

(** The gains written to the node are those of the specification. *)
Lemma gains_backup_node (t : Tree) (i : nat) (V : 'M[F]_state_dim) :
  let pn := item (node (backup_node t i V) i) in
  LQRTree.K_ pn = spec_tree_K (item (node t i)) V
  /\ LQRTree.V_ pn = spec_tree_V (item (node t i)) (LQRTree.K_ pn) V.
Proof.
rewrite /LQRTree.backup_node /LQRTree.set_item /LQRTree.node nth_set_nth /= eqxx /=.
by rewrite /spec_tree_K /spec_tree_V /LQRTree.compute_value_matrix /= scaleN1r.
Qed.

Lemma same_shape_refl (t : Tree) : same_shape t t.
Proof. by []. Qed.

Lemma same_shape_backup_node (t t1 : Tree) (i : nat) (V : 'M[F]_state_dim) :
  (i < size t)%N -> same_shape t t1 -> same_shape t (backup_node t1 i V).
Proof.
move=> Hi [Hsz Hfix]; split; first by rewrite size_backup_node ?Hsz.
by move=> j; rewrite fixed_backup_node.
Qed.

Lemma same_shape_fields (t t1 : Tree) (j : nat) :
  same_shape t t1 ->
  [/\ parent (node t1 j) = parent (node t j),
      children (node t1 j) = children (node t j)
    & depth (node t1 j) = depth (node t j)].
Proof. by case=> _ /(_ j) [-> -> ->]. Qed.

Lemma same_shape_item (t t1 : Tree) (j : nat) (V : 'M[F]_state_dim) :
  same_shape t t1 ->
  spec_tree_K (item (node t1 j)) V = spec_tree_K (item (node t j)) V
  /\ (forall K, spec_tree_V (item (node t1 j)) K V = spec_tree_V (item (node t j)) K V).
Proof.
by case=> _ /(_ j) [_ _ _ HA HB HQ HR _]; rewrite /spec_tree_K /spec_tree_V HA HB HQ HR.
Qed.

(** The aggregate depends on the children only. *)
Lemma spec_tree_Vtilde_ext (t1 t2 : Tree) (i : nat) :
  children (node t2 i) = children (node t1 i) ->
  (forall c, c \in children (node t1 i) -> node t2 c = node t1 c) ->
  spec_tree_Vtilde t2 i = spec_tree_Vtilde t1 i.
Proof.
move=> Hch Hsame; rewrite /spec_tree_Vtilde Hch.
by apply: eq_big_seq => c Hc; rewrite Hsame.
Qed.

Lemma weighted_valueE (t : Tree) (cs : seq nat) :
  LQRTree.weighted_value t cs
  = \sum_(c <- cs) LQRTree.probability_ (item (node t c)) *: LQRTree.V_ (item (node t c)).
Proof.
rewrite /LQRTree.weighted_value.
pose f c := LQRTree.probability_ (item (node t c)) *: LQRTree.V_ (item (node t c)).
have H z : foldl (fun Vt c => Vt + f c) z cs = z + \sum_(c <- cs) f c.
  elim: cs z => [|c cs IH] z /=; first by rewrite big_nil addr0.
  by rewrite IH big_cons addrA.
by rewrite -/f -[LHS]/(foldl (fun Vt c => Vt + f c) 0 cs) H add0r.
Qed.

(** *** The two loops *)

(** The gains of node [i] in [t2] are those the specification computes
    from the fixed data of the node and the next-stage matrix [V]. *)
Definition gains_from (t t2 : Tree) (i : nat) (V : 'M[F]_state_dim) : Prop :=
  LQRTree.K_ (item (node t2 i)) = spec_tree_K (item (node t i)) V
  /\ LQRTree.V_ (item (node t2 i))
     = spec_tree_V (item (node t i)) (LQRTree.K_ (item (node t2 i))) V.

Lemma gains_from_backup_node (t t1 : Tree) (i : nat) (V : 'M[F]_state_dim) :
  same_shape t t1 -> gains_from t (backup_node t1 i V) i V.
Proof.
move=> Hsh; have [HK HV] := gains_backup_node t1 i V.
have [HsK HsV] := same_shape_item i V Hsh.
by split; [rewrite HK HsK | rewrite HV HsV].
Qed.

Lemma leaves_loop_spec (t : Tree) (fd : int) (ls : seq nat) (t1 : Tree) :
  same_shape t t1 ->
  all (fun l => (l < size t)%N && (Posz (depth (node t l)) == fd)) ls ->
  exists t2,
    [/\ LQRTree.leaves_loop inverse fd ls t1 = Done t2, same_shape t t2,
        forall j, j \notin ls -> node t2 j = node t1 j
      & forall l, l \in ls -> gains_from t t2 l 0].
Proof.
elim: ls t1 => [|l ls IH] t1 Hsh /=; first by exists t1.
case/andP=> /andP [Hl Hd] Hall.
have [_ _ ->] := same_shape_fields l Hsh.
rewrite Hd /=.
have [t2 [Hrun Hsh2 Hother Hgains]] := IH _ (same_shape_backup_node 0 Hl Hsh) Hall.
exists t2; split=> // [j|l'].
  by rewrite inE negb_or => /andP [Hjl /Hother ->]; rewrite node_backup_node_other.
move=> Hl'; case Hin: (l' \in ls); first exact: Hgains.
have El : l' = l by move: Hl'; rewrite inE Hin orbF => /eqP.
rewrite El in Hin *.
have := gains_from_backup_node l 0 Hsh.
by rewrite /gains_from (Hother l) ?Hin.
Qed.

(** *** The parent map *)

(** The children hashed under a key. *)
Fixpoint bucket (pm : seq (option nat * seq nat)) (key : option nat) : seq nat :=
  match pm with
  | [::] => [::]
  | (k, cs) :: pm' => if k == key then cs else bucket pm' key
  end.

Lemma keys_map_push (pm : seq (option nat * seq nat)) (key : option nat) (c : nat) :
  map fst (LQRTree.map_push pm key c)
  = if key \in map fst pm then map fst pm else rcons (map fst pm) key.
Proof.
elim: pm => [|[k cs] pm IH] //=; rewrite inE [key == k]eq_sym.
by case: (k == key) => //=; rewrite IH; case: (key \in _).
Qed.

Lemma bucket_map_push (pm : seq (option nat * seq nat)) (key k' : option nat) (c : nat) :
  bucket (LQRTree.map_push pm key c) k'
  = if k' == key then rcons (bucket pm key) c else bucket pm k'.
Proof.
elim: pm => [|[k cs] pm IH] /=.
  by rewrite [key == k']eq_sym; case: (k' == key).
case: (k =P key) => [->|Hne] /=.
  by rewrite [key == k']eq_sym; case: (k' == key).
rewrite IH; case: (k' =P key) => [Ek'|] //.
by case: (k =P k') => // Ek; case: Hne; rewrite Ek.
Qed.

Lemma bucket_mem (pm : seq (option nat * seq nat)) (key : option nat) (cs : seq nat) :
  uniq (map fst pm) -> (key, cs) \in pm -> bucket pm key = cs.
Proof.
elim: pm => [|[k cs'] pm IH] //= /andP [Hk Hu].
rewrite inE => /orP [/eqP [-> ->] | Hin]; first by rewrite eqxx.
case: (k =P key) => [Ek|_]; last exact: IH.
by move: Hk; rewrite Ek; move/(map_f fst): Hin => /= ->.
Qed.

Lemma uniq_pmap_keys (pm : seq (option nat * seq nat)) :
  uniq (map fst pm) -> uniq (pmap fst pm).
Proof.
elim: pm => [|[[p|] cs] pm IH] //= /andP [Hk /IH Hu] //.
by rewrite Hu andbT mem_pmap.
Qed.

(** The first loop passes its checks when every child is at the depth of
    the first one, and fills the map child by child. *)
Lemma group_by_parentE (t : Tree) (fd : int) (cs : seq nat)
    (pm : seq (option nat * seq nat)) :
  all (fun c => Posz (depth (node t c)) == fd) cs ->
  LQRTree.group_by_parent t fd cs pm
  = Done (foldl (fun m c => LQRTree.map_push m (parent (node t c)) c) pm cs).
Proof.
by elim: cs pm => [|c cs IH] pm //= /andP [-> /IH ->].
Qed.

(** After the first loop the keys are the parents of the children, each
    once, and each bucket holds the children of its key in their order. *)
Lemma grouped_spec (key : nat -> option nat) (cs : seq nat) :
  let pm := foldl (fun m c => LQRTree.map_push m (key c) c) [::] cs in
  [/\ uniq (map fst pm), map fst pm =i map key cs
    & forall k, bucket pm k = filter (fun c => key c == k) cs].
Proof.
elim/last_ind: cs => [|cs c IH] //=.
rewrite foldl_rcons; move: IH; set pm := foldl _ _ _ => -[Hu Hmem Hb].
split.
- by rewrite keys_map_push; case Hin: (_ \in _) => //; rewrite rcons_uniq Hin.
- move=> k; rewrite keys_map_push map_rcons mem_rcons inE -Hmem.
  case Hin: (key c \in map fst pm); last by rewrite mem_rcons inE.
  by case: (k =P key c) => // ->.
- move=> k; rewrite bucket_map_push filter_rcons [key c == k]eq_sym.
  by case: (k =P key c) => [->|_]; rewrite Hb.
Qed.

Lemma gains_from_backed_up (t t2 : Tree) (i : nat) (V : 'M[F]_state_dim) :
  same_shape t t2 -> spec_tree_Vtilde t2 i = V ->
  gains_from t t2 i V -> node_backed_up t2 i.
Proof.
move=> Hsh <- [HK HV].
have [HsK HsV] := same_shape_item i (spec_tree_Vtilde t2 i) Hsh.
by split; rewrite /= ?HsK ?HsV.
Qed.

(** *** One round of [backup_to_parents] *)

Section Rounds.

Variable t : Tree.
Hypothesis Hwf : well_formed t.
Variable D : nat.
Hypothesis Hleaves : leaves_at_depth D t.
Hypothesis map_order_perm : forall pm, perm_eq (map_order pm) pm.

(** The second loop, over pairs whose keys are distinct nodes at depth
    [d], each with a rearrangement of its children. *)
Lemma parents_loop_spec (d : nat) (pairs : seq (option nat * seq nat))
    (t1 : Tree) (acc : seq nat) :
  same_shape t t1 -> uniq (map fst pairs) ->
  (forall k cs, (k, cs) \in pairs ->
     exists p, [/\ k = Some p, (p < size t)%N, depth (node t p) = d
                 & perm_eq cs (children (node t p))]) ->
  exists t2,
    [/\ LQRTree.parents_loop inverse pairs t1 acc = Done (t2, acc ++ pmap fst pairs),
        same_shape t t2,
        forall j, Some j \notin map fst pairs -> node t2 j = node t1 j
      & forall p, Some p \in map fst pairs ->
          gains_from t t2 p (spec_tree_Vtilde t1 p)].
Proof.
elim: pairs t1 acc => [|[k cs] pairs IH] t1 acc Hsh /=.
  by move=> _ _; exists t1; rewrite cats0.
case/andP=> Hk Hu Hok.
have [p [Ek Hp Hd Hperm]] := Hok k cs (mem_head _ _).
have Hok' k' cs' : (k', cs') \in pairs -> _ :=
  fun H => Hok k' cs' (mem_behead (s := (k, cs) :: pairs) H).
rewrite Ek in Hk *.
have HV : LQRTree.weighted_value t1 cs = spec_tree_Vtilde t1 p.
  rewrite weighted_valueE /spec_tree_Vtilde.
  have [_ -> _] := same_shape_fields p Hsh.
  exact: perm_big.
rewrite HV.
have Hsh' := same_shape_backup_node (spec_tree_Vtilde t1 p) Hp Hsh.
have [t2 [Hrun Hsh2 Hother Hgains]] := IH _ (rcons acc p) Hsh' Hu Hok'.
exists t2; split=> //.
- by rewrite Hrun cat_rcons.
- move=> j; rewrite inE negb_or => /andP [Hjp /Hother ->].
  by rewrite node_backup_node_other //; apply: contra Hjp => /eqP ->.
- move=> q; rewrite inE => Hq.
  case Hin: (Some q \in map fst pairs).
    have -> : spec_tree_Vtilde t1 q
              = spec_tree_Vtilde (backup_node t1 p (spec_tree_Vtilde t1 p)) q.
      symmetry; apply: spec_tree_Vtilde_ext.
        by have [_ -> _] := same_shape_fields q Hsh'; have [_ -> _] := same_shape_fields q Hsh.
      move=> c; have [_ -> _] := same_shape_fields q Hsh => Hc.
      have /mapP [[kq csq] Hpair /= Ekq] := Hin.
      have [q' [Eq' Hq' Hdq _]] := Hok' _ _ Hpair.
      move: Eq'; rewrite -Ekq => -[Eq']; rewrite -Eq' in Hq' Hdq.
      have [_ _ _ Hdc] := wf_child_of Hwf Hq' Hc.
      apply: node_backup_node_other; apply/eqP => Ecp.
      by move: Hdc; rewrite Ecp Hd Hdq => /eqP; rewrite -[X in X == _]addn0 -addn1 eqn_add2l.
    exact: Hgains.
  move: Hq; rewrite Hin orbF => /eqP [->].
  rewrite /gains_from (Hother p) //.
  exact: gains_from_backup_node.
Qed.

(** Between rounds: [cur] lists the nodes at depth [d], each once, and
    every node at depth [d] or below it satisfies the backup equations;
    nothing else of the tree changed. *)
Definition round_inv (d : nat) (cur : seq nat) (t1 : Tree) : Prop :=
  [/\ same_shape t t1, uniq cur,
      forall i, (i \in cur) = (i < size t)%N && (depth (node t i) == d)
    & forall i, (i < size t)%N -> (d <= depth (node t i))%N -> node_backed_up t1 i].

Lemma first_depth_level (d : nat) (cur : seq nat) (t1 : Tree) :
  same_shape t t1 ->
  (forall i, i \in cur -> depth (node t i) = d) ->
  all (fun c => Posz (depth (node t1 c)) == LQRTree.first_depth t1 cur) cur.
Proof.
move=> Hsh Hd; apply/allP => c Hc.
have [_ _ ->] := same_shape_fields c Hsh; rewrite (Hd c Hc).
case: cur Hd Hc => [|c0 cur] Hd Hc //=.
by have [_ _ ->] := same_shape_fields c0 Hsh; rewrite (Hd c0) ?mem_head.
Qed.

Lemma backup_to_parents_spec (d : nat) (cur : seq nat) (t1 : Tree) :
  (d < D)%N -> round_inv d.+1 cur t1 ->
  exists t2 parents,
    LQRTree.backup_to_parents inverse map_order t1 cur = Done (t2, parents)
    /\ round_inv d parents t2.
Proof.
move=> HdD [Hsh Hucur Hcur Hdone].
have Hcur_in c : c \in cur -> (c < size t)%N /\ depth (node t c) = d.+1.
  by rewrite Hcur => /andP [-> /eqP].
have Hfd : all (fun c => Posz (depth (node t1 c)) == LQRTree.first_depth t1 cur) cur.
  by apply: (@first_depth_level d.+1) => // c /Hcur_in [].
rewrite /LQRTree.backup_to_parents (group_by_parentE _ Hfd) bind_unit.
pose key c := parent (node t1 c).
have [Hupm Hkeys Hbucket] := grouped_spec key cur.
set pm := foldl _ _ _ in Hupm Hkeys Hbucket *.
have Hperm := map_order_perm pm.
have Hupairs : uniq (map fst (map_order pm)).
  by rewrite (perm_uniq (perm_map fst Hperm)).
have Hkey c : c \in cur ->
    exists p, [/\ key c = Some p, (p < size t)%N, depth (node t p) = d
                & c \in children (node t p)].
  move=> /Hcur_in [Hc Hdc].
  have Hc0 : (0 < c)%N.
    by case: c Hdc {Hc} => //; rewrite (wf_root_depth Hwf).
  have [p [Hp Hpc Hdp Hin]] := wf_parent Hwf Hc0 Hc.
  exists p; rewrite /key; have [-> _ _] := same_shape_fields c Hsh.
  split=> //; first exact: ltn_trans Hpc Hc.
  by move: Hdp; rewrite Hdc => -[].
have Hkeys_in j : Some j \in map fst (map_order pm) ->
    (j < size t)%N /\ depth (node t j) = d.
  rewrite (perm_mem (perm_map fst Hperm)) Hkeys => /mapP [c Hc Ej].
  by have [p [Ep Hp Hdp _]] := Hkey c Hc; move: Ej; rewrite Ep => -[->].
have Hpairs k cs : (k, cs) \in map_order pm ->
    exists p, [/\ k = Some p, (p < size t)%N, depth (node t p) = d
                & perm_eq cs (children (node t p))].
  move=> Hin; have Hin' : (k, cs) \in pm by rewrite -(perm_mem Hperm).
  have Hk : k \in map fst pm by apply/mapP; exists (k, cs).
  move: (Hk); rewrite Hkeys => /mapP [c Hc Ek].
  have [p [Ep Hp Hdp _]] := Hkey c Hc.
  exists p; split=> //; first by rewrite Ek.
  have -> : cs = filter (fun c' => key c' == k) cur.
    by rewrite -Hbucket (bucket_mem Hupm Hin').
  apply: uniq_perm; [exact: filter_uniq | exact: wf_children_uniq | move=> c'].
  rewrite mem_filter Ek Ep; apply/andP/idP => [[/eqP Hkc' Hc'] | Hc'].
    have [p' [Ep' _ _ Hin'']] := Hkey c' Hc'.
    by move: Ep'; rewrite Hkc' => -[->].
  have [Hc's _ Hpar Hdc'] := wf_child_of Hwf Hp Hc'.
  rewrite /key; have [-> _ _] := same_shape_fields c' Hsh.
  by rewrite Hpar eqxx Hcur Hc's Hdc' Hdp eqxx.
have [t2 [Hrun Hsh2 Hother Hgains]] := parents_loop_spec [::] Hsh Hupairs Hpairs.
exists t2, (pmap fst (map_order pm)); split; first by rewrite Hrun.
have Hkeep j : depth (node t j) != d -> node t2 j = node t1 j.
  move=> Hj; apply: Hother; apply/negP => /Hkeys_in [_ Ej].
  by rewrite Ej eqxx in Hj.
split=> //; first exact: uniq_pmap_keys.
- move=> j; rewrite mem_pmap; apply/idP/andP => [/Hkeys_in [-> ->] // | [Hj /eqP Hdj]].
  rewrite (perm_mem (perm_map fst Hperm)) Hkeys.
  have : ~~ nilp (children (node t j)).
    by rewrite (leaf_iff_depth Hwf Hleaves Hj) Hdj neq_ltn HdD.
  case Hch: (children (node t j)) => [|c cs] // _.
  have Hc : c \in children (node t j) by rewrite Hch mem_head.
  have [Hcs _ Hpar Hdc] := wf_child_of Hwf Hj Hc.
  apply/mapP; exists c; first by rewrite Hcur Hcs Hdc Hdj eqxx.
  by rewrite /key; have [-> _ _] := same_shape_fields c Hsh.
- move=> i Hi; rewrite leq_eqVlt => /orP [/eqP Hdi | Hdi].
    have Hin : Some i \in map fst (map_order pm).
      rewrite (perm_mem (perm_map fst Hperm)) Hkeys.
      have : ~~ nilp (children (node t i)).
        by rewrite (leaf_iff_depth Hwf Hleaves Hi) -Hdi neq_ltn HdD.
      case Hch: (children (node t i)) => [|c cs] // _.
      have Hc : c \in children (node t i) by rewrite Hch mem_head.
      have [Hcs _ Hpar Hdc] := wf_child_of Hwf Hi Hc.
      apply/mapP; exists c; first by rewrite Hcur Hcs Hdc -Hdi eqxx.
      by rewrite /key; have [-> _ _] := same_shape_fields c Hsh.
    apply: gains_from_backed_up (Hgains i Hin) => //.
    apply: spec_tree_Vtilde_ext.
      by have [_ -> _] := same_shape_fields i Hsh2; have [_ -> _] := same_shape_fields i Hsh.
    move=> c; have [_ -> _] := same_shape_fields i Hsh => Hc.
    have [_ _ _ Hdc] := wf_child_of Hwf Hi Hc.
    by apply: Hkeep; rewrite Hdc -Hdi neq_ltn ltnSn orbT.
  have [HK HV] := Hdone i Hi Hdi.
  have Hi2 : node t2 i = node t1 i by apply: Hkeep; rewrite neq_ltn Hdi orbT.
  have HVt : spec_tree_Vtilde t2 i = spec_tree_Vtilde t1 i.
    apply: spec_tree_Vtilde_ext; first by rewrite Hi2.
    move=> c; have [_ -> _] := same_shape_fields i Hsh => Hc.
    have [_ _ _ Hdc] := wf_child_of Hwf Hi Hc.
    by apply: Hkeep; rewrite Hdc neq_ltn (ltn_trans Hdi) ?orbT.
  by split; rewrite /= HVt Hi2.
Qed.

(** The node list at depth 0 is the root alone. *)
Lemma level0_root (cur : seq nat) :
  uniq cur ->
  (forall i, (i \in cur) = (i < size t)%N && (depth (node t i) == 0%N)) ->
  cur = [:: 0%N].
Proof.
move=> Hu Hcur.
have Hmem : cur =i [:: 0%N].
  move=> i; rewrite Hcur inE; apply/andP/eqP => [[Hi /eqP Hd] | ->].
    exact: (wf_depth0 Hwf Hi Hd).
  by rewrite (wf_size Hwf) (wf_root_depth Hwf).
have /perm_size := uniq_perm Hu (isT : uniq [:: 0%N]) Hmem.
case: cur Hmem {Hu Hcur} => [|c [|c' cur]] // Hmem _.
by have := Hmem c; rewrite mem_head inE => /esym /eqP ->.
Qed.

Lemma backup_roundsS (fuel : nat) (t1 : Tree) (cur : seq nat) :
  LQRTree.backup_rounds inverse map_order fuel.+1 t1 cur =
    if (size cur == 1%N) && (depth (node t1 (head 0%N cur)) == 0%N) then Done t1
    else ' (t', parents) <- LQRTree.backup_to_parents inverse map_order t1 cur ;;
         LQRTree.backup_rounds inverse map_order fuel t' parents.
Proof. by []. Qed.

(** From the nodes at depth [d], [d] rounds reach the root. *)
Lemma backup_rounds_spec (d fuel : nat) (cur : seq nat) (t1 : Tree) :
  (d <= D)%N -> (d <= fuel)%N -> round_inv d cur t1 ->
  exists t2,
    [/\ LQRTree.backup_rounds inverse map_order fuel t1 cur = Done t2,
        same_shape t t2
      & forall i, (i < size t)%N -> node_backed_up t2 i].
Proof.
elim: d fuel cur t1 => [|d IH] fuel cur t1 HdD Hfuel Hinv.
  have [Hsh Hu Hcur Hdone] := Hinv.
  have Ecur := level0_root Hu Hcur.
  exists t1; split=> // [|i Hi]; last exact: Hdone.
  have Hstop : (size cur == 1%N) && (depth (node t1 (head 0%N cur)) == 0%N).
    rewrite Ecur /=; have [_ _ ->] := same_shape_fields 0 Hsh.
    by rewrite (wf_root_depth Hwf).
  by case: fuel {Hfuel} => [|fuel] /=; rewrite Hstop.
case: fuel Hfuel => [|fuel] // Hfuel.
have [Hsh Hu Hcur Hdone] := Hinv.
have Hgo : (size cur == 1%N) && (depth (node t1 (head 0%N cur)) == 0%N) = false.
  case: cur Hcur {Hu Hinv} => [|c cur] Hcur //=.
  have [_ _ ->] := same_shape_fields c Hsh.
  have := Hcur c; rewrite mem_head => /esym /andP [_ /eqP ->].
  by rewrite andbF.
have [t2 [parents [Hrun Hinv2]]] := backup_to_parents_spec HdD Hinv.
rewrite backup_roundsS Hgo Hrun bind_unit.
exact: IH (ltnW HdD) Hfuel Hinv2.
Qed.

(** The loop over the leaves. *)
Lemma control_and_value_for_leaves_spec :
  exists t1,
    LQRTree.control_and_value_for_leaves inverse t = Done t1
    /\ round_inv D (leaf_nodes t) t1.
Proof.
have Hall : all (fun l => (l < size t)%N
                          && (Posz (depth (node t l))
                              == LQRTree.first_depth t (leaf_nodes t)))
              (leaf_nodes t).
  apply/allP => l Hl; move: (Hl); rewrite mem_leaf_nodes => /andP [-> _] /=.
  rewrite (leaf_depth Hleaves Hl).
  case Els: (leaf_nodes t) Hl => [|l0 ls] //= _.
  by rewrite (@leaf_depth t D Hleaves l0) // Els mem_head.
have [t1 [Hrun Hsh Hother Hgains]] := leaves_loop_spec (same_shape_refl t) Hall.
exists t1; split=> //; split=> //.
- by rewrite /LQRTree.leaf_nodes filter_uniq // iota_uniq.
- move=> i; rewrite mem_leaf_nodes; case Hi: (i < size t)%N => //=.
  exact: leaf_iff_depth.
- move=> i Hi HDi.
  have Hd : depth (node t i) == D by rewrite eqn_leq HDi (depth_le Hwf Hleaves Hi).
  have Hleaf : i \in leaf_nodes t.
    by rewrite mem_leaf_nodes Hi (leaf_iff_depth Hwf Hleaves Hi).
  apply: gains_from_backed_up (Hgains i Hleaf) => //.
  rewrite /spec_tree_Vtilde; have [_ -> _] := same_shape_fields i Hsh.
  move: Hleaf; rewrite mem_leaf_nodes => /andP [_].
  by case: (children (node t i)) => // _; rewrite big_nil.
Qed.

Lemma leaf_nodes_same_shape (t1 : Tree) :
  same_shape t t1 -> leaf_nodes t1 = leaf_nodes t.
Proof.
move=> Hsh; have [Hsz _] := Hsh; rewrite /LQRTree.leaf_nodes Hsz.
by apply: eq_filter => i; have [_ -> _] := same_shape_fields i Hsh.
Qed.

End Rounds.

Lemma spec_tree_leaf (pn : PlanNode) :
  spec_tree_K pn 0 = 0 /\ spec_tree_V pn 0 0 = LQRTree.cost_Q pn.
Proof.
rewrite /spec_tree_K /spec_tree_V /=; split.
  by rewrite mulmx0 !mul0mx mulmx0 oppr0.
by rewrite trmx0 !mul0mx !mulmx0 mul0mx !addr0.
Qed.

(** *** What the backup does not write *)

(** The linearization point of a node. *)
Definition point_of (nd : TreeNode) :=
  (LQRTree.x_ (item nd), LQRTree.u_ (item nd)).

(** All of a node but its gain and its value matrix. *)
Definition kept_part (nd : TreeNode) := (fixed_part nd, point_of nd).

Definition only_gains_changed (t t' : Tree) : Prop :=
  size t' = size t /\ forall j, kept_part (node t' j) = kept_part (node t j).

Lemma point_backup_node (t : Tree) (i j : nat) (V : 'M[F]_state_dim) :
  point_of (node (backup_node t i V) j) = point_of (node t j).
Proof.
rewrite /LQRTree.backup_node /LQRTree.node /LQRTree.set_item nth_set_nth /=.
by case: (j =P i) => [->|].
Qed.

Lemma point_leaves_loop (fd : int) (ls : seq nat) (t t' : Tree) :
  LQRTree.leaves_loop inverse fd ls t = Done t' ->
  forall j, point_of (node t' j) = point_of (node t j).
Proof.
elim: ls t => [|l ls IH] t /=; first by case=> ->.
case: (_ == fd) => //= /IH Hrest j.
by rewrite Hrest point_backup_node.
Qed.

Lemma point_parents_loop (pairs : seq (option nat * seq nat)) (t t' : Tree)
    (acc acc' : seq nat) :
  LQRTree.parents_loop inverse pairs t acc = Done (t', acc') ->
  forall j, point_of (node t' j) = point_of (node t j).
Proof.
elim: pairs t acc => [|[[p|] cs] pairs IH] t acc //=; first by case=> ->.
by move=> /IH Hrest j; rewrite Hrest point_backup_node.
Qed.

Lemma point_backup_rounds (fuel : nat) (t t' : Tree) (cur : seq nat) :
  LQRTree.backup_rounds inverse map_order fuel t cur = Done t' ->
  forall j, point_of (node t' j) = point_of (node t j).
Proof.
elim: fuel t cur => [|fuel IH] t cur /=; case: ifP => _; try by case=> ->.
  by [].
rewrite /LQRTree.backup_to_parents.
case: (LQRTree.group_by_parent _ _ _ _) => [pm| |] //=.
case E: (LQRTree.parents_loop _ _ _ _) => [[t1 ps]| |] //= /IH Hrest j.
by rewrite Hrest (point_parents_loop E).
Qed.

Lemma point_bellman_tree_backup (fuel : nat) (t t' : Tree) :
  LQRTree.bellman_tree_backup inverse map_order fuel t = Done t' ->
  forall j, point_of (node t' j) = point_of (node t j).
Proof.
rewrite /LQRTree.bellman_tree_backup /LQRTree.control_and_value_for_leaves.
case E: (LQRTree.leaves_loop _ _ _ _) => [t1| |] //= /point_backup_rounds Hrest j.
by rewrite Hrest (point_leaves_loop E).
Qed.

Lemma same_shape_points (t t' : Tree) :
  same_shape t t' -> (forall j, point_of (node t' j) = point_of (node t j)) ->
  only_gains_changed t t'.
Proof. by move=> [Hsz Hfix] Hpt; split=> // j; rewrite /kept_part Hfix Hpt. Qed.

(** X1: on a well-formed tree whose leaves are all at depth [D],
    [bellman_tree_backup] returns after at most [D] rounds of
    [backup_to_parents], whatever the order in which the parent map is
    visited.  It changes nothing but the gains and value matrices: the
    shape of the tree, [(A, B, Q, R, p)] and the linearization point
    [(x, u)] of every node stay.  Every leaf ends with [K = 0] and
    [V = Q]; every node ends with
    [K = -(R + B^T Vtilde B)^-1 (B^T Vtilde A)] and
    [V = Q + K^T R K + (A + B K)^T Vtilde (A + B K)] for
    [Vtilde = sum over its children of p_child * V_child]. *)
Theorem bellman_tree_backup_spec (t : Tree) (D fuel : nat) :
  well_formed t -> leaves_at_depth D t ->
  (forall pm, perm_eq (map_order pm) pm) -> (D <= fuel)%N ->
  exists t' : Tree,
    [/\ LQRTree.bellman_tree_backup inverse map_order fuel t = Done t',
        only_gains_changed t t',
        forall i, (i < size t)%N -> nilp (children (node t i)) ->
          LQRTree.K_ (item (node t' i)) = 0
          /\ LQRTree.V_ (item (node t' i)) = LQRTree.cost_Q (item (node t i))
      & forall i, (i < size t)%N -> node_backed_up t' i].
Proof.
move=> Hwf Hleaves Hperm Hfuel.
have [t1 [Hrun1 Hinv1]] := control_and_value_for_leaves_spec Hwf Hleaves.
have [Hsh1 _ _ _] := Hinv1.
have [t2 [Hrun2 Hsh2 Hdone]] :=
  backup_rounds_spec Hwf Hleaves Hperm (leqnn D) Hfuel Hinv1.
have Hrun : LQRTree.bellman_tree_backup inverse map_order fuel t = Done t2.
  by rewrite /LQRTree.bellman_tree_backup Hrun1 bind_unit (leaf_nodes_same_shape Hsh1).
exists t2; split=> //.
  exact: same_shape_points Hsh2 (point_bellman_tree_backup Hrun).
move=> i Hi Hleaf; have [HK HV] := Hdone i Hi.
have HVt : spec_tree_Vtilde t2 i = 0.
  rewrite /spec_tree_Vtilde; have [_ -> _] := same_shape_fields i Hsh2.
  by case: (children (node t i)) Hleaf => // _; rewrite big_nil.
have [HK0 HV0] := spec_tree_leaf (item (node t2 i)).
move: HK HV; rewrite HVt HK0 => HK; rewrite HK HV0 => ->; split=> //.
by have [_ /(_ i) [_ _ _ _ _ -> _ _]] := Hsh2.
Qed.

End TreeTheory.

(* ===================================================================== *)
(** ** The depth check on the leaves *)
(* ===================================================================== *)

Section TreeDepthCheck.

Variable F : realFieldType.
Variables state_dim control_dim : nat.
Variable inverse : 'M[F]_control_dim -> 'M[F]_control_dim.
Variable map_order :
  seq (option nat * seq nat) -> seq (option nat * seq nat).

Local Notation Tree := (LQRTree.Tree F state_dim control_dim).
Local Notation node := (@LQRTree.node F state_dim control_dim).
Local Notation depth := (@LQRTree.depth F state_dim control_dim).
Local Notation leaf_nodes := (@LQRTree.leaf_nodes F state_dim control_dim).

(** The loop over the leaves stops at the first leaf whose depth is not
    [FIRST_DEPTH]. *)
Lemma leaves_loop_Throw (t : Tree) (fd : int) (ls : seq nat) (t1 : Tree) :
  (forall j, depth (node t1 j) = depth (node t j)) ->
  ~~ all (fun l => Posz (depth (node t l)) == fd) ls ->
  LQRTree.leaves_loop inverse fd ls t1 = Throw.
Proof.
elim: ls t1 => [|l ls IH] t1 Hd //=; rewrite negb_and Hd.
case: (Posz (depth (node t l)) == fd) => //= Hall.
apply: IH => // j.
by have [_ _ ->] : fixed_part (node (LQRTree.backup_node inverse t1 l 0) j)
                   = fixed_part (node t1 j) by exact: fixed_backup_node.
Qed.

(** The depth of the first leaf, as a depth. *)
Definition first_leaf_depth (t : Tree) : nat :=
  depth (node t (head 0%N (leaf_nodes t))).

Lemma first_depth_leaves (t : Tree) (l : nat) :
  l \in leaf_nodes t ->
  (Posz (depth (node t l)) == LQRTree.first_depth t (leaf_nodes t))
  = (depth (node t l) == first_leaf_depth t).
Proof. by rewrite /first_leaf_depth; case: (leaf_nodes t). Qed.

(** X2: [control_and_value_for_leaves] compares the depth of every leaf
    with the depth of the first one.  When they all agree it returns and
    has changed gains and value matrices only (the shape of the tree,
    [(A, B, Q, R, p)] and the linearization point of every node stay);
    when one differs it throws, and so does [bellman_tree_backup]. *)
Theorem leaves_depth_check (t : Tree) (fuel : nat) :
  if leaves_at_depth (first_leaf_depth t) t
  then exists2 t1, LQRTree.control_and_value_for_leaves inverse t = Done t1
                   & only_gains_changed t t1
  else LQRTree.control_and_value_for_leaves inverse t = Throw
       /\ LQRTree.bellman_tree_backup inverse map_order fuel t = Throw.
Proof.
have Hcheck : all (fun l => Posz (depth (node t l))
                            == LQRTree.first_depth t (leaf_nodes t)) (leaf_nodes t)
              = leaves_at_depth (first_leaf_depth t) t.
  by apply: eq_in_all => l; apply: first_depth_leaves.
case Hall: (leaves_at_depth _ _).
  have Hall' : all (fun l => (l < size t)%N
                             && (Posz (depth (node t l))
                                 == LQRTree.first_depth t (leaf_nodes t)))
                 (leaf_nodes t).
    rewrite all_predI Hcheck Hall andbT.
    by apply/allP => l; rewrite /LQRTree.leaf_nodes mem_filter mem_iota => /andP [_].
  have [t1 [Hrun Hsh _ _]] := leaves_loop_spec inverse (same_shape_refl t) Hall'.
  exists t1 => //; apply: same_shape_points Hsh _.
  exact: (point_leaves_loop Hrun).
have Hthrow : LQRTree.control_and_value_for_leaves inverse t = Throw.
  by apply: leaves_loop_Throw => //; rewrite Hcheck Hall.
by rewrite /LQRTree.bellman_tree_backup Hthrow.
Qed.

End TreeDepthCheck.

(* ===================================================================== *)
(** ** More on the single-chain solver *)
(* ===================================================================== *)

Section ChainMore.

Variable F : realFieldType.
Variables xdim udim : nat.
Context {num : Numerics F xdim udim}.

Local Notation solver := (Chain.iLQRSolver F xdim udim).

(** X3: a cold-start [solve] throws exactly when one of its five argument
    checks fails: [T > 0], [mu >= 0], [max_iters > 0],
    [cost_convg_ratio > 0], [start_alpha > 0].  Nothing later in the call
    can throw. *)
Theorem chain_cold_solve_throws_iff (fuel : nat) (T : int) (x_init : 'cV[F]_xdim)
    (u_nominal : 'cV[F]_udim) (mu : F) (max_iters : int)
    (convg start_alpha : F) (t_offset : int) (s : solver) :
  Chain.solve fuel T x_init u_nominal mu max_iters convg start_alpha
    false t_offset s = Throw
  <-> ~~ [&& 0 < T, 0 <= mu, 0 < max_iters, 0 < convg & 0 < start_alpha].
Proof.
split=> [E | Hbad].
  by apply/negP => /and5P [HT Hmu Hit Hc Ha]; apply: chain_solve_no_Throw E.
apply: chain_solve_rejects.
by move: Hbad; rewrite !negb_and -!leNgt -ltNge => /or4P [-> | -> | -> | ->];
   rewrite ?orbT.
Qed.

Lemma subn_eq_add (n d T : nat) : (0 < T)%N -> (n - d == T)%N = (n == T + d)%N.
Proof.
move=> HT; case: (leqP d n) => [Hdn | Hnd].
  by rewrite -(eqn_add2r d) subnK.
have -> : (n - d = 0)%N by apply/eqP; rewrite subn_eq0 ltnW.
rewrite eq_sym (gtn_eqF HT); symmetry; apply/negbTE.
by rewrite neq_ltn (leq_trans Hnd) // leq_addl.
Qed.

(** The stored results after [t_offset] entries are erased from the front
    of each vector. *)
Definition chain_shifted (t_offset : int) (s : solver) : solver :=
  let d := int_to_nat t_offset in
  Chain.set_nominal
    (Chain.set_gains s (drop d (Chain.Ks_ s)) (drop d (Chain.ks_ s)))
    (drop d (Chain.uhat_ s)) (drop d (Chain.xhat_ s)).

Lemma chain_warm_start_shiftE (s : solver) (T : nat) (t_offset : int) :
  (0 < T)%N -> 0 <= t_offset ->
  Chain.warm_start_shift s T t_offset
  = if well_sized (T + int_to_nat t_offset) s then Done (chain_shifted t_offset s)
    else Throw.
Proof.
case: t_offset => // d HT _.
rewrite /Chain.warm_start_shift /well_sized /= !size_drop !subn_eq_add //.
rewrite -/(chain_shifted d s) ltz_nat.
case HK: (size (Chain.Ks_ s) == (T + d)%N) => /=; last first.
  by case: (d < _)%N => //=; rewrite HK.
rewrite (eqP HK) -[X in (X < _)%N]add0n ltn_add2r HT /= addSn.
case: (size (Chain.ks_ s) == _) => //=; case: (size (Chain.uhat_ s) == _) => //=.
by case: (size (Chain.xhat_ s) == _).
Qed.

(** X4: a warm-started [solve] with [t_offset >= 0] whose arguments pass
    the five checks needs stored results of horizon exactly
    [T + t_offset] ([T + t_offset] gains and controls,
    [T + t_offset + 1] states): otherwise it throws; if so it erases the
    first [t_offset] entries of each vector and iterates from what is
    left, [u_nominal] being ignored. *)
Theorem chain_warm_solve (fuel : nat) (T : int) (x_init : 'cV[F]_xdim)
    (u_nominal : 'cV[F]_udim) (mu : F) (max_iters : int)
    (convg start_alpha : F) (t_offset : int) (s : solver) :
  0 < T -> 0 <= mu -> 0 < max_iters -> 0 < convg -> 0 < start_alpha ->
  0 <= t_offset ->
  Chain.solve fuel T x_init u_nominal mu max_iters convg start_alpha
    true t_offset s
  = if well_sized (int_to_nat T + int_to_nat t_offset) s
    then Chain.iterations fuel (int_to_nat max_iters) (int_to_nat T) x_init mu
           convg start_alpha (chain_shifted t_offset s) PosInf
    else Throw.
Proof.
move=> HT Hmu Hit Hc Ha Hoff; rewrite /Chain.solve !IS_TRUE_true //=.
have HT' : (0 < int_to_nat T)%N by case: T HT => [[|n]|n].
rewrite (chain_warm_start_shiftE _ HT' Hoff).
by case: (well_sized _ _).
Qed.

(** *** The nominal trajectory *)

(** The stored states start at [x_init] and follow the dynamics under the
    stored controls. *)
Definition follows_dynamics (dyn : DynamicsFunc F xdim udim)
    (x_init : 'cV[F]_xdim) (xs : seq 'cV[F]_xdim) (us : seq 'cV[F]_udim) : Prop :=
  nth 0 xs 0 = x_init
  /\ forall t, (t < size us)%N -> nth 0 xs t.+1 = dyn (nth 0 xs t) (nth 0 us t).

Lemma rollout_follows (dyn : DynamicsFunc F xdim udim) (cost : CostFunc F xdim udim)
    (control : 'cV[F]_xdim -> nat -> 'cV[F]_udim) (n t : nat)
    (xt : 'cV[F]_xdim) (c : F) (i : nat) :
  (i < n)%N ->
  nth 0 (xt :: (rollout dyn cost control n t xt c).1.1) i.+1
  = dyn (nth 0 (xt :: (rollout dyn cost control n t xt c).1.1) i)
        (nth 0 (rollout dyn cost control n t xt c).1.2 i).
Proof.
elim: n t xt c i => [|n IH] t xt c i //= Hi.
have := IH t.+1 (dyn xt (control xt t)) (c + cost xt (control xt t) t).
case: (rollout _ _ _ _ _ _ _) => [[xs us] J] /= {}IH.
by case: i Hi => [|i] //= Hi; apply: IH.
Qed.




(** With step size 0 and no deviation from the nominal states the control
    law returns the nominal control. *)
Lemma control_stepsize_nominal (Ks : seq 'M[F]_(udim, xdim)) (ks us : seq 'cV[F]_udim)
    (xs : seq 'cV[F]_xdim) (t : nat) :
  control_stepsize Ks ks us xs (nth 0 xs t) t 0 = nth 0 us t.
Proof. by rewrite /control_stepsize subrr mulmx0 scale0r !add0r. Qed.

Lemma rollout_of_nominal (dyn : DynamicsFunc F xdim udim) (cost : CostFunc F xdim udim)
    (Ks : seq 'M[F]_(udim, xdim)) (ks us : seq 'cV[F]_udim)
    (xs : seq 'cV[F]_xdim) (n t : nat) (c : F) :
  (forall i, (i < n)%N ->
     nth 0 xs (t + i).+1 = dyn (nth 0 xs (t + i)) (nth 0 us (t + i))) ->
  rollout dyn cost (fun x t' => control_stepsize Ks ks us xs x t' 0) n t (nth 0 xs t) c
  = ([seq nth 0 xs (t + i).+1 | i <- iota 0 n],
     [seq nth 0 us (t + i) | i <- iota 0 n],
     c + \sum_(0 <= i < n) cost (nth 0 xs (t + i)) (nth 0 us (t + i)) (t + i)%N).
Proof.
elim: n t c => [|n IH] t c Hfol.
  by rewrite /= big_geq // addr0.
rewrite [rollout _ _ _ _ _ _ _]/= control_stepsize_nominal.
have := Hfol 0%N (ltn0Sn n); rewrite addn0 => <-.
have Hfol' i : (i < n)%N ->
    nth 0 xs (t.+1 + i).+1 = dyn (nth 0 xs (t.+1 + i)) (nth 0 us (t.+1 + i)).
  by move=> Hi; rewrite addSnnS; apply: Hfol.
rewrite (IH _ _ Hfol').
rewrite [in RHS](@big_nat_recl _ _ _ n 0) // addn0 addrA.
rewrite -[iota 0 n.+1]/(0%N :: iota (1 + 0) n) /= addn0 iotaDl -!map_comp.
congr (_ :: _, _ :: _, _ + _).
- by apply: eq_map => i /=; rewrite add1n addSnnS.
- by apply: eq_map => i /=; rewrite add1n addSnnS.
- by apply: eq_bigr => i _; rewrite addSnnS.
Qed.

(** X6: for a solver whose stored trajectory starts at [x_init] and
    follows the dynamics (as after [solve]), [forward_pass] with step
    size 0 returns the stored states and controls, whatever the gains,
    with the cost of that trajectory. *)
Theorem chain_forward_pass_zero_step (T : nat) (s : solver) (x_init : 'cV[F]_xdim) :
  well_sized T s ->
  follows_dynamics (Chain.dynamics_ s) x_init (Chain.xhat_ s) (Chain.uhat_ s) ->
  Chain.forward_pass s x_init 0
  = Done (Chain.xhat_ s, Chain.uhat_ s,
          \sum_(0 <= t < T)
             Chain.cost_ s (nth 0 (Chain.xhat_ s) t) (nth 0 (Chain.uhat_ s) t) t
          + Chain.final_cost_ s (nth 0 (Chain.xhat_ s) T)).
Proof.
move=> Hs [Hx0 Hfol]; rewrite /Chain.forward_pass (timesteps_sized Hs) bind_unit.
case/and4P: Hs => _ _ /eqP Hus /eqP Hxs.
rewrite /Chain.compute_control_stepsize -{1}Hx0.
have Hfol' i : (i < T)%N ->
    nth 0 (Chain.xhat_ s) (0 + i).+1
    = Chain.dynamics_ s (nth 0 (Chain.xhat_ s) (0 + i)) (nth 0 (Chain.uhat_ s) (0 + i)).
  by move=> Hi; rewrite add0n; apply: Hfol; rewrite Hus.
rewrite (rollout_of_nominal _ _ _ _ Hfol') add0r.
have Exs : x_init :: [seq nth 0 (Chain.xhat_ s) (0 + i).+1 | i <- iota 0 T]
           = Chain.xhat_ s.
  rewrite -[RHS](mkseq_nth 0) Hxs /mkseq -[iota 0 T.+1]/(0%N :: iota (1 + 0) T) /= Hx0.
  by rewrite iotaDl -map_comp.
have Eus : [seq nth 0 (Chain.uhat_ s) (0 + i) | i <- iota 0 T] = Chain.uhat_ s.
  by rewrite -[RHS](mkseq_nth 0) Hus.
by rewrite Exs Eus.
Qed.

End ChainMore.

Section ForwardPassContract.

Variable F : realFieldType.
Variables xdim udim : nat.
Context {num : Numerics F xdim udim}.

Local Notation solver := (Chain.iLQRSolver F xdim udim).

(** The loop of [forward_pass], step by step: each control is the one of
    the control law at the state where it is applied, each state follows
    from the one before, and the cost is the sum of the stage costs. *)
Lemma rollout_pointwise (dyn : DynamicsFunc F xdim udim) (cost : CostFunc F xdim udim)
    (control : 'cV[F]_xdim -> nat -> 'cV[F]_udim) (n t : nat)
    (xt : 'cV[F]_xdim) (c : F) :
  let r := rollout dyn cost control n t xt c in
  let xs := xt :: r.1.1 in
  (forall i, (i < n)%N ->
     nth 0 r.1.2 i = control (nth 0 xs i) (t + i)%N
     /\ nth 0 xs i.+1 = dyn (nth 0 xs i) (nth 0 r.1.2 i))
  /\ r.2 = c + \sum_(0 <= i < n) cost (nth 0 xs i) (nth 0 r.1.2 i) (t + i)%N.
Proof.
elim: n t xt c => [|n IH] t xt c /=; first by rewrite big_geq // addr0.
have := IH t.+1 (dyn xt (control xt t)) (c + cost xt (control xt t) t).
case: (rollout _ _ _ _ _ _ _) => [[xs us] J] /= [Hpt ->]; split.
  case=> [|i] Hi /=; first by rewrite addn0.
  by have [-> ->] := Hpt i Hi; rewrite addSnnS.
rewrite [in RHS](@big_nat_recl _ _ _ n 0) //= addn0 addrA; congr (_ + _).
by apply: eq_bigr => i _; rewrite addSnnS.
Qed.

(** X14: [forward_pass] throws exactly when the stored vectors do not have
    the sizes of one horizon [T = uhat_.size()].  Otherwise it returns
    [T + 1] states from [x_init] and [T] controls, each control the one
    [compute_control_stepsize] gives at the state where it is applied, each
    state the dynamics of the one before, with the sum of the stage costs
    and the final cost. *)
Theorem chain_forward_pass_contract (s : solver) (x_init : 'cV[F]_xdim) (alpha : F) :
  let T := size (Chain.uhat_ s) in
  match Chain.forward_pass s x_init alpha with
  | Done (xs, us, J) =>
      [/\ well_sized T s,
          size xs = T.+1 /\ size us = T,
          nth 0 xs 0 = x_init,
          forall t, (t < T)%N ->
            nth 0 us t = Chain.compute_control_stepsize s (nth 0 xs t) t alpha
            /\ nth 0 xs t.+1 = Chain.dynamics_ s (nth 0 xs t) (nth 0 us t)
        & J = \sum_(0 <= t < T) Chain.cost_ s (nth 0 xs t) (nth 0 us t) t
              + Chain.final_cost_ s (nth 0 xs T)]
  | Throw => ~~ well_sized T s
  | Diverge => False
  end.
Proof.
move=> T; case Hs: (well_sized T s); last first.
  move: Hs; rewrite /Chain.forward_pass /Chain.timesteps /well_sized -/T eqxx /=.
  rewrite ![(T == _)%N]eq_sym [(T.+1 == _)%N]eq_sym.
  by case: (size (Chain.ks_ s) == T) => //=; case: (size (Chain.Ks_ s) == T) => //=;
     rewrite ?andbF //; case: (size (Chain.xhat_ s) == T.+1).
rewrite /Chain.forward_pass (timesteps_sized Hs) bind_unit.
set control := fun xt t => _.
have [Hxs Hus] := size_rollout (Chain.dynamics_ s) (Chain.cost_ s) control T 0 x_init 0.
have [Hpt HJ] := rollout_pointwise (Chain.dynamics_ s) (Chain.cost_ s) control T 0 x_init 0.
move: Hxs Hus Hpt HJ; case: (rollout _ _ _ _ _ _ _) => [[xs us] J] /= Hxs Hus Hpt ->.
by rewrite add0r; split; rewrite /= ?Hxs.
Qed.

End ForwardPassContract.

(* ===================================================================== *)
(** ** One Newton step on a linear-quadratic problem *)
(* ===================================================================== *)

Section LQBackup.

Variable F : realFieldType.
Variables xdim udim : nat.
Variable A : 'M[F]_xdim.
Variable B : 'M[F]_(xdim, udim).
Variable Q : 'M[F]_xdim.
Variable R : 'M[F]_udim.
Variable QT : 'M[F]_xdim.

(** The Riccati recursion of the discrete-time LQR without cross term:
    the gain and the value matrix one stage earlier. *)
Definition riccati_gain (V : 'M[F]_xdim) : 'M[F]_(udim, xdim) :=
  - (invmx (R + B^T *m V *m B) *m (B^T *m V *m A)).

Definition riccati_step (V : 'M[F]_xdim) : 'M[F]_xdim :=
  let K := riccati_gain V in
  Q + K^T *m R *m K + (A + B *m K)^T *m V *m (A + B *m K).

(** The value matrix with [k] stages to go. *)
Fixpoint riccati (k : nat) : 'M[F]_xdim :=
  if k is k'.+1 then riccati_step (riccati k') else QT.

Lemma trmx_add (m n : nat) (X Y : 'M[F]_(m, n)) : (X + Y)^T = X^T + Y^T.
Proof. exact: linearD. Qed.

Hypothesis HQ : Q^T = Q.
Hypothesis HR : R^T = R.
Hypothesis HQT : QT^T = QT.

Lemma riccati_step_sym (V : 'M[F]_xdim) : V^T = V -> (riccati_step V)^T = riccati_step V.
Proof.
move=> HV; rewrite /riccati_step /=.
move: (riccati_gain V) (A + B *m riccati_gain V) => K M.
by rewrite 2!trmx_add !trmx_mul !trmxK HQ HR HV !mulmxA.
Qed.

Lemma riccati_sym (k : nat) : (riccati k)^T = riccati k.
Proof. by elim: k => [|k IH] //=; apply: riccati_step_sym. Qed.

Local Notation num := (lq_numerics A B Q R 0 QT).

Section OneBackup.

Variable V : 'M[F]_xdim.
Variable x : 'cV[F]_xdim.
Variable u : 'cV[F]_udim.
Hypothesis HV : V^T = V.
Hypothesis HH : R + B^T *m V *m B \in unitmx.

Let q : quadratic F xdim udim := Quadratic Q R 0 (Q *m x + 0 *m u) (0^T *m x + R *m u).
Let g1 : 'rV[F]_xdim := (A *m x + B *m u)^T *m V.

Lemma lq_spec_K : spec_K (num := num) 0 V A B q = riccati_gain V.
Proof.
by rewrite /spec_K /spec_H /spec_Vtilde /riccati_gain /= raddf0 addr0 trmx0 add0r.
Qed.

Lemma lq_spec_k : spec_k (num := num) 0 V g1 B q = riccati_gain V *m x - u.
Proof.
rewrite /spec_k /spec_H /spec_Vtilde /riccati_gain /= raddf0 addr0 trmx0 mul0mx add0r.
rewrite /g1 trmx_mul trmxK HV.
have -> : R *m u + B^T *m (V *m (A *m x + B *m u))
          = (R + B^T *m V *m B) *m u + B^T *m V *m A *m x.
  by rewrite !mulmxDr !mulmxA mulmxDl [_ *m x + _]addrC addrA.
rewrite mulmxDr !mulmxA mulVmx // mul1mx.
by rewrite opprD mulNmx addrC.
Qed.

Lemma lq_spec_V : spec_V (num := num) 0 V A B q = riccati_step V.
Proof.
by rewrite /spec_V /spec_M lq_spec_K /riccati_step /= mul0mx scaler0 addr0.
Qed.

Lemma lq_spec_g : spec_g (num := num) 0 V g1 A B q = x^T *m riccati_step V.
Proof.
rewrite /spec_g /spec_M lq_spec_k lq_spec_K /riccati_step /=.
set K := riccati_gain V; set M := A + B *m K.
rewrite trmx0 !mulmx0 !mul0mx !add0r !addr0.
rewrite [(Q *m x)^T]trmx_mul HQ [(R *m u)^T]trmx_mul HR.
rewrite -[LHS]addrA [_ + x^T *m Q + _]addrAC.
have -> : (K *m x - u)^T *m R *m K + u^T *m R *m K = x^T *m K^T *m R *m K.
  by rewrite -!mulmxDl -trmx_add subrK trmx_mul.
have -> : (K *m x - u)^T *m B^T *m V *m M + g1 *m M = x^T *m M^T *m V *m M.
  rewrite /g1 -!mulmxDl -trmx_mul -trmx_add mulmxBr.
  rewrite [_ + (A *m x + _)]addrC -addrA [B *m u + _]addrC subrK.
  by rewrite mulmxA -mulmxDl -/M trmx_mul.
by rewrite !mulmxDr !mulmxA [x^T *m Q + _]addrC.
Qed.

End OneBackup.

Variable T : nat.
Variable c0 : F.
Hypothesis Hunit :
  forall k, (k < T)%N -> R + B^T *m riccati k *m B \in unitmx.

Local Notation solver := (Chain.iLQRSolver F xdim udim).

(** The LQR gain of time [t] on the horizon [T]. *)
Definition lqr_gain (t : nat) : 'M[F]_(udim, xdim) :=
  riccati_gain (riccati (T - t.+1)).

(** The closed loop [u_t = K_t x_t] from [x_init]: states, controls and
    total cost. *)
Definition lqr_trajectory (x_init : 'cV[F]_xdim)
    : seq 'cV[F]_xdim * seq 'cV[F]_udim * F :=
  let: (xs, us, c) :=
    rollout (lq_dynamics A B) (lq_cost Q R 0 c0)
      (fun x t => lqr_gain t *m x) T 0 x_init 0 in
  (x_init :: xs, us, c + lq_final_cost QT (nth 0 (x_init :: xs) T)).

(** The solver holds the linear-quadratic problem. *)
Definition is_lq (s : solver) : Prop :=
  [/\ Chain.dynamics_ s = lq_dynamics A B, Chain.cost_ s = lq_cost Q R 0 c0
    & Chain.final_cost_ s = lq_final_cost QT].

(** The nominal trajectory follows the linear dynamics; it may start
    anywhere. *)
Definition nominal_linear (s : solver) : Prop :=
  forall t, (t < T)%N ->
    nth 0 (Chain.xhat_ s) t.+1
    = A *m nth 0 (Chain.xhat_ s) t + B *m nth 0 (Chain.uhat_ s) t.

Lemma lq_bellman_backup (s : solver) (t : nat) :
  (t < T)%N -> nominal_linear s ->
  Chain.bellman_backup (num := num) s t 0 (riccati (T - t.+1))
    ((nth 0 (Chain.xhat_ s) t.+1)^T *m riccati (T - t.+1))
  = (riccati (T - t), (nth 0 (Chain.xhat_ s) t)^T *m riccati (T - t),
     lqr_gain t, lqr_gain t *m nth 0 (Chain.xhat_ s) t - nth 0 (Chain.uhat_ s) t).
Proof.
move=> Ht Hnom; rewrite chain_backup_spec /= (Hnom t Ht).
have Hsym := riccati_sym (T - t.+1).
have HH : R + B^T *m riccati (T - t.+1) *m B \in unitmx.
  by apply: Hunit; rewrite ltn_subrL /=; apply: leq_ltn_trans Ht.
rewrite lq_spec_V (lq_spec_g _ _ Hsym HH) lq_spec_K (lq_spec_k _ _ Hsym HH).
by rewrite -[(T - t)%N](subnSK Ht).
Qed.

Lemma backward_passS (k : nat) (mu : F) (s : solver)
    (V : 'M[F]_xdim) (G : 'rV[F]_xdim) :
  Chain.backward_pass (num := num) k.+1 mu s V G =
    (let: (Vt, G_t, Kt, kt) := Chain.bellman_backup (num := num) s k mu V G in
     Chain.backward_pass (num := num) k mu
       (Chain.set_gains s (set_nth 0 (Chain.Ks_ s) k Kt) (set_nth 0 (Chain.ks_ s) k kt))
       Vt G_t).
Proof. by []. Qed.

(** The backward pass writes the LQR gains, and feedforward terms that
    cancel the nominal trajectory. *)
Lemma backward_pass_lq (k : nat) (s : solver) :
  (k <= T)%N -> nominal_linear s ->
  let s' := Chain.backward_pass (num := num) k 0 s (riccati (T - k))
              ((nth 0 (Chain.xhat_ s) k)^T *m riccati (T - k)) in
  forall t,
    nth 0 (Chain.Ks_ s') t
    = (if (t < k)%N then lqr_gain t else nth 0 (Chain.Ks_ s) t)
    /\ nth 0 (Chain.ks_ s') t
       = (if (t < k)%N
          then lqr_gain t *m nth 0 (Chain.xhat_ s) t - nth 0 (Chain.uhat_ s) t
          else nth 0 (Chain.ks_ s) t).
Proof.
elim: k s => [|k IH] s Hk Hnom //.
rewrite backward_passS (lq_bellman_backup Hk Hnom) => s' t.
set s1 := Chain.set_gains s _ _ in s' *.
have := IH s1 (ltnW Hk) Hnom t; rewrite -/s' => -[-> ->].
rewrite [(t < k.+1)%N]ltnS [(t <= k)%N]leq_eqVlt.
case Hlt: (t < k)%N; first by rewrite orbT.
by rewrite orbF /= !nth_set_nth /=; case: (t =P k) => // ->.
Qed.

Lemma rollout_ext_lt (dyn : DynamicsFunc F xdim udim) (cost : CostFunc F xdim udim)
    (control control' : 'cV[F]_xdim -> nat -> 'cV[F]_udim) (n t : nat)
    (xt : 'cV[F]_xdim) (c : F) :
  (forall x i, (i < n)%N -> control x (t + i)%N = control' x (t + i)%N) ->
  rollout dyn cost control n t xt c = rollout dyn cost control' n t xt c.
Proof.
elim: n t xt c => [|n IH] t xt c Hext //=.
have := Hext xt 0%N (ltn0Sn n); rewrite addn0 => ->.
by rewrite IH // => x i Hi; rewrite addSnnS; apply: Hext.
Qed.

(** X7: on a linear-quadratic problem without cross term ([Q], [R],
    [Q_T] symmetric, every [R + B^T V B] of the Riccati recursion
    invertible, exact derivatives, [mu = 0]), one backward pass followed by
    a forward pass with step size 1 returns the LQR closed loop
    [u_t = K_t x_t] from [x_init], whatever nominal trajectory the
    backward pass started from, provided it follows the dynamics. *)
Theorem lq_newton_step (s : solver) (x_init : 'cV[F]_xdim) :
  well_sized T s -> is_lq s -> nominal_linear s ->
  (let: (QT', gT) :=
     quadratize_final_cost (Numerics := num) (Chain.final_cost_ s)
       (nth 0 (Chain.xhat_ s) T) in
   Chain.forward_pass (Chain.backward_pass (num := num) T 0 s QT' gT^T) x_init 1)
  = Done (lqr_trajectory x_init).
Proof.
move=> Hs [Hd Hc Hf] Hnom; rewrite [quadratize_final_cost _ _]/=.
have -> : Chain.backward_pass (num := num) T 0 s QT (QT *m nth 0 (Chain.xhat_ s) T)^T
          = Chain.backward_pass (num := num) T 0 s (riccati (T - T))
              ((nth 0 (Chain.xhat_ s) T)^T *m riccati (T - T)).
  by rewrite subnn /= trmx_mul HQT.
have := backward_pass_lq (leqnn T) Hnom.
have := @chain_backward_pass_keeps _ _ _ num T 0 s (riccati (T - T))
          ((nth 0 (Chain.xhat_ s) T)^T *m riccati (T - T)).
have := @well_sized_backward_pass _ _ _ num T T 0 s (riccati (T - T))
          ((nth 0 (Chain.xhat_ s) T)^T *m riccati (T - T)) (leqnn T) Hs.
set s' := Chain.backward_pass _ _ _ _ _ => Hs' [Hd' Hc' Hf' Hx' Hu'] Hgains.
rewrite /Chain.forward_pass (timesteps_sized Hs') bind_unit Hd' Hc' Hf' Hd Hc Hf.
have Hext x i : (i < T)%N ->
    Chain.compute_control_stepsize s' x (0 + i) 1 = lqr_gain (0 + i) *m x.
  move=> Hi; rewrite add0n /Chain.compute_control_stepsize /control_stepsize.
  have [-> ->] := Hgains i; rewrite Hi Hx' Hu'.
  by rewrite mulmxBr scale1r addrA subrK subrK.
rewrite (@rollout_ext_lt (lq_dynamics A B) (lq_cost Q R 0 c0)
             (fun xt t => Chain.compute_control_stepsize s' xt t 1)
             (fun x t => lqr_gain t *m x) T 0 x_init 0 Hext).
by rewrite /lqr_trajectory; case: (rollout _ _ _ _ _ _ _) => [[xs us] c].
Qed.

Lemma lqr_trajectory_follows (x_init : 'cV[F]_xdim) :
  [/\ size (lqr_trajectory x_init).1.1 = T.+1,
      size (lqr_trajectory x_init).1.2 = T
    & forall t, (t < T)%N ->
        nth 0 (lqr_trajectory x_init).1.1 t.+1
        = A *m nth 0 (lqr_trajectory x_init).1.1 t
          + B *m nth 0 (lqr_trajectory x_init).1.2 t].
Proof.
rewrite /lqr_trajectory.
set control := fun x t => lqr_gain t *m x.
have Hsz := size_rollout (lq_dynamics A B) (lq_cost Q R 0 c0) control T 0 x_init 0.
have Hfol i := @rollout_follows _ _ _ (lq_dynamics A B) (lq_cost Q R 0 c0)
                 control T 0 x_init 0 i.
move: Hsz Hfol; case: (rollout _ _ _ _ _ _ _) => [[xs us] c] /= [Hxs Hus] Hfol.
by split; rewrite ?Hxs.
Qed.

(** X8: on the same problem the result is a fixed point: storing the
    returned states and controls as the nominal trajectory and running
    the backward pass and the full-step forward pass again returns the
    same states, controls and cost. *)
Theorem lq_newton_step_fixed_point (s : solver) (x_init : 'cV[F]_xdim) :
  well_sized T s -> is_lq s ->
  let s1 := Chain.set_nominal s (lqr_trajectory x_init).1.2
              (lqr_trajectory x_init).1.1 in
  (let: (QT', gT) :=
     quadratize_final_cost (Numerics := num) (Chain.final_cost_ s1)
       (nth 0 (Chain.xhat_ s1) T) in
   Chain.forward_pass (Chain.backward_pass (num := num) T 0 s1 QT' gT^T) x_init 1)
  = Done (lqr_trajectory x_init).
Proof.
move=> Hs Hlq s1; have [Hxs Hus Hfol] := lqr_trajectory_follows x_init.
by apply: lq_newton_step => //; exact: well_sized_set_nominal.
Qed.

End LQBackup.

(* ===================================================================== *)
(** ** More on the hindsight solver *)
(* ===================================================================== *)

Section HindsightMore.

Variable F : realFieldType.
Variables xdim udim : nat.
Context {num : Numerics F xdim udim}.

Local Notation branch := (Hindsight.HindsightBranch F xdim udim).
Local Notation hsolver := (Hindsight.iLQRHindsightSolver F xdim udim).
Local Notation null := (Hindsight.null_branch F xdim udim).


(** *** Changing a branch probability *)

Lemma total_set_probability (bs : seq branch) (n : nat) (p : F) :
  (n < size bs)%N ->
  Hindsight.total_branch_probability
    (set_nth null bs n (Hindsight.set_probability (nth null bs n) p))
  = Hindsight.total_branch_probability bs - Hindsight.probability (nth null bs n) + p.
Proof.
rewrite !total_branch_probabilityE.
elim: bs n => [|b bs IH] [|n] //= Hn; rewrite !big_cons.
  by rewrite /= addrC; congr (_ + _); rewrite addrAC subrr add0r.
by rewrite IH // !addrA.
Qed.

(** X10: [set_branch_probability] checks the branch number and that the
    probability is in [0, 1], then writes it; it does not look at the
    other branches.  The total changes by the difference, and when it is
    no longer accepted by the sum check every later [solve] throws. *)
Theorem set_branch_probability_leaves_sum_unchecked (h : hsolver)
    (branch_num : int) (p : F) :
  0 <= branch_num -> branch_num < Posz (size (Hindsight.branches_ h)) ->
  0 <= p -> p <= 1 ->
  exists h' : hsolver,
    [/\ Hindsight.set_branch_probability h branch_num p = Done h',
        size (Hindsight.branches_ h') = size (Hindsight.branches_ h),
        Hindsight.probability
          (nth null (Hindsight.branches_ h') (int_to_nat branch_num)) = p,
        Hindsight.total_branch_probability (Hindsight.branches_ h')
        = Hindsight.total_branch_probability (Hindsight.branches_ h)
          - Hindsight.probability
              (nth null (Hindsight.branches_ h) (int_to_nat branch_num))
          + p
      & ~~ almost_equal (Hindsight.total_branch_probability (Hindsight.branches_ h'))
             1 (Hindsight.prob_eps F) ->
        forall fuel T x_init u_nominal mu max_iters convg start_alpha warm_start
               t_offset,
          Hindsight.solve fuel T x_init u_nominal mu max_iters convg start_alpha
            warm_start t_offset h' = Throw].
Proof.
case: branch_num => // n _; rewrite ltz_nat => Hn Hp0 Hp1.
rewrite /Hindsight.set_branch_probability /= ltz_nat Hn Hp0 Hp1 /=.
eexists; split; first by reflexivity.
- by rewrite /= size_set_nth; apply/maxn_idPr.
- by rewrite /= nth_set_nth /= eqxx.
- exact: total_set_probability.
- move=> Hsum *; apply: hindsight_solve_rejects.
  by rewrite Hsum !orbT.
Qed.

End HindsightMore.

Section HindsightResult.

Variable F : realFieldType.
Variables xdim udim : nat.
Context {num : Numerics F xdim udim}.

Local Notation branch := (Hindsight.HindsightBranch F xdim udim).
Local Notation hsolver := (Hindsight.iLQRHindsightSolver F xdim udim).
Local Notation null := (Hindsight.null_branch F xdim udim).









End HindsightResult.

(* ===================================================================== *)
(** ** The forward pass on the LQR tree *)
(* ===================================================================== *)

Section TreeForward.

Variable F : realFieldType.
Variables state_dim control_dim : nat.

Local Notation Tree := (LQRTree.Tree F state_dim control_dim).
Local Notation TreeNode := (LQRTree.TreeNode F state_dim control_dim).
Local Notation PlanNode := (LQRTree.PlanNode F state_dim control_dim).
Local Notation node := (@LQRTree.node F state_dim control_dim).
Local Notation item := (@LQRTree.item F state_dim control_dim).
Local Notation parent := (@LQRTree.parent F state_dim control_dim).
Local Notation children := (@LQRTree.children F state_dim control_dim).
Local Notation depth := (@LQRTree.depth F state_dim control_dim).

(** What the forward pass leaves untouched in a node: all but its
    linearization point. *)
Definition policy_part (nd : TreeNode) :=
  (fixed_part nd, LQRTree.K_ (item nd), LQRTree.V_ (item nd)).

Definition same_policy (t t' : Tree) : Prop :=
  size t' = size t /\ forall j, policy_part (node t' j) = policy_part (node t j).

(** The next state under the feedback of a node. *)
Definition closed_loop (pn : PlanNode) (x : 'cV[F]_state_dim) : 'cV[F]_state_dim :=
  LQRTree.dynamics_A pn *m x + LQRTree.dynamics_B pn *m (LQRTree.K_ pn *m x).

(** The state that reaches node [i] from [x0] at the root, along the
    path from the root. *)
Fixpoint state_below (t : Tree) (x0 : 'cV[F]_state_dim) (d i : nat)
    : 'cV[F]_state_dim :=
  if d is d'.+1 then
    if parent (node t i) is Some p
    then closed_loop (item (node t p)) (state_below t x0 d' p)
    else x0
  else x0.

Definition spec_tree_x (t : Tree) (x0 : 'cV[F]_state_dim) (i : nat) :=
  state_below t x0 (depth (node t i)) i.

Lemma same_policy_refl (t : Tree) : same_policy t t.
Proof. by []. Qed.

Lemma same_policy_fields (t t' : Tree) (j : nat) :
  same_policy t t' ->
  [/\ parent (node t' j) = parent (node t j),
      children (node t' j) = children (node t j),
      LQRTree.dynamics_A (item (node t' j)) = LQRTree.dynamics_A (item (node t j)),
      LQRTree.dynamics_B (item (node t' j)) = LQRTree.dynamics_B (item (node t j))
    & LQRTree.K_ (item (node t' j)) = LQRTree.K_ (item (node t j))].
Proof.
by case=> _ /(_ j); rewrite /policy_part /fixed_part => -[-> -> _ -> -> _ _ _ -> _].
Qed.

Lemma node_set_item (t : Tree) (i j : nat) (pn : PlanNode) :
  node (LQRTree.set_item t i pn) j
  = if j == i
    then LQRTree.MkTreeNode pn (parent (node t i)) (children (node t i))
           (depth (node t i))
    else node t j.
Proof. by rewrite /LQRTree.node /LQRTree.set_item nth_set_nth. Qed.

Lemma same_policy_set_point (t t1 : Tree) (n : nat) (x : 'cV[F]_state_dim)
    (u : 'cV[F]_control_dim) :
  (n < size t)%N -> same_policy t t1 ->
  same_policy t
    (LQRTree.set_item t1 n (LQRTree.set_u (LQRTree.set_x (item (node t1 n)) x) u)).
Proof.
move=> Hn [Hs Hp]; split=> [|j].
  by rewrite /LQRTree.set_item size_set_nth Hs; apply/maxn_idPr.
rewrite node_set_item; case: (j =P n) => [->|_]; last exact: Hp.
by rewrite -Hp.
Qed.

(** *** The loop *)

Lemma emplace_frontE (v : 'cV[F]_state_dim) (q : seq (nat * 'cV[F]_state_dim))
    (cs : seq nat) :
  foldl (fun q child => (child, v) :: q) q cs = rev [seq (c, v) | c <- cs] ++ q.
Proof.
elim: cs q => [|c cs IH] q //=.
by rewrite IH rev_cons cat_rcons.
Qed.

Lemma pop_back_rcons (T : Type) (q : seq T) (a : T) :
  LQRTree.pop_back (rcons q a) = q.
Proof. by rewrite /LQRTree.pop_back size_rcons /= -cats1 take_size_cat. Qed.

Lemma forward_loop_nil (fuel : nat) (t : Tree) :
  LQRTree.forward_loop fuel t [::] = Done t.
Proof. by case: fuel. Qed.

Lemma forward_loopS (fuel : nat) (t : Tree) (q : seq (nat * 'cV[F]_state_dim))
    (n : nat) (x : 'cV[F]_state_dim) :
  LQRTree.forward_loop fuel.+1 t (rcons q (n, x))
  = let pn := item (node t n) in
    LQRTree.forward_loop fuel
      (LQRTree.set_item t n (LQRTree.set_u (LQRTree.set_x pn x) (LQRTree.K_ pn *m x)))
      (rev [seq (c, closed_loop pn x) | c <- children (node t n)] ++ q).
Proof.
have Hnil : nilp (rcons q (n, x)) = false by case: q.
rewrite [LHS]/= Hnil last_rcons /LQRTree.forward_node /= node_set_item eqxx /=.
by rewrite emplace_frontE -rcons_cat pop_back_rcons.
Qed.

(** *** The invariant of the loop *)

Section Loop.

Variable t : Tree.
Hypothesis Hwf : well_formed t.
Variable x0 : 'cV[F]_state_dim.

Local Notation X := (spec_tree_x t x0).

Lemma spec_tree_x_root : X 0%N = x0.
Proof. by rewrite /spec_tree_x (wf_root_depth Hwf). Qed.

Lemma spec_tree_x_child (i c : nat) :
  (i < size t)%N -> c \in children (node t i) ->
  X c = closed_loop (item (node t i)) (X i).
Proof.
move=> Hi Hc; have [_ _ Hpar Hd] := wf_child_of Hwf Hi Hc.
by rewrite /spec_tree_x Hd /= Hpar.
Qed.

(** Every node is reached from the root through the children lists. *)
Lemma reached_all (P : seq nat) :
  0%N \in P ->
  (forall m c, m \in P -> c \in children (node t m) -> c \in P) ->
  forall i, (i < size t)%N -> i \in P.
Proof.
move=> H0 Hcl; elim/ltn_ind=> -[|i] IH Hi //.
have [p [_ Hp _ Hin]] := wf_parent Hwf (ltn0Sn i) Hi.
by apply: Hcl Hin; apply: IH => //; apply: ltn_trans Hi.
Qed.

(** [q] is the list to process and [done] the nodes processed so far. *)
Definition fwd_inv (t1 : Tree) (q : seq (nat * 'cV[F]_state_dim))
    (done : seq nat) : Prop :=
  let seen := [seq e.1 | e <- q] ++ done in
  [/\ same_policy t t1,
      [&& uniq seen, all (fun m => m < size t)%N seen & 0%N \in seen],
      forall m, m \in seen ->
        (m == 0%N) || (if parent (node t m) is Some p then p \in done else false),
      forall m c, m \in done -> c \in children (node t m) -> c \in seen
    & (forall e, e \in q -> e.2 = X e.1)
      /\ (forall m, m \in done ->
            LQRTree.x_ (item (node t1 m)) = X m
            /\ LQRTree.u_ (item (node t1 m)) = LQRTree.K_ (item (node t m)) *m X m)].

Lemma fwd_inv_start : fwd_inv t [:: (0%N, x0)] [::].
Proof.
split=> //.
- by rewrite /= (wf_size Hwf).
- by move=> m; rewrite /= inE => ->.
- by split=> // e; rewrite inE => /eqP ->; rewrite /= spec_tree_x_root.
Qed.

Lemma fwd_inv_step (t1 : Tree) (q : seq (nat * 'cV[F]_state_dim))
    (n : nat) (x : 'cV[F]_state_dim) (done : seq nat) :
  fwd_inv t1 (rcons q (n, x)) done ->
  fwd_inv
    (LQRTree.set_item t1 n
       (LQRTree.set_u (LQRTree.set_x (item (node t1 n)) x)
          (LQRTree.K_ (item (node t1 n)) *m x)))
    (rev [seq (c, closed_loop (item (node t1 n)) x) | c <- children (node t1 n)] ++ q)
    (n :: done).
Proof.
rewrite /fwd_inv map_rcons cat_rcons /=.
set seen0 := [seq e.1 | e <- q] ++ n :: done.
case=> Hpol /and3P [Hu Hlt H0] Hpar Hcl [Hq Hdone].
have [_ Ecs EA EB EK] := same_policy_fields n Hpol.
have Hn : (n < size t)%N.
  by move/allP: Hlt; apply; rewrite mem_cat inE eqxx orbT.
have Hnd : n \notin done.
  by move: Hu; rewrite cat_uniq /= => /and3P [_ _ /andP []].
have Ex : x = X n.
  by rewrite -[n]/((n, x).1) -(Hq (n, x)) // mem_rcons inE eqxx.
have Ecl : closed_loop (item (node t1 n)) x = closed_loop (item (node t n)) (X n).
  by rewrite /closed_loop EA EB EK Ex.
have Eseen :
  [seq e.1 | e <- rev [seq (c, closed_loop (item (node t1 n)) x)
                      | c <- children (node t1 n)] ++ q] ++ n :: done
  = rev (children (node t n)) ++ seen0.
  by rewrite map_cat map_rev -map_comp map_id_in // Ecs -catA.
rewrite Eseen.
have Hnew c : c \in children (node t n) -> c \notin seen0.
  move=> Hc; have [_ Hnc Hp _] := wf_child_of Hwf Hn Hc.
  apply/negP => /Hpar; rewrite Hp (negbTE Hnd) orbF => /eqP Ec0.
  by rewrite Ec0 in Hnc.
split.
- exact: same_policy_set_point.
- apply/and3P; split.
  + rewrite cat_uniq rev_uniq (wf_children_uniq Hwf Hn) Hu andbT /=.
    apply/hasPn => c Hc /=; rewrite mem_rev; apply/negP => Hin.
    by move: (Hnew c Hin); rewrite Hc.
  + rewrite all_cat Hlt andbT all_rev; apply/allP => c Hc.
    by have [] := wf_child_of Hwf Hn Hc.
  + by rewrite mem_cat H0 orbT.
- move=> m; rewrite mem_cat mem_rev => /orP [Hc|/Hpar].
    have [_ _ -> _] := wf_child_of Hwf Hn Hc.
    by rewrite inE eqxx orbT.
  case: (m == 0%N) => //=; case: (parent _) => // p Hp.
  by rewrite inE Hp orbT.
- move=> m c; rewrite inE mem_cat mem_rev => /orP [/eqP -> -> //|Hm Hc].
  by rewrite (Hcl m c) ?orbT.
split.
- move=> e; rewrite mem_cat mem_rev => /orP [/mapP [c Hc ->] /=|He].
    by rewrite Ecl (@spec_tree_x_child n c) // -Ecs.
  by apply: Hq; rewrite mem_rcons inE He orbT.
- move=> m; rewrite inE node_set_item; case: (m =P n) => [-> _ /=|_ /= Hm].
    by rewrite EK Ex.
  exact: Hdone.
Qed.

Lemma seen_bound (t1 : Tree) (q : seq (nat * 'cV[F]_state_dim)) (done : seq nat) :
  fwd_inv t1 q done -> (size q + size done <= size t)%N.
Proof.
case=> _ /and3P [Hu /allP Hlt _] _ _ _.
rewrite -(size_map (fun e => e.1) q) -size_cat -(size_iota 0 (size t)).
by apply: uniq_leq_size => // m /Hlt; rewrite mem_iota.
Qed.

Lemma forward_loop_spec (fuel : nat) (t1 : Tree)
    (q : seq (nat * 'cV[F]_state_dim)) (done : seq nat) :
  fwd_inv t1 q done -> (size t <= fuel + size done)%N ->
  exists t' : Tree,
    [/\ LQRTree.forward_loop fuel t1 q = Done t', same_policy t t'
      & forall i, (i < size t)%N ->
          LQRTree.x_ (item (node t' i)) = X i
          /\ LQRTree.u_ (item (node t' i)) = LQRTree.K_ (item (node t i)) *m X i].
Proof.
elim: fuel t1 q done => [|fuel IH] t1 q done Hinv Hfuel;
  case/lastP: q Hinv => [|q [n x]] Hinv.
- exists t1; case: Hinv => Hpol /and3P [_ _ H0] _ Hcl [_ Hdone]; split=> // i Hi.
  by apply: Hdone; apply: reached_all Hi.
- have := seen_bound Hinv; rewrite size_rcons addSn => Hle.
  have := leq_trans Hle Hfuel.
  by rewrite add0n ltnNge leq_addl.
- exists t1; case: Hinv => Hpol /and3P [_ _ H0] _ Hcl [_ Hdone]; split=> // i Hi.
  by apply: Hdone; apply: reached_all Hi.
- rewrite forward_loopS; apply: (IH _ _ (n :: done)); first exact: fwd_inv_step.
  by rewrite /= addnS -addSn.
Qed.

End Loop.

(** The forward pass in closed form: every node gets the state that
    reaches it from [x0] at the root, and the control of its feedback
    there. *)
Lemma forward_pass_points (t : Tree) (x0 : 'cV[F]_state_dim) (fuel : nat) :
  well_formed t -> (size t <= fuel)%N ->
  exists t' : Tree,
    [/\ LQRTree.forward_pass fuel x0 t = Done t', same_policy t t'
      & forall i, (i < size t)%N ->
          LQRTree.x_ (item (node t' i)) = spec_tree_x t x0 i
          /\ LQRTree.u_ (item (node t' i))
             = LQRTree.K_ (item (node t i)) *m spec_tree_x t x0 i].
Proof.
move=> Hwf Hfuel.
have [|t' [Hrun Hpol Hpts]] :=
  forward_loop_spec Hwf (fuel := fuel) (fwd_inv_start Hwf x0).
  by rewrite addn0.
exists t'; split=> //.
by rewrite /LQRTree.forward_pass; case: t Hwf {Hfuel Hpol Hpts} Hrun.
Qed.

(** The points of a rollout: [x0] at the root, [u = K x] at every node,
    and at every child the next state [A x + B u] of its parent. *)
Definition rolled_out (x0 : 'cV[F]_state_dim) (t' : Tree) : Prop :=
  LQRTree.x_ (item (node t' 0)) = x0
  /\ forall i, (i < size t')%N ->
       let pn := item (node t' i) in
       LQRTree.u_ pn = LQRTree.K_ pn *m LQRTree.x_ pn
       /\ forall c, c \in children (node t' i) ->
            LQRTree.x_ (item (node t' c))
            = LQRTree.dynamics_A pn *m LQRTree.x_ pn
              + LQRTree.dynamics_B pn *m LQRTree.u_ pn.

Lemma points_rolled_out (t t' : Tree) (x0 : 'cV[F]_state_dim) :
  well_formed t -> same_policy t t' ->
  (forall i, (i < size t)%N ->
     LQRTree.x_ (item (node t' i)) = spec_tree_x t x0 i
     /\ LQRTree.u_ (item (node t' i))
        = LQRTree.K_ (item (node t i)) *m spec_tree_x t x0 i) ->
  rolled_out x0 t'.
Proof.
move=> Hwf Hpol Hpts; split.
  by have [-> _] := Hpts 0%N (wf_size Hwf); rewrite spec_tree_x_root.
have [Hsz _] := Hpol; rewrite Hsz => i Hi /=; have [Hx Hu] := Hpts i Hi.
have [_ Ecs EA EB EK] := same_policy_fields i Hpol.
rewrite Hu Hx EK; split=> // c; rewrite Ecs => Hc.
have [Hcs _ _ _] := wf_child_of Hwf Hi Hc.
have [-> _] := Hpts c Hcs.
by rewrite (spec_tree_x_child Hwf x0 Hi Hc) /closed_loop EA EB.
Qed.

(** X12: on a well-formed tree, with at least one round of fuel per node,
    [forward_pass] returns; it changes only the linearization points.  The
    root gets [x0], every node gets [u = K x], and every child gets the
    next state [A x + B u] of its parent. *)
Theorem tree_forward_pass_spec (t : Tree) (x0 : 'cV[F]_state_dim) (fuel : nat) :
  well_formed t -> (size t <= fuel)%N ->
  exists t' : Tree,
    [/\ LQRTree.forward_pass fuel x0 t = Done t', same_policy t t'
      & rolled_out x0 t'].
Proof.
move=> Hwf Hfuel; have [t' [Hrun Hpol Hpts]] := forward_pass_points x0 Hwf Hfuel.
by exists t'; split=> //; apply: points_rolled_out Hpts.
Qed.

(** *** The backup, then the forward pass *)

Lemma same_shape_well_formed (t t' : Tree) :
  same_shape t t' -> well_formed t -> well_formed t'.
Proof.
move=> Hsh; have [Hsz _] := Hsh.
have Hf j := same_shape_fields j Hsh.
rewrite /well_formed /wf_root Hsz.
have [-> _ ->] := Hf 0%N.
have -> : all (wf_child t') (iota 1 (size t).-1) = all (wf_child t) (iota 1 (size t).-1).
  apply: eq_all => i; rewrite /wf_child; have [-> _ ->] := Hf i.
  by case: (parent (node t i)) => // p; have [_ -> ->] := Hf p.
have -> // : all (wf_children t') (iota 0 (size t)) = all (wf_children t) (iota 0 (size t)).
apply: eq_all => i; rewrite /wf_children Hsz; have [_ -> _] := Hf i.
by congr (_ && _); apply: eq_all => c; have [-> _ _] := Hf c.
Qed.

Lemma same_policy_backed_up (inverse : 'M[F]_control_dim -> 'M[F]_control_dim)
    (t t' : Tree) (i : nat) :
  same_policy t t' -> node_backed_up inverse t i -> node_backed_up inverse t' i.
Proof.
move=> Hpol; have [_ Hp] := Hpol.
have EV : spec_tree_Vtilde t' i = spec_tree_Vtilde t i.
  rewrite /spec_tree_Vtilde; have [_ -> _ _ _] := same_policy_fields i Hpol.
  apply: eq_bigr => c _.
  by move: (Hp c); rewrite /policy_part /fixed_part => -[_ _ _ _ _ _ _ -> _ ->].
rewrite /node_backed_up /spec_tree_K /spec_tree_V EV.
move: (Hp i); rewrite /policy_part /fixed_part.
by case=> _ _ _ HA HB HQ HR _ HK HV; rewrite HA HB HQ HR HK HV.
Qed.

Lemma same_policy_shape (t t' : Tree) : same_policy t t' -> same_shape t t'.
Proof.
case=> Hsz Hp; split=> // j; move: (Hp j); rewrite /policy_part.
by move/(congr1 (fun p => p.1.1)).
Qed.

Lemma same_shape_trans (t t1 t2 : Tree) :
  same_shape t t1 -> same_shape t1 t2 -> same_shape t t2.
Proof.
by move=> [E1 H1] [E2 H2]; split=> [|j]; [rewrite E2 | rewrite H2].
Qed.

(** X13: the backup and the forward pass compose.  On a well-formed tree
    whose leaves are all at depth [D], [bellman_tree_backup] followed by
    [forward_pass] from [x0] returns a tree of the same shape in which
    every node holds the gains and value matrix of the backup equations
    and the points of the rollout of those gains from [x0]. *)
Theorem tree_backup_then_forward_pass
    (inverse : 'M[F]_control_dim -> 'M[F]_control_dim)
    (map_order : seq (option nat * seq nat) -> seq (option nat * seq nat))
    (t : Tree) (D fuel fuel' : nat) (x0 : 'cV[F]_state_dim) :
  well_formed t -> leaves_at_depth D t ->
  (forall pm, perm_eq (map_order pm) pm) ->
  (D <= fuel)%N -> (size t <= fuel')%N ->
  exists t' : Tree,
    [/\ (t1 <- LQRTree.bellman_tree_backup inverse map_order fuel t ;;
         LQRTree.forward_pass fuel' x0 t1) = Done t',
        same_shape t t',
        forall i, (i < size t)%N -> node_backed_up inverse t' i
      & rolled_out x0 t'].
Proof.
move=> Hwf Hleaves Hperm Hfuel Hfuel'.
have [t0 [Hrun0 Hinv0]] := control_and_value_for_leaves_spec inverse Hwf Hleaves.
have [Hsh0 _ _ _] := Hinv0.
have [t1 [Hrun1 Hsh1 Hdone]] :=
  backup_rounds_spec Hwf Hleaves Hperm (leqnn D) Hfuel Hinv0.
have Hwf1 := same_shape_well_formed Hsh1 Hwf.
have [Hsz1 _] := Hsh1.
have [|t2 [Hrun2 Hpol Hpts]] := forward_pass_points (fuel := fuel') x0 Hwf1.
  by rewrite Hsz1.
exists t2; split.
- rewrite /LQRTree.bellman_tree_backup Hrun0 bind_unit.
  by rewrite (leaf_nodes_same_shape Hsh0) Hrun1 bind_unit.
- exact: same_shape_trans Hsh1 (same_policy_shape Hpol).
- by move=> i Hi; apply: same_policy_backed_up Hpol _; apply: Hdone.
- exact: points_rolled_out Hpts.
Qed.

End TreeForward.

(* ===================================================================== *)
(** ** Concrete runs *)
(* ===================================================================== *)

Lemma delta_mx11 (F : realFieldType) : delta_mx ord0 ord0 = 1%:M :> 'M[F]_1.
Proof. by apply/matrixP=> i j; rewrite !mxE !ord1. Qed.

Lemma cross_K (c : CostFunc rat 2 1) (t : nat) (x : 'cV[rat]_2) (u : 'cV[rat]_1) :
  spec_K (num := cross_numerics) 1 0 1%:M (delta_mx ord_max ord0)
    (quadratize_cost (Numerics := cross_numerics) c t x u)
  = - (delta_mx ord0 ord0 + delta_mx ord0 ord_max).
Proof.
rewrite /spec_K /spec_H /spec_Vtilde /= !add0r !mulmx1 trmx_delta.
by rewrite mul_delta_mx delta_mx11 invmx1 mul1mx trmx_delta.
Qed.

Lemma cross_PK (c : CostFunc rat 2 1) (t : nat) (x : 'cV[rat]_2) (u : 'cV[rat]_1) :
  (delta_mx ord0 ord0 *m
     spec_K (num := cross_numerics) 1 0 1%:M (delta_mx ord_max ord0)
       (quadratize_cost (Numerics := cross_numerics) c t x u))^T
  <> delta_mx ord0 ord0 *m
     spec_K (num := cross_numerics) 1 0 1%:M (delta_mx ord_max ord0)
       (quadratize_cost (Numerics := cross_numerics) c t x u).
Proof.
rewrite (cross_K c t x u) mulmxN mulmxDr !mul_delta_mx linearN linearD /= !trmx_delta.
move=> /matrixP /(_ ord0 ord_max); rewrite !mxE /= => /eqP.
by rewrite addr0 add0r eqr_opp eq_sym oner_eq0.
Qed.

(** C4, counterexample.  With the cross term [c(x,u) = x_0 u], dynamics
    [x' = x + (0,u)], [V_{t+1} = 0] and [mu = 1], the matrix [V_t] that
    either [bellman_backup] returns is not symmetric. *)
Lemma backup_value_not_symmetric :
  ~ ((let: (Vt, _, _, _) :=
        Chain.bellman_backup (num := cross_numerics) cross_solver 0 1 0 0 in
      Vt^T = Vt)
     /\
     (let: (_, Vt, _) :=
        Hindsight.bellman_backup (num := cross_numerics) cross_branches 0 1 1 0 0 in
      Vt^T = Vt)).
Proof.
have chain_case :
    ~ (let: (Vt, _, _, _) :=
         Chain.bellman_backup (num := cross_numerics) cross_solver 0 1 0 0 in
       Vt^T = Vt).
  rewrite chain_backup_spec => Hsym.
  apply: (@cross_PK (Chain.cost_ cross_solver) 0%N 0 0).
  exact: (proj1 (@spec_V_symmetric_iff _ _ _ cross_numerics 1 0 1%:M
                   (delta_mx ord_max ord0)
                   (quadratize_cost (Numerics := cross_numerics)
                      (Chain.cost_ cross_solver) 0%N 0 0)
                   (trmx0 _ _ _) (trmx0 _ _ _) (trmx0 _ _ _)) Hsym).
by case.
Qed.

(** *** The flat problem *)

Lemma flat_is_equal_refl (n : nat) (x : 'cV[rat]_n) :
  is_equal (Numerics := flat_numerics) x x.
Proof. exact: eqxx. Qed.

Lemma flat_almost_equal_refl (a : rat) :
  almost_equal (Numerics := flat_numerics) a a (Hindsight.prob_eps rat).
Proof. by rewrite /= subrr normr0 invr_ge0 ler0n. Qed.

Lemma flat_total :
  Hindsight.total_branch_probability (Hindsight.branches_ flat_hsolver) = 1.
Proof.
by rewrite /Hindsight.total_branch_probability /= add0r -mulr2n -mulr_natr mulVf.
Qed.

Lemma half_gt0 : 0 < (2^-1 : rat).
Proof. by rewrite invr_gt0 ltr0n. Qed.

Lemma flat_hsolveE :
  Hindsight.solve (num := flat_numerics) 1 2 0 0 0 1 2^-1 1 false 0 flat_hsolver
  = Hindsight.iterations (num := flat_numerics) 1 1 2 0 0 2^-1 1
      (Hindsight.cold_start flat_hsolver 2 0) PosInf.
Proof.
by apply: hindsight_solve_cold; rewrite ?half_gt0 ?flat_total ?flat_almost_equal_refl.
Qed.

Lemma flat_hsolve_Done :
  exists h',
    Hindsight.solve (num := flat_numerics) 1 2 0 0 0 1 2^-1 1 false 0 flat_hsolver
    = Done h'.
Proof.
rewrite flat_hsolveE.
apply: hindsight_one_iteration_Done; first exact: flat_is_equal_refl.
exact: cold_start_hinv.
Qed.

Lemma flat_solveE :
  Chain.solve (num := flat_numerics) 1 1 0 0 0 1 2^-1 1 false 0 flat_solver
  = Chain.iterations (num := flat_numerics) 1 1 1 0 0 2^-1 1
      (Chain.cold_start flat_solver 1 0) PosInf.
Proof. by apply: chain_solve_cold; rewrite ?half_gt0. Qed.

Lemma flat_solve_Done :
  exists s',
    Chain.solve (num := flat_numerics) 1 1 0 0 0 1 2^-1 1 false 0 flat_solver
    = Done s'.
Proof.
rewrite flat_solveE.
exact/chain_one_iteration_Done/well_sized_cold_start.
Qed.


Lemma warm_start_rederives_shared_gains_witness :
  exists h',
    Hindsight.warm_start warm_solver (int_to_nat 2) 1 0 0 = Done h'
    /\ shared_first_slot h'.
Proof.
eexists; split; first by rewrite /Hindsight.warm_start /=.
by have [_ _ _ [_ H] _] :=
  @warm_start_rederives_shared_gains rat 1 1 flat_numerics warm_solver _ 2 1 0 0 erefl.
Defined.

(** C5, counterexample.  In the flat problem every control Hessian
    [H = R + B^T (V + mu I) B] is the zero matrix, which is not
    invertible; yet [solve] runs its backward pass and returns. *)
Lemma solve_returns_with_singular_hessian :
  (forall (mu : rat) (V : 'M[rat]_1) (c : CostFunc rat 1 1) (t : nat)
          (x : 'cV[rat]_1) (u : 'cV[rat]_1),
     spec_H mu V 0 (quadratize_cost (Numerics := flat_numerics) c t x u)
       \notin unitmx)
  /\ (exists s',
        Chain.solve (num := flat_numerics) 1 1 0 0 0 1 2^-1 1 false 0 flat_solver
        = Done s')
  /\ (exists h',
        Hindsight.solve (num := flat_numerics) 1 2 0 0 0 1 2^-1 1 false 0 flat_hsolver
        = Done h').
Proof.
split; last by split; [exact: flat_solve_Done | exact: flat_hsolve_Done].
move=> mu V c t x u.
by rewrite /spec_H [quad_R _]/= mulmx0 addr0 unitmxE det0 unitr0.
Qed.

Lemma solve_never_throws_after_its_checks_witness :
  Chain.solve (num := flat_numerics) 1 1 0 0 0 1 2^-1 1 false 0 flat_solver
    <> Throw
  /\ Hindsight.solve (num := flat_numerics) 1 2 0 0 0 1 2^-1 1 false 0 flat_hsolver
    <> Throw.
Proof.
have [Hc _] := @solve_never_throws_after_its_checks rat 1 1 flat_numerics
                 1 1 0 0 0 1 2^-1 1 0 flat_solver flat_hsolver
                 (lexx 0) (ltr01 : 0 < 1 :> int) half_gt0 ltr01.
have [_ Hh] := @solve_never_throws_after_its_checks rat 1 1 flat_numerics
                 1 2 0 0 0 1 2^-1 1 0 flat_solver flat_hsolver
                 (lexx 0) (ltr01 : 0 < 1 :> int) half_gt0 ltr01.
split; first exact: (Hc ltr01).
apply: (Hh flat_is_equal_refl isT (lexx 0) isT).
rewrite flat_total; exact: flat_almost_equal_refl.
Defined.

(** *** Branch probabilities outside the unit interval *)

Lemma skewed_total : Hindsight.total_branch_probability skewed_branches = 1.
Proof.
rewrite total_branch_probabilityE /skewed_branches !big_cons big_nil.
rewrite [Hindsight.probability _]/= [Hindsight.probability (flat_branch (- _))]/=.
by field.
Qed.

(** C9, the failing input.  The constructor and the checks of [solve]
    accept two branches with probabilities [3/2] and [-1/2], which sum
    to 1; [set_branch_probability] rejects [3/2]. *)
Theorem make_accepts_probability_outside_unit_interval :
  Hindsight.make (num := flat_numerics) skewed_branches
    = Done (Hindsight.HSolver skewed_branches 0 0 0 0)
  /\ Hindsight.solve (num := flat_numerics) 1 2 0 0 0 1 2^-1 1 false 0
       (Hindsight.HSolver skewed_branches 0 0 0 0)
     = Hindsight.iterations (num := flat_numerics) 1 1 2 0 0 2^-1 1
         (Hindsight.cold_start (Hindsight.HSolver skewed_branches 0 0 0 0) 2 0) PosInf
  /\ Hindsight.set_branch_probability (Hindsight.HSolver skewed_branches 0 0 0 0)
       0 (3%:R / 2%:R) = Throw.
Proof.
split; [|split].
- apply: make_accepts; first exact: isT.
  rewrite skewed_total; exact: flat_almost_equal_refl.
- apply: hindsight_solve_cold;
    rewrite ?half_gt0 ?[Hindsight.branches_ _]/= ?skewed_total ?flat_almost_equal_refl;
    reflexivity.
- apply: set_branch_probability_rejects; apply/orP; right.
  by rewrite ltr_pdivlMr ?ltr0n // mul1r ltr_nat.
Qed.

(** *** One branch of probability 1: three time steps, one scalar state *)

Lemma single_flat_hsolve_Done :
  exists h',
    Hindsight.solve (num := flat_numerics) 1 3 0 0 0 1 2^-1 1 false 0
      (Hindsight.HSolver [:: flat_branch 1] 0 0 0 0) = Done h'.
Proof.
have -> : Hindsight.solve (num := flat_numerics) 1 3 0 0 0 1 2^-1 1 false 0
            (Hindsight.HSolver [:: flat_branch 1] 0 0 0 0)
          = Hindsight.iterations (num := flat_numerics) 1 1 3 0 0 2^-1 1
              (Hindsight.cold_start (Hindsight.HSolver [:: flat_branch 1] 0 0 0 0) 3 0)
              PosInf.
  by apply: hindsight_solve_cold; rewrite ?half_gt0.
apply: hindsight_one_iteration_Done; first exact: flat_is_equal_refl.
exact: cold_start_hinv.
Qed.


(** *** The line search on the regulator at its goal *)


(** *** A line search that halves its step size *)

Lemma overshoot_forward_pass (alpha : rat) :
  Chain.forward_pass overshoot 0 alpha
  = Done ([:: 0; alpha%:M], [:: alpha%:M], 1 + alpha ^+ 2).
Proof.
rewrite /Chain.forward_pass /Chain.timesteps /= /Chain.compute_control_stepsize.
rewrite /control_stepsize /= subrr mulmx0 add0r addr0 scalemx1.
rewrite /lq_dynamics mulmx0 add0r mul1mx.
rewrite /lq_cost /lq_final_cost trmx0 !mul0mx scaler0 !add0r.
rewrite tr_scalar_mx mulmx1 -scalar_mxM !mxE /= mulr1n.
congr (Done (_, _, _)).
rewrite -addrA -mulrDl -expr2; congr (_ + _).
have -> : 2^-1 + 2^-1 = 1 :> rat by rewrite -mulr2n -mulr_natr mulVf // pnatr_eq0.
by rewrite mul1r.
Qed.

(** The step size 1 as a binary64 number, and its half. *)
Definition one64 : step64 := Step64 1 1074.

Lemma step_val_one64 : step_val rat one64 = 1.
Proof.
have := step_val_shift rat 1 0.
by rewrite [in X in _ = X]expr0 [in X in _ = X]mulr1.
Qed.

Lemma step_val_half64 : step_val rat (halve64 one64) = 2^-1.
Proof.
have := @step_val_halve rat one64 isT.
by rewrite step_val_one64 [in X in _ = X]mul1r.
Qed.

Lemma overshoot_passE (a : rat) :
  Chain.line_search_pass overshoot 0 a
  = Done (([:: 0; a%:M], [:: a%:M]) : seq 'cV[rat]_1 * seq 'cV[rat]_1, 1 + a ^+ 2).
Proof. exact: overshoot_forward_pass. Qed.

Lemma overshoot_rejects_full_step : accepted (Finite (1 : rat)) 2^-1 (1 + 1 ^+ 2) = false.
Proof.
rewrite /accepted /cost_diff_ratio expr1n.
have -> : (1 + 1 == 0 :> rat) = false by rewrite -mulr2n pnatr_eq0.
by apply/negbTE; rewrite negb_or /xlt -!leNgt; apply/andP; split; lra.
Qed.

Lemma overshoot_accepts_half_step : accepted (Finite (1 : rat)) 2^-1 (1 + 2^-1 ^+ 2).
Proof.
rewrite /accepted /cost_diff_ratio.
have Hpos : 0 < 1 + 2^-1 ^+ 2 :> rat by rewrite addr_gt0 // exprn_gt0 // half_gt0.
rewrite (gt_eqF Hpos); apply/orP; right; rewrite /xlt.
by rewrite opprD addNKr normf_div normrN !gtr0_norm ?exprn_gt0 ?half_gt0.
Qed.

(** From [start_alpha = 1] and the previous cost 1, with
    [cost_convg_ratio = 1/2]: the pass at 1 costs 2 and is rejected (ratio
    1/2), the pass at 1/2 costs 5/4 and is accepted (ratio 1/5). *)
Lemma overshoot_line_search :
  line_search64 2 (Chain.line_search_pass overshoot 0) (Finite 1) 2^-1 one64
  = Done ([:: 0; (2^-1)%:M], [:: (2^-1)%:M], 1 + 2^-1 ^+ 2,
          cost_diff_ratio (Finite 1) (1 + 2^-1 ^+ 2), halve64 (halve64 one64)).
Proof.
rewrite (line_search64_step overshoot_passE) step_val_one64.
rewrite overshoot_rejects_full_step.
rewrite (line_search64_step overshoot_passE) step_val_half64.
by rewrite overshoot_accepts_half_step.
Qed.


(** *** The backup on a tree of depth 1 *)

Lemma bellman_tree_backup_spec_witness :
  exists t' : LQRTree.Tree rat 1 1,
    [/\ LQRTree.bellman_tree_backup invmx id 1 fork_tree = Done t',
        only_gains_changed fork_tree t',
        forall i, (i < size fork_tree)%N ->
          nilp (LQRTree.children (LQRTree.node fork_tree i)) ->
          LQRTree.K_ (LQRTree.item (LQRTree.node t' i)) = 0
          /\ LQRTree.V_ (LQRTree.item (LQRTree.node t' i))
             = LQRTree.cost_Q (LQRTree.item (LQRTree.node fork_tree i))
      & forall i, (i < size fork_tree)%N -> node_backed_up invmx t' i].
Proof.
exact: (@bellman_tree_backup_spec rat 1 1 invmx id fork_tree 1 1
          isT isT (fun pm => perm_refl pm) (leqnn 1)).
Defined.

(** *** Witnesses on the regulator and the flat problem *)

Definition flat_stored : Chain.iLQRSolver rat 1 1 := Chain.cold_start flat_solver 2 0.

Lemma chain_warm_solve_witness :
  Chain.solve (num := flat_numerics) 1 1 0 0 0 1 2^-1 1 true 1 flat_stored
  = if well_sized (int_to_nat 1 + int_to_nat 1) flat_stored
    then Chain.iterations (num := flat_numerics) 1 (int_to_nat 1) (int_to_nat 1)
           0 0 2^-1 1 (chain_shifted 1 flat_stored) PosInf
    else Throw.
Proof.
exact: (@chain_warm_solve rat 1 1 flat_numerics 1 1 0 0 0 1 2^-1 1 1 flat_stored
          isT (lexx 0) isT half_gt0 ltr01 isT).
Defined.


Definition goal_state (c0 : rat) (K : 'M[rat]_1) : Chain.iLQRSolver rat 1 1 :=
  at_goal 1%:M 1%:M 1%:M 1%:M 0 1%:M c0 K.

Lemma goal_state_follows (c0 : rat) (K : 'M[rat]_1) :
  follows_dynamics (Chain.dynamics_ (goal_state c0 K)) 0
    (Chain.xhat_ (goal_state c0 K)) (Chain.uhat_ (goal_state c0 K)).
Proof.
split=> // -[|t] //= _.
by rewrite [lq_dynamics _ _ _ _]lq_dynamics_origin.
Qed.

Lemma chain_forward_pass_zero_step_witness :
  Chain.forward_pass (goal_state 1 1%:M) 0 0
  = Done (Chain.xhat_ (goal_state 1 1%:M), Chain.uhat_ (goal_state 1 1%:M),
          \sum_(0 <= t < 1)
             Chain.cost_ (goal_state 1 1%:M) (nth 0 (Chain.xhat_ (goal_state 1 1%:M)) t)
               (nth 0 (Chain.uhat_ (goal_state 1 1%:M)) t) t
          + Chain.final_cost_ (goal_state 1 1%:M)
              (nth 0 (Chain.xhat_ (goal_state 1 1%:M)) 1)).
Proof.
exact: (@chain_forward_pass_zero_step rat 1 1 1 (goal_state 1 1%:M) 0
          isT (goal_state_follows 1 1%:M)).
Defined.

Lemma goal_sym : (1%:M : 'M[rat]_1)^T = 1%:M.
Proof. exact: trmx1. Qed.

Lemma goal_unit (k : nat) :
  (k < 1)%N ->
  (1%:M : 'M[rat]_1) + (1%:M : 'M[rat]_1)^T
    *m riccati (1%:M : 'M[rat]_1) (1%:M : 'M[rat]_1) 1%:M 1%:M 1%:M k *m 1%:M
    \in unitmx.
Proof.
case: k => // _; rewrite [riccati _ _ _ _ _ _]/= trmx1 !mulmx1 -raddfD /=.
by rewrite unitmxE det_scalar1 unitfE -[1 + 1]/(2%:R) pnatr_eq0.
Qed.

Lemma goal_state_lq (K : 'M[rat]_1) :
  is_lq (1%:M : 'M[rat]_1) (1%:M : 'M[rat]_1) 1%:M 1%:M 1%:M 0 (goal_state 0 K).
Proof. by []. Qed.

Lemma goal_state_linear (K : 'M[rat]_1) :
  nominal_linear (1%:M : 'M[rat]_1) (1%:M : 'M[rat]_1) 1 (goal_state 0 K).
Proof. by case=> // _; rewrite /= !mulmx0 addr0. Qed.

Lemma lq_newton_step_witness :
  (let: (QT', gT) :=
     quadratize_final_cost (Numerics := goal_numerics)
       (Chain.final_cost_ (goal_state 0 1%:M))
       (nth 0 (Chain.xhat_ (goal_state 0 1%:M)) 1) in
   Chain.forward_pass
     (Chain.backward_pass (num := goal_numerics) 1 0 (goal_state 0 1%:M) QT' gT^T)
     1%:M 1)
  = Done (lqr_trajectory 1%:M 1%:M 1%:M 1%:M 1%:M 1 0 1%:M).
Proof.
exact: (@lq_newton_step rat 1 1 1%:M 1%:M 1%:M 1%:M 1%:M goal_sym goal_sym goal_sym
          1 0 goal_unit (goal_state 0 1%:M) 1%:M isT (goal_state_lq 1%:M)
          (goal_state_linear 1%:M)).
Defined.

Lemma lq_newton_step_fixed_point_witness :
  let s1 := Chain.set_nominal (goal_state 0 1%:M)
              (lqr_trajectory 1%:M 1%:M 1%:M 1%:M 1%:M 1 0 1%:M).1.2
              (lqr_trajectory 1%:M 1%:M 1%:M 1%:M 1%:M 1 0 1%:M).1.1 in
  (let: (QT', gT) :=
     quadratize_final_cost (Numerics := goal_numerics) (Chain.final_cost_ s1)
       (nth 0 (Chain.xhat_ s1) 1) in
   Chain.forward_pass
     (Chain.backward_pass (num := goal_numerics) 1 0 s1 QT' gT^T) 1%:M 1)
  = Done (lqr_trajectory 1%:M 1%:M 1%:M 1%:M 1%:M 1 0 1%:M).
Proof.
exact: (@lq_newton_step_fixed_point rat 1 1 1%:M 1%:M 1%:M 1%:M 1%:M
          goal_sym goal_sym goal_sym 1 0 goal_unit (goal_state 0 1%:M) 1%:M
          isT (goal_state_lq 1%:M)).
Defined.


Lemma set_branch_probability_leaves_sum_unchecked_witness :
  exists h' : Hindsight.iLQRHindsightSolver rat 1 1,
    [/\ Hindsight.set_branch_probability flat_hsolver 0 1 = Done h',
        size (Hindsight.branches_ h') = size (Hindsight.branches_ flat_hsolver),
        Hindsight.probability
          (nth (Hindsight.null_branch rat 1 1) (Hindsight.branches_ h') (int_to_nat 0))
        = 1,
        Hindsight.total_branch_probability (Hindsight.branches_ h')
        = Hindsight.total_branch_probability (Hindsight.branches_ flat_hsolver)
          - Hindsight.probability
              (nth (Hindsight.null_branch rat 1 1) (Hindsight.branches_ flat_hsolver)
                 (int_to_nat 0))
          + 1
      & ~~ almost_equal (Numerics := flat_numerics)
             (Hindsight.total_branch_probability (Hindsight.branches_ h'))
             1 (Hindsight.prob_eps rat) ->
        forall fuel T x_init u_nominal mu max_iters convg start_alpha warm_start
               t_offset,
          Hindsight.solve (num := flat_numerics) fuel T x_init u_nominal mu max_iters
            convg start_alpha warm_start t_offset h' = Throw].
Proof.
exact: (@set_branch_probability_leaves_sum_unchecked rat 1 1 flat_numerics
          flat_hsolver 0 1 (lexx 0) isT ler01 (lexx 1)).
Defined.


(** *** The forward pass on a tree of depth 1 *)

Lemma tree_forward_pass_spec_witness :
  exists t' : LQRTree.Tree rat 1 1,
    [/\ LQRTree.forward_pass 3 1%:M fork_tree = Done t',
        same_policy fork_tree t'
      & rolled_out 1%:M t'].
Proof.
exact: (@tree_forward_pass_spec rat 1 1 fork_tree 1%:M 3 isT isT).
Defined.

Lemma tree_backup_then_forward_pass_witness :
  exists t' : LQRTree.Tree rat 1 1,
    [/\ (t1 <- LQRTree.bellman_tree_backup invmx id 1 fork_tree ;;
         LQRTree.forward_pass 3 1%:M t1) = Done t',
        same_shape fork_tree t',
        forall i, (i < size fork_tree)%N -> node_backed_up invmx t' i
      & rolled_out 1%:M t'].
Proof.
exact: (@tree_backup_then_forward_pass rat 1 1 invmx id fork_tree 1 1 3 1%:M
          isT isT (fun pm => perm_refl pm) (leqnn 1) isT).
Defined.
